(** * tricorder: metrics registry, distributions and namespace

  A shallow embedding of the Go package [tricorder]: the bucketed
  distribution with its median estimator, the path parser, and the
  namespace of directories and metrics kept in a pointer-linked store. *)

From Stdlib Require Import ZArith QArith Qminmax Lia Lqa List Bool.
From Stdlib Require Import Floats.SpecFloat Ascii.
From stdpp Require Import gmap strings list sorting.

(** ** float64 arithmetic

  Go's [float64] is IEEE 754 binary64.  The arithmetic the package uses is
  collected in one interface so that the code of the distribution is
  written once; [Binary64] is the instance the Go program runs on, and
  [Exact] is the same code over the rationals, with no rounding. *)

Class Float64Ops (F : Type) := {
  f_zero : F;                       (* the zero value 0.0 *)
  f_one : F;                        (* the literal 1.0 *)
  f_two : F;                        (* the literal 2.0 *)
  f_neg_half : F;                   (* the literal -0.5 *)
  f_of_uint64 : Z -> F;             (* float64(u) for a uint64 u *)
  f_add : F -> F -> F;
  f_sub : F -> F -> F;
  f_mul : F -> F -> F;
  f_div : F -> F -> F;
  f_lt : F -> F -> bool;            (* x < y *)
  f_le : F -> F -> bool;            (* x <= y *)
  f_Min : F -> F -> F;              (* math.Min *)
  f_Max : F -> F -> F;              (* math.Max *)
}.

Definition f_gt {F} `{Float64Ops F} (x y : F) : bool := f_lt y x.
Definition f_ge {F} `{Float64Ops F} (x y : F) : bool := f_le y x.

Module Binary64.

Definition prec : Z := 53.
Definition emax : Z := 1024.

Definition float64 : Type := spec_float.

Definition NaN : float64 := S754_nan.
Definition PosInf : float64 := S754_infinity false.
Definition NegInf : float64 := S754_infinity true.

(** Conversion of an integer, rounding to nearest even. *)
Definition of_Z (z : Z) : float64 := binary_normalize prec emax z 0 false.

Definition add : float64 -> float64 -> float64 := SFadd prec emax.
Definition sub : float64 -> float64 -> float64 := SFsub prec emax.
Definition mul : float64 -> float64 -> float64 := SFmul prec emax.
Definition div : float64 -> float64 -> float64 := SFdiv prec emax.
Definition ltb : float64 -> float64 -> bool := SFltb.
Definition leb : float64 -> float64 -> bool := SFleb.
Definition eqb : float64 -> float64 -> bool := SFeqb.

Definition is_nan (x : float64) : bool :=
  match x with S754_nan => true | _ => false end.

Definition signbit (x : float64) : bool :=
  match x with
  | S754_zero s | S754_infinity s | S754_finite s _ _ => s
  | S754_nan => false
  end.

(** [math.Min] and [math.Max] of the Go library, with their special
    cases for infinities, NaN and signed zeros. *)
Definition Min (x y : float64) : float64 :=
  if orb (eqb x NegInf) (eqb y NegInf) then NegInf
  else if orb (is_nan x) (is_nan y) then NaN
  else if andb (eqb x (of_Z 0)) (eqb x y) then (if signbit x then x else y)
  else if ltb x y then x else y.

Definition Max (x y : float64) : float64 :=
  if orb (eqb x PosInf) (eqb y PosInf) then PosInf
  else if orb (is_nan x) (is_nan y) then NaN
  else if andb (eqb x (of_Z 0)) (eqb x y) then (if signbit x then y else x)
  else if ltb y x then x else y.

#[global] Instance ops : Float64Ops float64 := {|
  f_zero := S754_zero false;
  f_one := of_Z 1;
  f_two := of_Z 2;
  f_neg_half := SFopp (div (of_Z 1) (of_Z 2));
  f_of_uint64 := of_Z;
  f_add := add; f_sub := sub; f_mul := mul; f_div := div;
  f_lt := ltb; f_le := leb;
  f_Min := Min; f_Max := Max;
|}.

End Binary64.

(** The rationals: no rounding, no NaN, no infinities, no signed zeros.
    Not what the program runs on; what is proved over this instance says how
    the estimator behaves when its arithmetic is exact, and nothing more. *)
Module Exact.

Definition ltb (x y : Q) : bool := negb (Qle_bool y x).

#[global] Instance ops : Float64Ops Q := {|
  f_zero := 0%Q;
  f_one := 1%Q;
  f_two := 2%Q;
  f_neg_half := (- (1 # 2))%Q;
  f_of_uint64 := inject_Z;
  f_add := Qplus; f_sub := Qminus; f_mul := Qmult; f_div := Qdiv;
  f_lt := ltb; f_le := Qle_bool;
  f_Min := fun x y => if ltb x y then x else y;
  f_Max := fun x y => if ltb y x then x else y;
|}.

End Exact.

(** ** Unsigned 64-bit counters *)

Definition wrap64 (z : Z) : Z := (z mod 2 ^ 64)%Z.

(** ** sort.Search of the Go library

  [Search n f] runs the loop
  [i, j := 0, n; for i < j { h := int(uint(i+j) >> 1); if !f(h) { i = h + 1 } else { j = h } }; return i].
  The interval [j - i] shrinks at every turn, so [n] turns are enough. *)

Fixpoint search_loop (fuel : nat) (f : Z -> bool) (i j : Z) : Z :=
  match fuel with
  | O => i
  | S fuel' =>
      if (i <? j)%Z then
        let h := Z.shiftr (wrap64 (i + j)) 1 in
        if negb (f h) then search_loop fuel' f (h + 1)%Z j
        else search_loop fuel' f i h
      else i
  end.

Definition Search (n : Z) (f : Z -> bool) : Z :=
  search_loop (Z.to_nat n) f 0%Z n.

(** ** Bucketers and distributions *)

Module Dist.
Section Code.
Context {F : Type} `{Float64Ops F}.
Local Open Scope Z_scope.

(** bucketPiece: a single range of a distribution. *)
Record bucketPiece := {
  Start : F;
  End_ : F;
  First : bool;
  Last : bool;
}.

Record Bucketer := { b_pieces : list bucketPiece }.

Fixpoint stream_iter (n : nat) (current : F) (next : F -> F) : list F :=
  match n with
  | O => []
  | S n' => current :: stream_iter n' (next current) next
  end.

(** The stream constructors return the announced size of the stream and
    the values sent on the channel, in order; [None] is a panic. *)
Definition newExponentialBucketerStream (count : Z) (start scale : F)
  : option (Z * list F) :=
  if (count <? 2) || f_le start f_zero || f_le scale f_one then None
  else Some (count - 1,
             stream_iter (Z.to_nat (count - 1)) start (fun c => f_mul c scale)).

Definition newLinearBucketerStream (count : Z) (start increment : F)
  : option (Z * list F) :=
  if (count <? 2) || f_le increment f_zero then None
  else Some (count - 1,
             stream_iter (Z.to_nat (count - 1)) start (fun c => f_add c increment)).

Definition newArbitraryBucketerStream (endpoints : list F)
  : option (Z * list F) :=
  if Z.of_nat (length endpoints) =? 0 then None
  else Some (Z.of_nat (length endpoints), endpoints).

(** The pieces between consecutive values of the stream, closed by the
    piece flagged [Last]. *)
Fixpoint pieces_from (lower : F) (rest : list F) : list bucketPiece :=
  match rest with
  | [] => [ {| Start := lower; End_ := f_zero; First := false; Last := true |} ]
  | upper :: rest' =>
      {| Start := lower; End_ := upper; First := false; Last := false |}
        :: pieces_from upper rest'
  end.

(** The three callers hand over a stream of exactly [streamSize] values;
    this is the case that is modelled.  [make([]*bucketPiece, streamSize+1)]
    is taken to succeed: the model has no allocation that fails, so it
    returns for sizes at which the Go runtime panics or runs out of memory,
    and says of the code only what holds of a bucketer it returned. *)
Definition newBucketerFromStream (s : Z * list F) : option Bucketer :=
  let '(streamSize, stream) := s in
  if streamSize <? 1 then None
  else if negb (Z.of_nat (length stream) =? streamSize) then None
  else
    match stream with
    | [] => None
    | lower :: rest =>
        Some {| b_pieces :=
                  {| Start := f_zero; End_ := lower; First := true; Last := false |}
                    :: pieces_from lower rest |}
    end.

Definition NewExponentialBucketer (count : Z) (start scale : F) : option Bucketer :=
  s ← newExponentialBucketerStream count start scale; newBucketerFromStream s.

Definition NewLinearBucketer (count : Z) (start increment : F) : option Bucketer :=
  s ← newLinearBucketerStream count start increment; newBucketerFromStream s.

Definition NewArbitraryBucketer (endpoints : list F) : option Bucketer :=
  s ← newArbitraryBucketerStream endpoints; newBucketerFromStream s.

Record breakdownPiece := {
  bp_piece : bucketPiece;
  bp_Count : Z;
}.

Record snapshot := {
  Min : F;
  Max : F;
  Average : F;
  Median : F;
  Count : Z;
  Breakdown : list breakdownPiece;
}.

Record distribution := {
  pieces : list bucketPiece;
  counts : list Z;
  total : F;
  min : F;
  max : F;
  count : Z;
}.

Definition newDistribution (bucketer : Bucketer) : distribution :=
  {| pieces := b_pieces bucketer;
     counts := replicate (length (b_pieces bucketer)) 0;
     total := f_zero; min := f_zero; max := f_zero; count := 0 |}.

Definition findDistributionIndex (pieces : list bucketPiece) (value : F) : Z :=
  Search (Z.of_nat (length pieces) - 1)
    (fun i => match pieces !! Z.to_nat i with
              | Some p => f_lt value (End_ p)
              | None => false
              end).

(** [Add]; [None] is the index-out-of-range panic of [d.counts[idx]]. *)
Definition Add (d : distribution) (value : F) : option distribution :=
  let idx := Z.to_nat (findDistributionIndex (pieces d) value) in
  c ← counts d !! idx;
  let counts' := <[idx := wrap64 (c + 1)]> (counts d) in
  let total' := f_add (total d) value in
  let '(min', max') :=
    if count d =? 0 then (value, value)
    else if f_lt value (min d) then (value, max d)
    else if f_gt value (max d) then (min d, value)
    else (min d, max d) in
  Some {| pieces := pieces d; counts := counts'; total := total';
          min := min'; max := max'; count := wrap64 (count d + 1) |}.

(** The loop of [valueIndexToPiece], on the counts from [pieceIdx] on;
    running off the end of [counts] is the index-out-of-range panic. *)
Fixpoint valueIndexToPiece_from (rest : list Z) (pieceIdx : nat)
    (startValueIdxInPiece valueIdx : F) : option (nat * F) :=
  match rest with
  | [] => None
  | c :: rest' =>
      if f_ge (f_sub valueIdx startValueIdxInPiece) (f_of_uint64 c) then
        valueIndexToPiece_from rest' (S pieceIdx)
          (f_add startValueIdxInPiece (f_of_uint64 c)) valueIdx
      else
        Some (pieceIdx,
              f_div (f_sub valueIdx startValueIdxInPiece) (f_of_uint64 c))
  end.

Definition valueIndexToPiece (counts : list Z) (valueIdx : F) : option (nat * F) :=
  valueIndexToPiece_from counts 0%nat f_neg_half valueIdx.

(** [(1.0-frac)*min + frac*max], each of the four operations rounded on its
    own: no fused multiply-add. *)
Definition interpolate (min max frac : F) : F :=
  f_add (f_mul (f_sub f_one frac) min) (f_mul frac max).

Definition calculateMedian (d : distribution) : option F :=
  if count d =? 1 then Some (min d)
  else
    let medianIndex := f_div (f_of_uint64 (wrap64 (count d - 1))) f_two in
    '(pieceIdx, frac) ← valueIndexToPiece (counts d) medianIndex;
    let pieceLen := length (pieces d) in
    if Nat.eqb pieceIdx 0 then
      p ← pieces d !! 0%nat;
      Some (interpolate (min d) (f_Min (End_ p) (max d)) frac)
    else if Nat.eqb pieceIdx (pieceLen - 1) then
      p ← pieces d !! (pieceLen - 1)%nat;
      Some (interpolate (f_Max (Start p) (min d)) (max d) frac)
    else
      p ← pieces d !! pieceIdx;
      Some (interpolate (f_Max (Start p) (min d)) (f_Min (End_ p) (max d)) frac).

Fixpoint fill_breakdown (ps : list bucketPiece) (cs : list Z)
  : option (list breakdownPiece) :=
  match ps with
  | [] => Some []
  | p :: ps' =>
      match cs with
      | [] => None
      | c :: cs' =>
          r ← fill_breakdown ps' cs';
          Some ({| bp_piece := p; bp_Count := c |} :: r)
      end
  end.

Definition Snapshot (d : distribution) : option snapshot :=
  bdn ← fill_breakdown (pieces d) (counts d);
  if count d =? 0 then
    Some {| Min := f_zero; Max := f_zero; Average := f_zero; Median := f_zero;
            Count := count d; Breakdown := bdn |}
  else
    median ← calculateMedian d;
    Some {| Min := min d; Max := max d;
            Average := f_div (total d) (f_of_uint64 (count d));
            Median := median; Count := count d; Breakdown := bdn |}.

(** A run of [Add] calls, in order. *)
Fixpoint AddAll (d : distribution) (values : list F) : option distribution :=
  match values with
  | [] => Some d
  | v :: values' => d' ← Add d v; AddAll d' values'
  end.

End Code.
End Dist.


(** ** The ranges of a distribution, as sent over RPC *)

Module RPC.
Section Code.
Context {F : Type} `{Float64Ops F}.

(** [messages.RangeWithCount], of package [messages], which is not among
    the files at hand; modelled from its use in [asRPCRanges], with the
    fields that function fills: [Lower] and [Upper] are pointers, nil on the
    side where the range is open. *)
Record RangeWithCount := {
  Lower : option F;
  Upper : option F;
  Count : Z;
}.

Definition asRPCRanges (ranges : list (@Dist.breakdownPiece F)) : list RangeWithCount :=
  map (fun r =>
         {| Count := Dist.bp_Count r;
            Lower := if Dist.First (Dist.bp_piece r) then None
                     else Some (Dist.Start (Dist.bp_piece r));
            Upper := if Dist.Last (Dist.bp_piece r) then None
                     else Some (Dist.End_ (Dist.bp_piece r)) |})
      ranges.

End Code.
End RPC.

(** ** Specification vocabulary for distributions *)

Definition sum_counts (cs : list Z) : Z := foldr Z.add 0%Z cs.

Module DistSpec.
Section Generic.
Context {F : Type} `{Float64Ops F}.
Local Open Scope Z_scope.

(** The shape every distribution built by the package has after [n]
    observations. *)
Record counted (n : Z) (d : @Dist.distribution F) : Prop := {
  counted_len : length (Dist.counts d) = length (Dist.pieces d);
  counted_pieces : 1 <= Z.of_nat (length (Dist.pieces d)) < 2 ^ 63;
  counted_pos : Forall (fun c => 0 <= c) (Dist.counts d);
  counted_sum : sum_counts (Dist.counts d) = n;
  counted_count : Dist.count d = n;
}.

Definition Add_result (d : @Dist.distribution F) (x : F) (idx : nat) (c : Z)
  : @Dist.distribution F :=
  {| Dist.pieces := Dist.pieces d;
     Dist.counts := <[idx := c + 1]> (Dist.counts d);
     Dist.total := f_add (Dist.total d) x;
     Dist.min := if Dist.count d =? 0 then x
                 else if f_lt x (Dist.min d) then x else Dist.min d;
     Dist.max := if Dist.count d =? 0 then x
                 else if f_lt x (Dist.min d) then Dist.max d
                 else if f_lt (Dist.max d) x then x else Dist.max d;
     Dist.count := Dist.count d + 1 |}.

(** The pieces of the bucketer with cut points [es]. *)
Definition pieces_of (es : list F) : list (@Dist.bucketPiece F) :=
  match es with
  | [] => []
  | e :: rest =>
      {| Dist.Start := f_zero; Dist.End_ := e; Dist.First := true; Dist.Last := false |}
        :: Dist.pieces_from e rest
  end.

(** A distribution over the cut points [es] after the observations [xs]. *)
Definition observes (es xs : list F) (d : @Dist.distribution F) : Prop :=
  exists b, Dist.NewArbitraryBucketer es = Some b /\
            Dist.AddAll (Dist.newDistribution b) xs = Some d.

(** The claim about the median, in the words of the specification. *)
Definition Median_claim (s : @Dist.snapshot F) : Prop :=
  f_le (Dist.Min s) (Dist.Median s) = true /\
  f_le (Dist.Median s) (Dist.Max s) = true.

End Generic.
End DistSpec.

Module DistExactSpec.
Local Open Scope Q_scope.

(** Every bucket with a positive count holds an observed value: one
    between [min] and [max] that lies below the cut point closing the bucket
    and not below the one opening it. *)
Definition occupied (es : list Q) (d : @Dist.distribution Q) : Prop :=
  forall i c, Dist.counts d !! i = Some c -> (0 < c)%Z ->
    exists x, Dist.min d <= x /\ x <= Dist.max d /\
      (forall e, es !! i = Some e -> x < e) /\
      (forall i' e, i = S i' -> es !! i' = Some e -> e <= x).

End DistExactSpec.

Module DistBinary64Spec.
Import Binary64.
Local Open Scope Z_scope.

Abbreviation distribution := (@Dist.distribution float64).
Abbreviation snapshot := (@Dist.snapshot float64).

(** Evaluation of the code on given cut points and values. *)
Definition run (es xs : list float64) : option distribution :=
  b ← Dist.NewArbitraryBucketer es; Dist.AddAll (Dist.newDistribution b) xs.

(** Cut points [e_1 < e_2 < ... < e_k]. *)
Fixpoint ascending (es : list float64) : Prop :=
  match es with
  | a :: (b :: _) as tl => ltb a b = true /\ ascending tl
  | _ => True
  end.

(** What the observed minimum and maximum look like after the
    observations [xs]: both are observed values; they are ordered unless
    the first observation was NaN, which sticks. *)
Definition extremes (xs : list float64) (d : distribution) : Prop :=
  match xs with
  | [] => True
  | x0 :: _ =>
      In (Dist.min d) xs /\ In (Dist.max d) xs /\
      if is_nan x0
      then is_nan (Dist.min d) = true /\ is_nan (Dist.max d) = true
      else leb (Dist.min d) (Dist.max d) = true
  end.

(** The claim about [Add], in the words of the specification: [d'] is
    [d] with the count of the bucket [b], [e_b <= x < e_(b+1)], raised by
    one ([b = 0] is the bucket below [e_1], [b = k] the one from [e_k]
    on), the sum by [x], the count by one, and the extremes widened to
    take [x] in. *)
Definition in_bucket (es : list float64) (x : float64) (b : nat) : Prop :=
  (b <= length es)%nat /\
  (forall e, es !! b = Some e -> ltb x e = true) /\
  (forall b' e, b = S b' -> es !! b' = Some e -> leb e x = true).

Definition Add_claim (es : list float64) (d d' : distribution) (x : float64) : Prop :=
  exists (b : nat) (c : Z),
    in_bucket es x b /\
    Dist.counts d !! b = Some c /\
    Dist.counts d' = <[b := c + 1]> (Dist.counts d) /\
    Dist.total d' = add (Dist.total d) x /\
    Dist.count d' = Dist.count d + 1 /\
    (Dist.count d = 0 -> Dist.min d' = x /\ Dist.max d' = x) /\
    (Dist.count d <> 0 ->
       Dist.min d' = (if ltb x (Dist.min d) then x else Dist.min d) /\
       Dist.max d' = (if ltb (Dist.max d) x then x else Dist.max d)).

(** The claim about snapshots, in the words of the specification. *)
Definition Snapshot_claim (xs : list float64) (s : snapshot) : Prop :=
  Dist.Count s = Z.of_nat (length xs) /\
  sum_counts (map Dist.bp_Count (Dist.Breakdown s)) = Dist.Count s /\
  (1 <= Dist.Count s ->
     leb (Dist.Min s) (Dist.Max s) = true /\
     In (Dist.Min s) xs /\ In (Dist.Max s) xs).

End DistBinary64Spec.

(** ** Specification vocabulary for binary64 *)

Module Binary64Spec.
Import Binary64.
Local Open Scope Z_scope.

(** A mantissa of 53 bits with an exponent in the range of the normal
    numbers. *)
Definition normal (M : positive) (E : Z) : Prop :=
  2 ^ 52 <= Zpos M < 2 ^ 53 /\ -1074 <= E <= 971.

(** [half h] is the float64 of value [h / 2], for [|h| < 2^53]: the counts
    and the indices of the median search are of this kind. *)
Definition half_exponent (h : Z) : Z := Z.log2 (Z.abs h) - 53.

Definition half (h : Z) : float64 :=
  match h with
  | Z0 => S754_zero false
  | _ => S754_finite (h <? 0)
           (Z.to_pos (Z.abs h * 2 ^ (-1 - half_exponent h))) (half_exponent h)
  end.

End Binary64Spec.

(** ** Specification vocabulary for bucketers *)

Module BucketerSpec.
Import Binary64.
Local Open Scope Z_scope.

Abbreviation Bucketer := (@Dist.Bucketer float64).
Abbreviation bucketPiece := (@Dist.bucketPiece float64).

(** The bucketers the three constructors return; a count is a Go [int] and
    a slice has fewer than [2^63] elements. *)
Definition constructed (b : Bucketer) : Prop :=
  (exists count start scale,
     count < 2 ^ 63 /\ Dist.NewExponentialBucketer count start scale = Some b) \/
  (exists count start increment,
     count < 2 ^ 63 /\ Dist.NewLinearBucketer count start increment = Some b) \/
  (exists endpoints,
     Z.of_nat (length endpoints) < 2 ^ 63 - 1 /\
     Dist.NewArbitraryBucketer endpoints = Some b).

(** The pieces lie side by side: the first is flagged [First] and no
    other, the last is flagged [Last] and no other, and each piece ends where
    the next one starts. *)
Definition side_by_side (ps : list bucketPiece) : Prop :=
  (forall i p, ps !! i = Some p ->
     Dist.First p = Nat.eqb i 0 /\ Dist.Last p = Nat.eqb (S i) (length ps)) /\
  (forall i p q, ps !! i = Some p -> ps !! S i = Some q -> Dist.End_ p = Dist.Start q).

(** How many of the values [xs] the binary search sends to bucket [i]. *)
Definition sent_to (ps : list bucketPiece) (xs : list float64) (i : nat) : Z :=
  Z.of_nat (length (filter (fun x => Z.to_nat (Dist.findDistributionIndex ps x) = i) xs)).

End BucketerSpec.

(** ** Paths *)

Module Path.

(** pathSpec represents a relative path. *)
Definition pathSpec : Type := list string.

(** strings.Split(s, "/") of the Go library. *)
Fixpoint Split (s : string) : list string :=
  match s with
  | EmptyString => [EmptyString]
  | String c rest =>
      if Ascii.eqb c "/"%char then EmptyString :: Split rest
      else match Split rest with
           | [] => [String c EmptyString]
           | hd :: tl => String c hd :: tl
           end
  end.

Definition ascii_space (b : N) : bool :=
  ((9 <=? b) && (b <=? 13) || (b =? 32))%N.

(** The UTF-8 encodings of the white space runes above U+007F, as
    unicode.IsSpace of the Go library has them: U+0085, U+00A0 on two
    bytes; U+1680, U+2000 to U+200A, U+2028, U+2029, U+202F, U+205F and
    U+3000 on three. *)
Definition two_byte_space (b1 b2 : N) : bool :=
  ((b1 =? 194) && ((b2 =? 133) || (b2 =? 160)))%N.

Definition three_byte_space (b1 b2 b3 : N) : bool :=
  ((b1 =? 225) && (b2 =? 154) && (b3 =? 128)
   || (b1 =? 226) && (b2 =? 128)
      && ((128 <=? b3) && (b3 <=? 138) || (b3 =? 168) || (b3 =? 169) || (b3 =? 175))
   || (b1 =? 226) && (b2 =? 129) && (b3 =? 159)
   || (b1 =? 227) && (b2 =? 128) && (b3 =? 128))%N.

Fixpoint only_spaces (bs : list N) : bool :=
  match bs with
  | [] => true
  | b1 :: rest1 =>
      if ascii_space b1 then only_spaces rest1
      else
        match rest1 with
        | [] => false
        | b2 :: rest2 =>
            if two_byte_space b1 b2 then only_spaces rest2
            else
              match rest2 with
              | [] => false
              | b3 :: rest3 =>
                  if three_byte_space b1 b2 b3 then only_spaces rest3 else false
              end
        end
  end.

(** [strings.TrimSpace(s) == ""]: [s] is made of white space runes only. *)
Definition TrimSpace_is_empty (s : string) : bool :=
  only_spaces (map N_of_ascii (String.list_ascii_of_string s)).

Definition newPathSpec (path : string) : pathSpec :=
  filter (fun part => TrimSpace_is_empty part = false) (Split path).

(** Dir and Base panic on the empty path: [None]. *)
Definition Dir (p : pathSpec) : option pathSpec :=
  match p with
  | [] => None
  | _ => Some (removelast p)
  end.

Definition Base (p : pathSpec) : option string := last p.

Definition Empty (p : pathSpec) : bool :=
  match p with [] => true | _ => false end.

(** [strings.Join(p, "/")] *)
Definition String_ (p : pathSpec) : string := String.concat "/" p.

End Path.

(** ** The namespace: directories, list entries and metrics in a store *)

Module Namespace.
Import Path.

(** Pointers are addresses into the store; [None] is the nil pointer. *)
Definition addr : Type := positive.

Inductive error :=
  | ErrPathInUse
  | OtherError (code : N).

(** Modelled from the spec: the kinds of package [types], which is not among
    the files at hand: Bool, Int, Uint, Float, String, Time, Dist. *)
Inductive Type_ := Bool_ | Int_ | Uint_ | Float_ | String_ | Time_ | Dist_.

(** Modelled from the spec: the units of package [units], which is not among
    the files at hand, an enumeration of which only equality is used. *)
Definition Unit : Type := N.

(** What reflection sees of the [interface{}] handed to [newValue]. *)
Inductive goType :=
  | GoBool | GoInt | GoUint | GoFloat | GoString
  | GoTime            (* time.Time *)
  | GoTimePtr         (* *time.Time *)
  | GoOther.          (* any other type *)

Inductive metricSource :=
  | SrcDistribution                    (* a *Distribution or *distribution *)
  | SrcFunc (outs : list goType)       (* a function and its result types *)
  | SrcPointer (elem : goType)         (* a non-nil pointer to a variable *)
  | SrcOther.                          (* anything else: [Elem] panics *)

Record value := {
  val : metricSource;
  valType : Type_;
  isValAPointer : bool;
  isfunc : bool;
}.

Definition getPrimitiveType (t : goType) : option (Type_ * bool) :=
  match t with
  | GoTimePtr => Some (Time_, true)
  | GoTime => Some (Time_, false)
  | GoBool => Some (Bool_, false)
  | GoInt => Some (Int_, false)
  | GoUint => Some (Uint_, false)
  | GoFloat => Some (Float_, false)
  | GoString => Some (String_, false)
  | GoOther => None
  end.

(** [newValue]; [None] is a panic. *)
Definition newValue (spec : metricSource) : option value :=
  match spec with
  | SrcDistribution =>
      Some {| val := spec; valType := Dist_; isValAPointer := false; isfunc := false |}
  | SrcFunc outs =>
      match outs with
      | [out] =>
          '(valType, isValAPointer) ← getPrimitiveType out;
          Some {| val := spec; valType := valType;
                  isValAPointer := isValAPointer; isfunc := true |}
      | _ => None
      end
  | SrcPointer elem =>
      '(valType, isValAPointer) ← getPrimitiveType elem;
      Some {| val := spec; valType := valType;
              isValAPointer := isValAPointer; isfunc := false |}
  | SrcOther => None
  end.

Record metric := {
  Description : string;
  Unit_ : Unit;
  Value : value;
  metric_enclosingListEntry : option addr;
}.

Record listEntry := {
  Name : string;
  Metric : option addr;
  Directory : option addr;
  parent : option addr;
}.

Record directory := {
  contents : gmap string addr;
  enclosingListEntry : option addr;
}.

Record store := {
  dirs : gmap addr directory;
  entries : gmap addr listEntry;
  metrics : gmap addr metric;
}.

(** *** Computations on the store *)

Inductive outcome (A : Type) :=
  | Ok (a : A) (σ : store)
  | Panic (σ : store)
  | OutOfFuel.
Arguments Ok {A} a σ.
Arguments Panic {A} σ.
Arguments OutOfFuel {A}.

Definition M (A : Type) : Type := store -> outcome A.

Definition ret {A} (a : A) : M A := fun σ => Ok a σ.

Definition bind {A B} (c : M A) (k : A -> M B) : M B :=
  fun σ => match c σ with
           | Ok a σ' => k a σ'
           | Panic σ' => Panic σ'
           | OutOfFuel => OutOfFuel
           end.

Notation "x <- c ;; k" := (bind c (fun x => k))
  (at level 100, c at next level, right associativity).

Definition panic {A} : M A := fun σ => Panic σ.

Definition lift {A} (o : option A) : M A :=
  match o with Some a => ret a | None => panic end.

(** Dereferencing; an address with nothing behind it is a nil dereference. *)
Definition get_dir (d : addr) : M directory := fun σ => lift (dirs σ !! d) σ.
Definition get_entry (e : addr) : M listEntry := fun σ => lift (entries σ !! e) σ.
Definition get_metric (m : addr) : M metric := fun σ => lift (metrics σ !! m) σ.

Definition put_dir (d : addr) (dr : directory) : M unit := fun σ =>
  Ok tt {| dirs := <[d := dr]> (dirs σ); entries := entries σ; metrics := metrics σ |}.
Definition put_metric (m : addr) (mr : metric) : M unit := fun σ =>
  Ok tt {| dirs := dirs σ; entries := entries σ; metrics := <[m := mr]> (metrics σ) |}.

(** Allocation returns an address that holds nothing yet. *)
Definition new_dir (dr : directory) : M addr := fun σ =>
  let d := fresh (dom (dirs σ)) in
  Ok d {| dirs := <[d := dr]> (dirs σ); entries := entries σ; metrics := metrics σ |}.
Definition new_entry (le : listEntry) : M addr := fun σ =>
  let e := fresh (dom (entries σ)) in
  Ok e {| dirs := dirs σ; entries := <[e := le]> (entries σ); metrics := metrics σ |}.
Definition new_metric (mr : metric) : M addr := fun σ =>
  let m := fresh (dom (metrics σ)) in
  Ok m {| dirs := dirs σ; entries := entries σ; metrics := <[m := mr]> (metrics σ) |}.

(** *** The code *)

Definition newDirectory : M addr :=
  new_dir {| contents := ∅; enclosingListEntry := None |}.

(** The package variable [root = newDirectory()] and the store it starts in. *)
Definition root : addr := fresh (∅ : gset addr).

Definition init : store :=
  {| dirs := {[ root := {| contents := ∅; enclosingListEntry := None |} ]};
     entries := ∅; metrics := ∅ |}.

Definition getDirectory_step (result : addr) (part : string) : M (option addr) :=
  dr <- get_dir result ;;
  match contents dr !! part with
  | None => ret None
  | Some n =>
      le <- get_entry n ;;
      ret (Directory le)
  end.

Fixpoint getDirectory (d : addr) (path : pathSpec) : M (option addr) :=
  match path with
  | [] => ret (Some d)
  | part :: path' =>
      r <- getDirectory_step d part ;;
      match r with
      | None => ret None
      | Some result => getDirectory result path'
      end
  end.

Definition getDirectoryOrMetric (d : addr) (path : pathSpec)
  : M (option addr * option addr) :=
  if Empty path then ret (Some d, None)
  else
    dirPart <- lift (Dir path) ;;
    dir <- getDirectory d dirPart ;;
    match dir with
    | None => ret (None, None)
    | Some dir =>
        base <- lift (Base path) ;;
        dr <- get_dir dir ;;
        match contents dr !! base with
        | None => ret (None, None)
        | Some n =>
            le <- get_entry n ;;
            ret (Directory le, Metric le)
        end
    end.

Definition GetDirectory (d : addr) (relativePath : string) : M (option addr) :=
  getDirectory d (newPathSpec relativePath).

Definition GetMetric (d : addr) (relativePath : string) : M (option addr) :=
  r <- getDirectoryOrMetric d (newPathSpec relativePath) ;;
  ret (snd r).

Definition GetDirectoryOrMetric (d : addr) (relativePath : string)
  : M (option addr * option addr) :=
  getDirectoryOrMetric d (newPathSpec relativePath).

Definition createDirIfNeeded (d : addr) (name : string)
  : M (option addr * option error) :=
  dr <- get_dir d ;;
  match contents dr !! name with
  | None =>
      newDir <- newDirectory ;;
      newListEntry <- new_entry {| Name := name; Metric := None;
                                   Directory := Some newDir;
                                   parent := enclosingListEntry dr |} ;;
      ndr <- get_dir newDir ;;
      _ <- put_dir newDir {| contents := contents ndr;
                             enclosingListEntry := Some newListEntry |} ;;
      dr' <- get_dir d ;;
      _ <- put_dir d {| contents := <[name := newListEntry]> (contents dr');
                        enclosingListEntry := enclosingListEntry dr' |} ;;
      ret (Some newDir, None)
  | Some n =>
      le <- get_entry n ;;
      match Directory le with
      | Some dir => ret (Some dir, None)
      | None => ret (None, Some ErrPathInUse)
      end
  end.

Definition storeMetric (d : addr) (name : string) (m : addr) : M (option error) :=
  dr <- get_dir d ;;
  match contents dr !! name with
  | Some _ => ret (Some ErrPathInUse)
  | None =>
      newListEntry <- new_entry {| Name := name; Metric := Some m;
                                   Directory := None;
                                   parent := enclosingListEntry dr |} ;;
      mr <- get_metric m ;;
      _ <- put_metric m {| Description := Description mr; Unit_ := Unit_ mr;
                           Value := Value mr;
                           metric_enclosingListEntry := Some newListEntry |} ;;
      dr' <- get_dir d ;;
      _ <- put_dir d {| contents := <[name := newListEntry]> (contents dr');
                        enclosingListEntry := enclosingListEntry dr' |} ;;
      ret None
  end.

Fixpoint registerDirectory (d : addr) (path : pathSpec)
  : M (option addr * option error) :=
  match path with
  | [] => ret (Some d, None)
  | part :: path' =>
      r <- createDirIfNeeded d part ;;
      match snd r, fst r with
      | Some _, _ => ret r
      | None, Some result => registerDirectory result path'
      | None, None => panic
      end
  end.

Definition registerMetric (d : addr) (path : pathSpec) (spec : metricSource)
    (unit : Unit) (description : string) : M (option error) :=
  if Empty path then ret (Some ErrPathInUse)
  else
    dirPart <- lift (Dir path) ;;
    r <- registerDirectory d dirPart ;;
    match snd r, fst r with
    | Some err, _ => ret (Some err)
    | None, None => panic
    | None, Some current =>
        v <- lift (newValue spec) ;;
        metric <- new_metric {| Description := description; Unit_ := unit;
                                Value := v; metric_enclosingListEntry := None |} ;;
        base <- lift (Base path) ;;
        storeMetric current base metric
    end.

(** The exported entry points take the path as a string. *)
Definition RegisterMetric (d : addr) (path : string) (spec : metricSource)
    (unit : Unit) (description : string) : M (option error) :=
  registerMetric d (newPathSpec path) spec unit description.

Definition RegisterDirectory (d : addr) (path : string)
  : M (option addr * option error) :=
  registerDirectory d (newPathSpec path).

(** [sort.Sort(byName(listEntries))]: the entries by ascending [Name].  The
    names of one directory differ, so every sorting procedure returns the
    same list; insertion is the one written out here. *)
Fixpoint insert_byName (x : string * addr) (l : list (string * addr))
  : list (string * addr) :=
  match l with
  | [] => [x]
  | y :: l' =>
      if String.ltb (fst x) (fst y) then x :: y :: l'
      else y :: insert_byName x l'
  end.

Definition sortListEntries (l : list (string * addr)) : list (string * addr) :=
  foldr insert_byName [] l.

Fixpoint mapM {A B} (f : A -> M B) (l : list A) : M (list B) :=
  match l with
  | [] => ret []
  | x :: l' =>
      y <- f x ;;
      ys <- mapM f l' ;;
      ret (y :: ys)
  end.

(** [List]: the entries of the directory with the names they carry, by
    name. *)
Definition List_named (d : addr) : M (list (string * addr)) :=
  dr <- get_dir d ;;
  named <- mapM (fun n => le <- get_entry n ;; ret (Name le, n))
                (map snd (map_to_list (contents dr))) ;;
  ret (sortListEntries named).

Definition List (d : addr) : M (list addr) :=
  l <- List_named d ;;
  ret (map snd l).

(** A metricsCollector with a state of its own; it may read the store, and
    is handed the [Metric] pointer of the entry. *)
Definition metricsCollector (C : Type) : Type :=
  store -> option addr -> C -> C * option error.

Definition Collect {C} (collector : metricsCollector C) (m : option addr) (c : C)
  : M (option error * C) :=
  fun σ => let '(c', err) := collector σ m c in Ok (err, c') σ.

Fixpoint GetAllMetrics_range {C} (descend : addr -> C -> M (option error * C))
    (collector : metricsCollector C) (l : list addr) (c : C)
  : M (option error * C) :=
  match l with
  | [] => ret (None, c)
  | entry :: l' =>
      le <- get_entry entry ;;
      r <- match Directory le with
           | Some dir => descend dir c
           | None => Collect collector (Metric le) c
           end ;;
      match fst r with
      | Some _ => ret r
      | None => GetAllMetrics_range descend collector l' (snd r)
      end
  end.

(** [GetAllMetrics]; [fuel] bounds the depth of the recursion. *)
Fixpoint GetAllMetrics {C} (fuel : nat) (d : addr) (collector : metricsCollector C)
    (c : C) : M (option error * C) :=
  match fuel with
  | O => fun _ => OutOfFuel
  | S fuel' =>
      l <- List d ;;
      GetAllMetrics_range (fun dir c' => GetAllMetrics fuel' dir collector c')
        collector l c
  end.

Definition GetAllMetricsByPath {C} (fuel : nat) (d : addr) (relativePath : string)
    (collector : metricsCollector C) (c : C) : M (option error * C) :=
  r <- GetDirectoryOrMetric d relativePath ;;
  match snd r, fst r with
  | Some m, _ => Collect collector (Some m) c
  | None, Some dir => GetAllMetrics fuel dir collector c
  | None, None => ret (None, c)
  end.

(** The loop of [pathFrom]: up the [parent] pointers until nil or [from]. *)
Fixpoint pathFrom_loop (fuel : nat) (current from : option addr) (names : pathSpec)
  : M (option addr * pathSpec) :=
  match current with
  | None => ret (current, names)
  | Some n =>
      if decide (current = from) then ret (current, names)
      else
        match fuel with
        | O => fun _ => OutOfFuel
        | S fuel' =>
            le <- get_entry n ;;
            pathFrom_loop fuel' (parent le) from (names ++ [Name le])
        end
  end.

Definition swap (names : pathSpec) (i j : nat) : pathSpec :=
  match names !! i, names !! j with
  | Some a, Some b => <[i := b]> (<[j := a]> names)
  | _, _ => names
  end.

(** [for i := 0; i < pathLen/2; i++ { names[i], names[pathLen-i-1] = names[pathLen-i-1], names[i] }] *)
Fixpoint reverse_from (turns i : nat) (names : pathSpec) : pathSpec :=
  match turns with
  | O => names
  | S turns' => reverse_from turns' (S i) (swap names i (length names - i - 1))
  end.

Definition reverse_in_place (names : pathSpec) : pathSpec :=
  reverse_from (length names / 2) 0 names.

Definition pathFrom (fuel : nat) (n : option addr) (fromDir : addr) : M pathSpec :=
  fdr <- get_dir fromDir ;;
  let from := enclosingListEntry fdr in
  r <- pathFrom_loop fuel n from [] ;;
  if decide (fst r = from) then ret (reverse_in_place (snd r))
  else ret [].

Definition absPath (fuel : nat) (n : option addr) : M string :=
  names <- pathFrom fuel n root ;;
  ret ("/" +:+ Path.String_ names).

(** [AbsPath] of a metric and of a directory. *)
Definition metric_AbsPath (fuel : nat) (m : addr) : M string :=
  mr <- get_metric m ;;
  absPath fuel (metric_enclosingListEntry mr).

Definition directory_AbsPath (fuel : nat) (d : addr) : M string :=
  dr <- get_dir d ;;
  absPath fuel (enclosingListEntry dr).

End Namespace.

(** ** Collectors

  [collectErrorType] of the tests: a collector that returns its error [E]
  for every metric it is handed, and keeps nothing. *)

Module Collectors.
Import Namespace.

Definition collectErrorType_Collect (E : option error) : metricsCollector unit :=
  fun _ _ c => (c, E).

End Collectors.

(** ** Specification vocabulary for the namespace *)

Module NamespaceSpec.
Import Path Namespace.

(** The entry a directory holds under a name. *)
Definition child (σ : store) (d : addr) (s : string) : option (addr * listEntry) :=
  dr ← dirs σ !! d; e ← contents dr !! s; le ← entries σ !! e; Some (e, le).

Definition child_dir (σ : store) (d : addr) (s : string) : option addr :=
  c ← child σ d s; Directory (snd c).

(** The directory reached from [d] along [p], every segment a directory. *)
Fixpoint dirAt (σ : store) (d : addr) (p : pathSpec) : option addr :=
  match p with
  | [] => Some d
  | s :: p' => d' ← child_dir σ d s; dirAt σ d' p'
  end.

(** What a path is bound to. *)
Inductive binding :=
  | BoundDirectory (d : addr)
  | BoundMetric (m : addr).

Definition binding_of (le : listEntry) : option binding :=
  match Directory le, Metric le with
  | Some d, _ => Some (BoundDirectory d)
  | None, Some m => Some (BoundMetric m)
  | None, None => None
  end.

Definition resolve (σ : store) (d : addr) (p : pathSpec) : option binding :=
  match p with
  | [] => Some (BoundDirectory d)
  | _ =>
      d' ← dirAt σ d (removelast p);
      b ← last p;
      c ← child σ d' b;
      binding_of (snd c)
  end.

(** A segment as the parser produces them: no slash in it, and not made
    of white space only. *)
Definition no_slash (s : string) : bool :=
  forallb (fun c => negb (Ascii.eqb c "/"%char)) (String.list_ascii_of_string s).

Definition segment (s : string) : Prop :=
  no_slash s = true /\ TrimSpace_is_empty s = false.

(** The role of an entry: a directory that points back to it, or a metric
    that does, never both. *)
Definition role (σ : store) (e : addr) (le : listEntry) : Prop :=
  match Directory le, Metric le with
  | Some d, None =>
      exists dr, dirs σ !! d = Some dr /\ enclosingListEntry dr = Some e
  | None, Some m =>
      exists mr, metrics σ !! m = Some mr /\ metric_enclosingListEntry mr = Some e
  | _, _ => False
  end.

(** The shape of the store under the root. *)
Record wf (σ : store) : Prop := {
  wf_root : exists dr, dirs σ !! root = Some dr /\ enclosingListEntry dr = None;
  wf_dirs : forall q d, dirAt σ root q = Some d -> is_Some (dirs σ !! d);
  wf_entry : forall q d dr s e,
    dirAt σ root q = Some d -> dirs σ !! d = Some dr -> contents dr !! s = Some e ->
    exists le, entries σ !! e = Some le /\ Name le = s /\ segment s /\
               parent le = enclosingListEntry dr /\ role σ e le;
  wf_inj : forall q1 q2 d,
    dirAt σ root q1 = Some d -> dirAt σ root q2 = Some d -> q1 = q2;
  wf_depth : exists n, forall q d, dirAt σ root q = Some d -> length q <= n;
}.

(** The directories of the namespace: those a [DirectorySpec] can stand for. *)
Definition in_namespace (σ : store) (d : addr) : Prop :=
  exists q, dirAt σ root q = Some d.

(** The directory structure, without the metric objects. *)
Definition namespace (σ : store) : gmap addr directory * gmap addr listEntry :=
  (dirs σ, entries σ).

(** [later σ0 σ]: the exported functions lead from [σ0] to [σ]; a call that
    panics counts, with the store it leaves. *)
Inductive later (σ0 : store) : store -> Prop :=
  | later_refl : later σ0 σ0
  | later_RegisterMetric σ d path spec unit description r σ' :
      later σ0 σ -> in_namespace σ d ->
      RegisterMetric d path spec unit description σ = Ok r σ' ->
      later σ0 σ'
  | later_RegisterMetric_panic σ d path spec unit description σ' :
      later σ0 σ -> in_namespace σ d ->
      RegisterMetric d path spec unit description σ = Panic σ' ->
      later σ0 σ'
  | later_RegisterDirectory σ d path r σ' :
      later σ0 σ -> in_namespace σ d ->
      RegisterDirectory d path σ = Ok r σ' ->
      later σ0 σ'.

(** The states of the program. *)
Definition reachable (σ : store) : Prop := later init σ.

(** One new entry [e] linked into the directory [d] under [name]. *)
Record links (σ σ' : store) (d : addr) (dr : directory) (name : string)
    (e : addr) (le : listEntry) : Prop := {
  lk_dr : dirs σ !! d = Some dr;
  lk_free : contents dr !! name = None;
  lk_d : dirs σ' !! d =
         Some {| contents := <[name := e]> (contents dr);
                 enclosingListEntry := enclosingListEntry dr |};
  lk_dirs : forall a, a <> d -> is_Some (dirs σ !! a) -> dirs σ' !! a = dirs σ !! a;
  lk_fresh : entries σ !! e = None;
  lk_entries : entries σ' = <[e := le]> (entries σ);
  lk_metrics : forall m mr,
    metrics σ !! m = Some mr -> is_Some (metric_enclosingListEntry mr) ->
    metrics σ' !! m = Some mr;
  lk_Name : Name le = name;
  lk_segment : segment name;
  lk_parent : parent le = enclosingListEntry dr;
  lk_role : match Directory le, Metric le with
            | Some a, None =>
                dirs σ !! a = None /\
                dirs σ' !! a = Some {| contents := ∅; enclosingListEntry := Some e |}
            | None, Some m =>
                exists mr, metrics σ' !! m = Some mr /\
                           metric_enclosingListEntry mr = Some e
            | _, _ => False
            end;
}.

(** The bindings of [σ] are still there in [σ']. *)
Definition extends (σ σ' : store) : Prop :=
  (forall p d, dirAt σ root p = Some d -> dirAt σ' root p = Some d) /\
  (forall p d s c, dirAt σ root p = Some d -> child σ d s = Some c ->
                   child σ' d s = Some c) /\
  (forall m mr, metrics σ !! m = Some mr -> is_Some (metric_enclosingListEntry mr) ->
                metrics σ' !! m = Some mr).

(** Some segment along the walk of [path] from [d] is bound to a metric. *)
Definition metric_on_walk (σ : store) (d : addr) (path : pathSpec) : Prop :=
  exists p1 s p2 m,
    path = p1 ++ s :: p2 /\ resolve σ d (p1 ++ [s]) = Some (BoundMetric m).

(** What [getDirectoryOrMetric] returns for a binding. *)
Definition found (b : option binding) : option addr * option addr :=
  match b with
  | Some (BoundDirectory d) => (Some d, None)
  | Some (BoundMetric m) => (None, Some m)
  | None => (None, None)
  end.

(** The conditions under which a registration of a metric is refused: the
    parsed path is empty, or some proper ancestor segment is bound to a
    metric, or the final segment is bound already. *)
Definition registration_refused (σ : store) (d : addr) (p : pathSpec) : Prop :=
  p = [] \/ metric_on_walk σ d (removelast p) \/ is_Some (resolve σ d p).

(** The metric is installed at [p], under ancestors that are directories. *)
Definition installed (σ : store) (d : addr) (p : pathSpec)
    (description : string) (unit : Unit) (v : value) : Prop :=
  exists m mr,
    resolve σ d p = Some (BoundMetric m) /\
    metrics σ !! m = Some mr /\
    Description mr = description /\ Unit_ mr = unit /\ Value mr = v /\
    forall p1 p2, p = p1 ++ p2 -> p2 <> [] ->
      exists d1, resolve σ d p1 = Some (BoundDirectory d1).

(** The absolute path as a string: the segments from the root, joined by
    and prefixed with a slash. *)
Definition absolute (p : pathSpec) : string := "/" +:+ Path.String_ p.

(** What a traversal does with the metrics [ms] it meets, in their order:
    the collector is called on each in turn until it returns an error. *)
Fixpoint deliver {C} (collector : metricsCollector C) (σ : store)
    (ms : list addr) (c : C) : option error * C :=
  match ms with
  | [] => (None, c)
  | m :: ms' =>
      match collector σ (Some m) c with
      | (c', Some err) => (Some err, c')
      | (c', None) => deliver collector σ ms' c'
      end
  end.

(** The order of paths: segment by segment, the segments as Go compares
    strings, byte by byte. *)
Fixpoint path_ltb (p q : pathSpec) : bool :=
  match p, q with
  | _, [] => false
  | [], _ :: _ => true
  | s :: p', t :: q' => String.ltb s t || (String.eqb s t && path_ltb p' q')
  end.

Definition path_lt (p q : pathSpec) : Prop := path_ltb p q = true.

(** [byName.Less] *)
Definition byName (x y : string * addr) : Prop := String.ltb (fst x) (fst y) = true.

(** The metrics below a directory with their paths from it, the children of
    every directory taken by ascending name. *)
Definition entry_leaves (below : addr -> list (pathSpec * addr)) (σ : store)
    (x : string * addr) : list (pathSpec * addr) :=
  match entries σ !! snd x with
  | Some le =>
      match Directory le, Metric le with
      | Some d', _ => map (fun pm => (fst x :: fst pm, snd pm)) (below d')
      | None, Some m => [([fst x], m)]
      | None, None => []
      end
  | None => []
  end.

Fixpoint leaves (fuel : nat) (σ : store) (d : addr) : list (pathSpec * addr) :=
  match fuel with
  | O => []
  | S fuel' =>
      match dirs σ !! d with
      | Some dr =>
          flat_map (entry_leaves (leaves fuel' σ) σ)
                   (sortListEntries (map_to_list (contents dr)))
      | None => []
      end
  end.

End NamespaceSpec.

(** ** Proof automation *)

Module Binary64Tactics.
Import Binary64.

Ltac sf_cases :=
  repeat match goal with
  | s : bool |- _ => destruct s
  end;
  simpl in *; try congruence;
  repeat match goal with
  | |- context [Z.compare ?a ?b] => destruct (Z.compare_spec a b)
  | H : context [Z.compare ?a ?b] |- _ => destruct (Z.compare_spec a b)
  end;
  simpl in *; try congruence; try lia; subst;
  repeat match goal with
  | |- context [Pos.compare_cont Eq ?a ?b] =>
      change (Pos.compare_cont Eq a b) with (Pos.compare a b);
      destruct (Pos.compare_spec a b)
  | H : context [Pos.compare_cont Eq ?a ?b] |- _ =>
      change (Pos.compare_cont Eq a b) with (Pos.compare a b) in H;
      destruct (Pos.compare_spec a b)
  end;
  simpl in *; try congruence; try lia.

Ltac sf_order :=
  unfold ltb, leb, eqb, SFltb, SFleb, SFeqb, SFcompare, is_nan in *;
  repeat match goal with
  | x : float64 |- _ => destruct x
  | x : spec_float |- _ => destruct x
  end;
  sf_cases.

End Binary64Tactics.

Ltac exists_value t :=
  let v := eval vm_compute in t in
  match v with Some ?d => exists d end.

Ltac by_evaluation := vm_compute; reflexivity.

Ltac exists_outcome t :=
  let v := eval vm_compute in t in
  match v with
  | Namespace.Ok ?r ?σ => exists r, σ
  | Namespace.Panic ?σ => exists σ
  end.

Ltac exists_store t :=
  let v := eval vm_compute in t in
  match v with
  | Namespace.Ok _ ?σ => exists σ
  end.

(** * Properties *)

(** ** The order of binary64 *)

Module Binary64Facts.
Import Binary64 Binary64Tactics.

Lemma ltb_not_nan x y : ltb x y = true -> is_nan x = false /\ is_nan y = false.
Proof. intros Hxy. split; sf_order. Qed.

Lemma leb_not_nan x y : leb x y = true -> is_nan x = false /\ is_nan y = false.
Proof. intros Hxy. split; sf_order. Qed.

Lemma ltb_irrefl x : ltb x x = false.
Proof. sf_order. Qed.

Lemma leb_refl x : is_nan x = false -> leb x x = true.
Proof. intros Hx. sf_order. Qed.

Lemma ltb_leb x y : ltb x y = true -> leb x y = true.
Proof. intros Hxy. sf_order. Qed.

Lemma ltb_trans x y z : ltb x y = true -> ltb y z = true -> ltb x z = true.
Proof. intros Hxy Hyz. sf_order. Qed.

Lemma leb_trans x y z : leb x y = true -> leb y z = true -> leb x z = true.
Proof. intros Hxy Hyz. sf_order. Qed.

Lemma ltb_leb_trans x y z : ltb x y = true -> leb y z = true -> ltb x z = true.
Proof. intros Hxy Hyz. sf_order. Qed.

Lemma leb_ltb_trans x y z : leb x y = true -> ltb y z = true -> ltb x z = true.
Proof. intros Hxy Hyz. sf_order. Qed.

Lemma ltb_false_leb x y :
  is_nan x = false -> is_nan y = false -> ltb x y = false -> leb y x = true.
Proof. intros Hx Hy Hxy. sf_order. Qed.

Lemma leb_ltb_false x y : leb y x = true -> ltb x y = false.
Proof. intros Hyx. sf_order. Qed.

Lemma ltb_nan_l y : ltb NaN y = false.
Proof. reflexivity. Qed.

Lemma ltb_nan_r x : ltb x NaN = false.
Proof. destruct x; reflexivity. Qed.

End Binary64Facts.

(** ** Exact operations of binary64

  On half-integers below [2^52] in magnitude the conversions, sums,
  differences, halvings and comparisons of binary64 are those of the
  numbers themselves: nothing is rounded. *)

Module Binary64Exact.
Import Binary64 Binary64Spec.
Local Open Scope Z_scope.

(** *** Mantissas *)

Lemma digits2_pos_bounds m :
  2 ^ (Zpos (digits2_pos m) - 1) <= Zpos m < 2 ^ Zpos (digits2_pos m).
Proof.
  induction m as [m IH|m IH|]; cbn [digits2_pos].
  - rewrite Pos2Z.inj_succ.
    replace (Z.succ (Zpos (digits2_pos m)) - 1) with (Z.succ (Zpos (digits2_pos m) - 1)) by lia.
    rewrite !Z.pow_succ_r by lia. lia.
  - rewrite Pos2Z.inj_succ.
    replace (Z.succ (Zpos (digits2_pos m)) - 1) with (Z.succ (Zpos (digits2_pos m) - 1)) by lia.
    rewrite !Z.pow_succ_r by lia. lia.
  - simpl. lia.
Qed.

Lemma digits2_pos_unique m k :
  2 ^ (k - 1) <= Zpos m < 2 ^ k -> Zpos (digits2_pos m) = k.
Proof.
  intros [Hlo Hhi]. pose proof (digits2_pos_bounds m) as [Hlo' Hhi'].
  assert (Hk : 0 < k).
  { destruct (Z_lt_le_dec 0 k); [assumption|].
    rewrite (Z.pow_neg_r 2 (k - 1)) in Hlo by lia.
    assert (2 ^ k <= 1); [|lia].
    destruct (Z.eq_dec k 0) as [->|]; [simpl; lia|].
    rewrite Z.pow_neg_r by lia. lia. }
  assert (H1 : k - 1 < Zpos (digits2_pos m)).
  { apply (Z.pow_lt_mono_r_iff 2); lia. }
  assert (H2 : Zpos (digits2_pos m) - 1 < k).
  { apply (Z.pow_lt_mono_r_iff 2); lia. }
  lia.
Qed.

Lemma iter_xO m k : Zpos (Pos.iter xO m k) = Zpos m * 2 ^ Zpos k.
Proof.
  induction k as [|k IH] using Pos.peano_ind.
  - simpl. lia.
  - rewrite Pos.iter_succ, Pos2Z.inj_xO, IH, Pos2Z.inj_succ, Z.pow_succ_r by lia. lia.
Qed.

Lemma iter_xO_unique p m k : Zpos p = Zpos m * 2 ^ Zpos k -> p = Pos.iter xO m k.
Proof. rewrite <- iter_xO. congruence. Qed.

Lemma iter_shr_1 k : forall M,
  SpecFloat.iter_pos shr_1 k
    {| shr_m := Zpos (Pos.iter xO M k); shr_r := false; shr_s := false |}
  = {| shr_m := Zpos M; shr_r := false; shr_s := false |}.
Proof.
  induction k as [k IH|k IH|]; intros M; cbn [SpecFloat.iter_pos Pos.iter].
  - cbn [shr_1 orb]. rewrite IH, IH. reflexivity.
  - rewrite IH, IH. reflexivity.
  - reflexivity.
Qed.

(** *** Rounding a value that needs none *)

Lemma normal_digits M E : normal M E -> Zpos (digits2_pos M) = 53.
Proof. intros [HM _]. apply digits2_pos_unique. exact HM. Qed.

Lemma binary_round_aux_normal s M E :
  normal M E ->
  binary_round_aux prec emax s (Zpos M) E loc_Exact = S754_finite s M E.
Proof.
  intros Hn. pose proof (normal_digits M E Hn) as Hd. destruct Hn as [_ HE].
  unfold binary_round_aux, shr_fexp, fexp, emin, prec, emax.
  cbn [Zdigits2 shr_record_of_loc]. rewrite Hd.
  replace (Z.max (53 + E - 53) (3 - 1024 - 53) - E) with 0 by lia.
  cbn [shr shr_m loc_of_shr_record round_nearest_even Zdigits2 shr_record_of_loc].
  rewrite Hd.
  replace (Z.max (53 + E - 53) (3 - 1024 - 53) - E) with 0 by lia.
  cbn [shr shr_m].
  destruct (Z.leb_spec E (1024 - 53)); [reflexivity|lia].
Qed.

Lemma binary_round_left s m k E :
  normal (Pos.iter xO m k) E ->
  binary_round prec emax s m (E + Zpos k) = S754_finite s (Pos.iter xO m k) E.
Proof.
  intros Hn. pose proof (normal_digits _ _ Hn) as Hd.
  pose proof (digits2_pos_bounds m) as Hm.
  assert (Hdm : Zpos (digits2_pos m) = 53 - Zpos k).
  { apply digits2_pos_unique. destruct Hn as [[Hlo Hhi] _]. rewrite iter_xO in Hlo, Hhi.
    assert (Hk : Zpos k <= 52).
    { destruct (Z_le_gt_dec (Zpos k) 52); [assumption|].
      assert (2 ^ 53 <= 2 ^ Zpos k) by (apply Z.pow_le_mono_r; lia). nia. }
    replace (2 ^ 52) with (2 ^ (53 - Zpos k - 1) * 2 ^ Zpos k) in Hlo
      by (rewrite <- Z.pow_add_r by lia; f_equal; lia).
    replace (2 ^ 53) with (2 ^ (53 - Zpos k) * 2 ^ Zpos k) in Hhi
      by (rewrite <- Z.pow_add_r by lia; f_equal; lia).
    assert (0 < 2 ^ Zpos k) by (apply Z.pow_pos_nonneg; lia).
    split; nia. }
  unfold binary_round, shl_align, fexp, emin. rewrite Hdm. unfold prec, emax.
  destruct Hn as [_ HE].
  replace (Z.max (53 - Zpos k + (E + Zpos k) - 53) (3 - 1024 - 53) - (E + Zpos k))
    with (Zneg k) by lia.
  replace (Z.max (53 - Zpos k + (E + Zpos k) - 53) (3 - 1024 - 53)) with E by lia.
  apply binary_round_aux_normal. split; [|exact HE].
  pose proof (digits2_pos_bounds (Pos.iter xO m k)) as Hb. rewrite Hd in Hb. exact Hb.
Qed.

Lemma binary_round_same s M E :
  normal M E -> binary_round prec emax s M E = S754_finite s M E.
Proof.
  intros Hn. pose proof (normal_digits _ _ Hn) as Hd.
  unfold binary_round, shl_align, fexp, emin. rewrite Hd. unfold prec, emax.
  destruct Hn as [HM HE].
  replace (Z.max (53 + E - 53) (3 - 1024 - 53) - E) with 0 by lia.
  apply binary_round_aux_normal. split; assumption.
Qed.

Lemma digits2_pos_iter_xO M k :
  Zpos (digits2_pos (Pos.iter xO M k)) = Zpos (digits2_pos M) + Zpos k.
Proof.
  induction k as [|k IH] using Pos.peano_ind.
  - cbn. lia.
  - rewrite Pos.iter_succ. cbn [digits2_pos]. rewrite Pos2Z.inj_succ, IH. lia.
Qed.

Lemma binary_round_aux_right s M k E :
  normal M E ->
  binary_round_aux prec emax s (Zpos (Pos.iter xO M k)) (E - Zpos k) loc_Exact
  = S754_finite s M E.
Proof.
  intros Hn. pose proof (normal_digits _ _ Hn) as Hd.
  pose proof (digits2_pos_iter_xO M k) as Hdk. rewrite Hd in Hdk.
  destruct Hn as [HM HE].
  unfold binary_round_aux, shr_fexp, fexp, emin, prec, emax.
  cbn [Zdigits2 shr_record_of_loc]. rewrite Hdk.
  replace (Z.max (53 + Zpos k + (E - Zpos k) - 53) (3 - 1024 - 53) - (E - Zpos k))
    with (Zpos k) by lia.
  cbn [shr]. rewrite iter_shr_1.
  cbn [shr_m loc_of_shr_record round_nearest_even Zdigits2 shr_record_of_loc].
  rewrite Hd.
  replace (Z.max (53 + (E - Zpos k + Zpos k) - 53) (3 - 1024 - 53) - (E - Zpos k + Zpos k))
    with 0 by lia.
  cbn [shr shr_m].
  destruct (Z.leb_spec (E - Zpos k + Zpos k) (1024 - 53)); [|lia].
  f_equal. lia.
Qed.

Lemma binary_round_right s M k E :
  normal M E ->
  binary_round prec emax s (Pos.iter xO M k) (E - Zpos k) = S754_finite s M E.
Proof.
  intros Hn. pose proof (normal_digits _ _ Hn) as Hd.
  pose proof (digits2_pos_iter_xO M k) as Hdk. rewrite Hd in Hdk.
  unfold binary_round, shl_align, fexp, emin. rewrite Hdk. unfold prec, emax.
  destruct Hn as [HM HE].
  replace (Z.max (53 + Zpos k + (E - Zpos k) - 53) (3 - 1024 - 53) - (E - Zpos k))
    with (Zpos k) by lia.
  apply binary_round_aux_right. split; assumption.
Qed.

(** Rounding the value [m * 2^e] when it is the normal number [M * 2^E]. *)
Lemma binary_round_normal s m e M E :
  normal M E ->
  (e <= E /\ Zpos m = Zpos M * 2 ^ (E - e)) \/
  (E <= e /\ Zpos M = Zpos m * 2 ^ (e - E)) ->
  binary_round prec emax s m e = S754_finite s M E.
Proof.
  intros Hn [[He Hm]|[He Hm]].
  - destruct (Z.eq_dec e E) as [->|Hne].
    + rewrite Z.sub_diag in Hm. simpl in Hm. assert (m = M) by lia. subst m.
      apply binary_round_same, Hn.
    + destruct (E - e) as [|k|k] eqn:Hk; try lia.
      apply iter_xO_unique in Hm. subst m.
      replace e with (E - Zpos k) by lia. apply binary_round_right, Hn.
  - destruct (Z.eq_dec e E) as [->|Hne].
    + rewrite Z.sub_diag in Hm. simpl in Hm. assert (m = M) by lia. subst m.
      apply binary_round_same, Hn.
    + destruct (e - E) as [|k|k] eqn:Hk; try lia.
      apply iter_xO_unique in Hm. subst M.
      replace e with (E + Zpos k) by lia. apply binary_round_left, Hn.
Qed.

(** *** Half-integers *)

Lemma half_normal h :
  h <> 0 -> Z.abs h < 2 ^ 53 ->
  let E := half_exponent h in
  let M := Z.to_pos (Z.abs h * 2 ^ (-1 - E)) in
  normal M E /\ Zpos M = Z.abs h * 2 ^ (-1 - E) /\ -53 <= E <= -1.
Proof.
  intros Hh Hlt. unfold half_exponent.
  pose proof (Z.log2_spec (Z.abs h) ltac:(lia)) as [Hlo Hhi].
  pose proof (Z.log2_nonneg (Z.abs h)) as Hnn.
  assert (Hl : Z.log2 (Z.abs h) < 53).
  { apply Z.log2_lt_pow2; lia. }
  set (l := Z.log2 (Z.abs h)) in *.
  assert (Hpos : 0 < 2 ^ (-1 - (l - 53))) by (apply Z.pow_pos_nonneg; lia).
  cbn zeta. rewrite Z2Pos.id by nia.
  split; [|split; [reflexivity|lia]].
  split; [|lia].
  replace (2 ^ 52) with (2 ^ l * 2 ^ (-1 - (l - 53)))
    by (rewrite <- Z.pow_add_r by lia; f_equal; lia).
  replace (2 ^ 53) with (2 ^ Z.succ l * 2 ^ (-1 - (l - 53)))
    by (rewrite <- Z.pow_add_r by lia; f_equal; lia).
  split; nia.
Qed.

Lemma binary_round_half s m e h :
  0 < h < 2 ^ 53 ->
  (e <= -1 /\ Zpos m = h * 2 ^ (-1 - e)) \/ (-1 <= e /\ h = Zpos m * 2 ^ (e + 1)) ->
  binary_round prec emax s m e
  = S754_finite s (Z.to_pos (h * 2 ^ (-1 - half_exponent h))) (half_exponent h).
Proof.
  intros Hh Hval.
  destruct (half_normal h ltac:(lia) ltac:(lia)) as (Hn & HM & HE).
  rewrite (Z.abs_eq h) in * by lia.
  set (E := half_exponent h) in *.
  set (M := Z.to_pos (h * 2 ^ (-1 - E))) in *.
  apply binary_round_normal; [exact Hn|].
  destruct (Z_le_gt_dec e E) as [HeE|HeE].
  - left. split; [exact HeE|]. rewrite HM.
    destruct Hval as [[He Hm]|[He Hm]].
    + rewrite Hm, <- Z.mul_assoc, <- Z.pow_add_r by lia. do 2 f_equal. lia.
    + replace (E - e) with 0 by lia. replace (-1 - E) with 0 by lia.
      replace (e + 1) with 0 in Hm by lia. lia.
  - right. split; [lia|]. rewrite HM.
    destruct Hval as [[He Hm]|[He Hm]].
    + rewrite Hm, <- Z.mul_assoc, <- Z.pow_add_r by lia. do 2 f_equal. lia.
    + rewrite Hm at 1. rewrite <- Z.mul_assoc, <- Z.pow_add_r by lia. do 2 f_equal. lia.
Qed.

Lemma binary_normalize_half z e h :
  Z.abs h < 2 ^ 53 ->
  (e <= -1 /\ z = h * 2 ^ (-1 - e)) \/ (-1 <= e /\ h = z * 2 ^ (e + 1)) ->
  binary_normalize prec emax z e false = half h.
Proof.
  intros Hh Hval.
  assert (Hpow : forall k, 0 <= k -> 0 < 2 ^ k) by (intros; apply Z.pow_pos_nonneg; lia).
  destruct z as [|m|m]; unfold binary_normalize.
  - assert (h = 0) by (destruct Hval as [[He Hz]|[He Hz]]; [specialize (Hpow (-1 - e)); nia|lia]).
    subst h. reflexivity.
  - assert (Hpos : 0 < h).
    { destruct Hval as [[He Hz]|[He Hz]];
        [specialize (Hpow (-1 - e) ltac:(lia))|specialize (Hpow (e + 1) ltac:(lia))]; nia. }
    rewrite (binary_round_half false m e h) by (auto; lia).
    unfold half. destruct h as [|p|p]; try lia. reflexivity.
  - assert (Hneg : h < 0).
    { destruct Hval as [[He Hz]|[He Hz]];
        [specialize (Hpow (-1 - e) ltac:(lia))|specialize (Hpow (e + 1) ltac:(lia))]; nia. }
    rewrite (binary_round_half true m e (- h)).
    + unfold half, half_exponent. destruct h as [|p|p]; try lia. reflexivity.
    + lia.
    + destruct Hval as [[He Hz]|[He Hz]]; [left|right]; split; lia.
Qed.

Lemma half_finite a :
  a <> 0 -> Z.abs a < 2 ^ 53 ->
  exists M E, half a = S754_finite (a <? 0) M E /\ normal M E /\ -53 <= E <= -1 /\
              E = half_exponent a /\ Zpos M = Z.abs a * 2 ^ (-1 - E).
Proof.
  intros Ha Hlt. destruct (half_normal a Ha Hlt) as (Hn & HM & HE).
  eexists _, _. split; [|split; [exact Hn|split; [exact HE|split; [reflexivity|exact HM]]]].
  unfold half. destruct a; [lia|reflexivity|reflexivity].
Qed.

Lemma of_Z_half c : Z.abs c < 2 ^ 52 -> of_Z c = half (2 * c).
Proof.
  intros Hc. unfold of_Z. apply binary_normalize_half; [lia|].
  right. split; [lia|]. simpl. lia.
Qed.

Lemma neg_half_half : f_neg_half = half (-1).
Proof. vm_compute. reflexivity. Qed.

Lemma shl_align_value M E ez :
  ez <= E -> Zpos (fst (shl_align M E ez)) = Zpos M * 2 ^ (E - ez).
Proof.
  intros Hle. unfold shl_align.
  destruct (ez - E) as [|d|d] eqn:Hd; try lia; cbn [fst].
  - replace (E - ez) with 0 by lia. simpl. lia.
  - rewrite iter_xO. do 2 f_equal. lia.
Qed.

Lemma aligned_mantissa a M E ez :
  a <> 0 -> Zpos M = Z.abs a * 2 ^ (-1 - E) -> E <= -1 -> ez <= E ->
  cond_Zopp (a <? 0) (Zpos (fst (shl_align M E ez))) = a * 2 ^ (-1 - ez).
Proof.
  intros Ha HM HE Hez. rewrite shl_align_value, HM by exact Hez.
  rewrite <- Z.mul_assoc, <- Z.pow_add_r by lia.
  replace (-1 - E + (E - ez)) with (-1 - ez) by lia.
  unfold cond_Zopp. destruct (Z.ltb_spec a 0); lia.
Qed.

Lemma add_half a b :
  Z.abs a < 2 ^ 53 -> Z.abs b < 2 ^ 53 -> Z.abs (a + b) < 2 ^ 53 ->
  add (half a) (half b) = half (a + b).
Proof.
  intros Ha Hb Hab. unfold add.
  destruct (Z.eq_dec a 0) as [->|Ha0].
  { simpl. unfold half. destruct b; reflexivity. }
  destruct (Z.eq_dec b 0) as [->|Hb0].
  { rewrite Z.add_0_r. unfold half. destruct a; reflexivity. }
  destruct (half_finite a Ha0 Ha) as (Ma & Ea & -> & _ & HEa & _ & HMa).
  destruct (half_finite b Hb0 Hb) as (Mb & Eb & -> & _ & HEb & _ & HMb).
  cbn [SFadd].
  rewrite (aligned_mantissa a Ma Ea) by (auto; lia).
  rewrite (aligned_mantissa b Mb Eb) by (auto; lia).
  apply binary_normalize_half; [exact Hab|].
  left. split; lia.
Qed.

Lemma sub_half a b :
  Z.abs a < 2 ^ 53 -> Z.abs b < 2 ^ 53 -> Z.abs (a - b) < 2 ^ 53 ->
  sub (half a) (half b) = half (a - b).
Proof.
  intros Ha Hb Hab. unfold sub.
  destruct (Z.eq_dec b 0) as [->|Hb0].
  { rewrite Z.sub_0_r. unfold half. destruct a; reflexivity. }
  destruct (Z.eq_dec a 0) as [->|Ha0].
  { destruct (half_finite b Hb0 Hb) as (Mb & Eb & Hhb & _ & _ & HEb & HMb).
    rewrite Hhb, Z.sub_0_l. cbn [half SFsub].
    destruct (half_finite (- b) ltac:(lia) ltac:(lia)) as (Mb' & Eb' & Hhb' & _ & _ & HEb' & HMb').
    rewrite Hhb'.
    assert (HE : Eb' = Eb).
    { rewrite HEb, HEb'. unfold half_exponent. rewrite Z.abs_opp. reflexivity. }
    rewrite HE in HMb'. rewrite Z.abs_opp, <- HMb in HMb'. injection HMb' as ->.
    rewrite HE.
    f_equal. destruct (Z.ltb_spec b 0), (Z.ltb_spec (- b) 0); try reflexivity; lia. }
  destruct (half_finite a Ha0 Ha) as (Ma & Ea & -> & _ & HEa & _ & HMa).
  destruct (half_finite b Hb0 Hb) as (Mb & Eb & -> & _ & HEb & _ & HMb).
  cbn [SFsub].
  rewrite (aligned_mantissa a Ma Ea) by (auto; lia).
  rewrite (aligned_mantissa b Mb Eb) by (auto; lia).
  apply binary_normalize_half; [exact Hab|].
  left. split; lia.
Qed.

Lemma leb_half a b :
  0 <= a < 2 ^ 53 -> Z.abs b < 2 ^ 53 ->
  leb (half a) (half b) = (a <=? b).
Proof.
  intros Ha Hb. unfold leb, SFleb.
  destruct (Z.eq_dec a 0) as [->|Ha0].
  { unfold half. destruct b; reflexivity. }
  destruct (half_finite a Ha0 ltac:(lia)) as (Ma & Ea & -> & _ & _ & HEa & HMa).
  replace (a <? 0) with false by (symmetry; apply Z.ltb_ge; lia).
  destruct (Z.eq_dec b 0) as [->|Hb0].
  { cbn. symmetry. apply Z.leb_gt. lia. }
  destruct (half_finite b Hb0 Hb) as (Mb & Eb & -> & _ & _ & HEb & HMb).
  destruct (Z.ltb_spec b 0) as [Hneg|Hpos].
  { cbn. symmetry. apply Z.leb_gt. lia. }
  cbn [SFcompare]. rewrite Z.abs_eq in HMa, HMb by lia.
  unfold half_exponent in HEa, HEb. rewrite Z.abs_eq in HEa, HEb by lia.
  destruct (Z.compare_spec Ea Eb) as [Heq|Hlt|Hgt].
  - rewrite <- Heq in HMb. rewrite HEa in HMa, HMb.
    assert (Hpow : 0 < 2 ^ (-1 - (Z.log2 a - 53))).
    { apply Z.pow_pos_nonneg; [lia|].
      assert (Z.log2 a < 53) by (apply Z.log2_lt_pow2; lia). lia. }
    change (Pos.compare_cont Eq Ma Mb) with (Z.compare (Zpos Ma) (Zpos Mb)).
    destruct (Z.compare_spec (Zpos Ma) (Zpos Mb)) as [H|H|H];
      symmetry; [apply Z.leb_le|apply Z.leb_le|apply Z.leb_gt]; nia.
  - symmetry. apply Z.leb_le.
    assert (Z.log2 a < Z.log2 b) by lia.
    apply Z.lt_le_incl, Z.log2_lt_cancel. assumption.
  - symmetry. apply Z.leb_gt.
    assert (Z.log2 b < Z.log2 a) by lia.
    apply Z.log2_lt_cancel. assumption.
Qed.

Lemma div_two_half c : 1 <= c < 2 ^ 52 -> div (of_Z c) (of_Z 2) = half c.
Proof.
  intros Hc. rewrite (of_Z_half c) by lia.
  destruct (half_finite (2 * c) ltac:(lia) ltac:(lia))
    as (Mx & Ex & -> & Hn & HEx & Hex & HMx).
  destruct (half_finite c ltac:(lia) ltac:(lia))
    as (M & E & -> & _ & _ & He & HM).
  replace (2 * c <? 0) with false by (symmetry; apply Z.ltb_ge; lia).
  replace (c <? 0) with false by (symmetry; apply Z.ltb_ge; lia).
  assert (HE : E = Ex - 1).
  { rewrite He, Hex. unfold half_exponent. rewrite !Z.abs_eq by lia.
    rewrite Z.log2_double by lia. lia. }
  assert (HMeq : M = Mx).
  { assert (Zpos M = Zpos Mx); [|congruence].
    rewrite HM, HMx, HE, !Z.abs_eq by lia.
    replace (-1 - (Ex - 1)) with (Z.succ (-1 - Ex)) by lia.
    rewrite Z.pow_succ_r by lia. lia. }
  subst M. rewrite HE. clear HM He HE.
  replace (of_Z 2) with (S754_finite false 4503599627370496 (-51))
    by (vm_compute; reflexivity).
  unfold div. cbn [SFdiv]. unfold SFdiv_core_binary. cbn [Zdigits2].
  rewrite (normal_digits Mx Ex Hn).
  change (Zpos (digits2_pos 4503599627370496)) with 53.
  unfold fexp, emin, prec, emax.
  replace (Z.min (Z.max (53 + Ex - (53 + -51) - 53) (3 - 1024 - 53)) (Ex - -51))
    with (Ex - 2) by lia.
  replace (Ex - -51 - (Ex - 2)) with 53 by lia. cbv iota.
  rewrite Z.shiftl_mul_pow2 by lia.
  destruct (Z.div_eucl (Zpos Mx * 2 ^ 53) 4503599627370496) as [q r] eqn:Hdiv.
  assert (Hq : q = Zpos Mx~0).
  { transitivity (Zpos Mx * 2 ^ 53 / 4503599627370496).
    - unfold Z.div. rewrite Hdiv. reflexivity.
    - replace (Zpos Mx * 2 ^ 53) with (Zpos Mx~0 * 4503599627370496) by lia.
      apply Z.div_mul. lia. }
  assert (Hr : r = 0).
  { transitivity ((Zpos Mx * 2 ^ 53) mod 4503599627370496).
    - unfold Z.modulo. rewrite Hdiv. reflexivity.
    - replace (Zpos Mx * 2 ^ 53) with (Zpos Mx~0 * 4503599627370496) by lia.
      apply Z.mod_mul. lia. }
  subst q r. change (new_location 4503599627370496 0) with loc_Exact.
  cbn [xorb].
  change (Zpos Mx~0) with (Zpos (Pos.iter xO Mx 1)).
  replace (Ex - 2) with (Ex - 1 - 1) by lia.
  apply binary_round_aux_right. destruct Hn as [HMn HEn]. split; [exact HMn|lia].
Qed.

End Binary64Exact.

(** ** Binary search *)

Section SearchFacts.
Local Open Scope Z_scope.

Lemma search_midpoint i j :
  0 <= i -> i < j -> j < 2 ^ 63 ->
  let h := Z.shiftr (wrap64 (i + j)) 1 in i <= h < j.
Proof.
  intros Hi Hij Hj h. subst h. unfold wrap64.
  rewrite Z.mod_small by lia.
  rewrite Z.shiftr_div_pow2 by lia. change (2 ^ 1) with 2.
  split; [apply Z.div_le_lower_bound | apply Z.div_lt_upper_bound]; lia.
Qed.

(** The loop keeps [f] false just below [i] and true at [j]. *)
Lemma search_loop_spec f fuel : forall i j,
  0 <= i <= j -> j < 2 ^ 63 -> j - i <= Z.of_nat fuel ->
  let r := search_loop fuel f i j in
  i <= r <= j /\ (r = i \/ f (r - 1) = false) /\ (r = j \/ f r = true).
Proof.
  induction fuel as [|fuel IH]; intros i j Hij Hj Hfuel; simpl.
  - assert (i = j) by lia. subst. auto with lia.
  - destruct (Z.ltb_spec i j) as [Hlt|Hge].
    2:{ assert (i = j) by lia. subst. auto with lia. }
    pose proof (search_midpoint i j ltac:(lia) Hlt Hj) as Hh. simpl in Hh.
    set (h := Z.shiftr (wrap64 (i + j)) 1) in *.
    destruct (f h) eqn:Hfh; simpl.
    + destruct (IH i h ltac:(lia) ltac:(lia) ltac:(lia)) as (Hr & Hlo & Hhi).
      repeat split; try lia; [exact Hlo|].
      right. destruct Hhi as [->|]; auto.
    + destruct (IH (h + 1) j ltac:(lia) ltac:(lia) ltac:(lia)) as (Hr & Hlo & Hhi).
      repeat split; try lia; [|exact Hhi].
      right. destruct Hlo as [->|]; auto.
      replace (h + 1 - 1) with h by lia. exact Hfh.
Qed.

(** More fuel than the width of the interval changes nothing. *)
Lemma search_loop_fuel f fuel1 : forall fuel2 i j,
  0 <= i -> j < 2 ^ 63 ->
  j - i <= Z.of_nat fuel1 -> j - i <= Z.of_nat fuel2 ->
  search_loop fuel1 f i j = search_loop fuel2 f i j.
Proof.
  induction fuel1 as [|fuel1 IH]; intros fuel2 i j Hi Hj H1 H2.
  - destruct fuel2; simpl; auto.
    destruct (Z.ltb_spec i j); auto; lia.
  - destruct fuel2; simpl.
    + destruct (Z.ltb_spec i j); auto; lia.
    + destruct (Z.ltb_spec i j) as [Hlt|]; auto.
      pose proof (search_midpoint i j Hi Hlt Hj) as Hh. simpl in Hh.
      destruct (f _); simpl; apply IH; lia.
Qed.

Lemma Search_spec n f :
  0 <= n < 2 ^ 63 ->
  0 <= Search n f <= n /\
  (Search n f = 0 \/ f (Search n f - 1) = false) /\
  (Search n f = n \/ f (Search n f) = true).
Proof.
  intros Hn. unfold Search.
  apply (search_loop_spec f (Z.to_nat n) 0 n); lia.
Qed.

(** On a predicate that stays true once it is true, [Search] returns the
    least index at which it holds. *)
Lemma Search_least n f :
  0 <= n < 2 ^ 63 ->
  (forall a b, 0 <= a <= b -> b < n -> f a = true -> f b = true) ->
  forall k, 0 <= k < Search n f -> f k = false.
Proof.
  intros Hn Hmono k Hk.
  destruct (Search_spec n f Hn) as (Hr & [Hlo|Hlo] & _); [lia|].
  destruct (f k) eqn:Hfk; auto.
  rewrite (Hmono k (Search n f - 1)) in Hlo; auto; lia.
Qed.

End SearchFacts.

(** ** Counting: facts that hold over any arithmetic *)

Module DistFacts.
Import DistSpec.
Section Generic.
Context {F : Type} `{Float64Ops F}.
Local Open Scope Z_scope.

Lemma sum_counts_replicate n : sum_counts (replicate n 0) = 0.
Proof. induction n; simpl; auto. Qed.

Lemma sum_counts_insert cs : forall i c v,
  cs !! i = Some c -> sum_counts (<[i := v]> cs) = sum_counts cs - c + v.
Proof.
  induction cs as [|c0 cs IH]; intros [|i] c v Hc; simpl in *; try discriminate.
  - inversion Hc; subst. lia.
  - rewrite (IH i c v Hc). lia.
Qed.

Lemma sum_counts_bound cs : forall i c,
  Forall (fun c => 0 <= c) cs -> cs !! i = Some c -> 0 <= c <= sum_counts cs.
Proof.
  induction cs as [|c0 cs IH]; intros [|i] c Hpos Hc; simpl in *; try discriminate;
    inversion Hpos as [|? ? H0 Hrest]; subst.
  - inversion Hc; subst.
    assert (0 <= sum_counts cs).
    { clear -Hrest. induction Hrest; simpl; lia. }
    lia.
  - specialize (IH i c Hrest Hc). lia.
Qed.

Lemma findDistributionIndex_range (ps : list (@Dist.bucketPiece F)) x :
  1 <= Z.of_nat (length ps) < 2 ^ 63 ->
  0 <= Dist.findDistributionIndex ps x <= Z.of_nat (length ps) - 1.
Proof.
  intros Hlen. unfold Dist.findDistributionIndex.
  apply Search_spec. lia.
Qed.

(** [Add] does not panic on such a distribution, and below the width of
    the counters nothing wraps. *)
Lemma Add_counted n d x :
  counted n d -> 0 <= n -> n + 1 < 2 ^ 64 ->
  let idx := Z.to_nat (Dist.findDistributionIndex (Dist.pieces d) x) in
  exists c, Dist.counts d !! idx = Some c /\
            Dist.Add d x = Some (Add_result d x idx c) /\
            counted (n + 1) (Add_result d x idx c).
Proof.
  intros [Hlen Hps Hpos Hsum Hcount] Hn Hn1 idx.
  pose proof (findDistributionIndex_range (Dist.pieces d) x Hps) as Hidx.
  fold idx in Hidx.
  destruct (lookup_lt_is_Some_2 (Dist.counts d) idx) as [c Hc].
  { rewrite Hlen. subst idx. lia. }
  exists c. split; [exact Hc|].
  pose proof (sum_counts_bound _ _ _ Hpos Hc) as Hcb.
  split.
  - unfold Dist.Add. fold idx. rewrite Hc. simpl.
    unfold Add_result, wrap64, f_gt.
    rewrite !Z.mod_small by lia.
    destruct (Dist.count d =? 0); [reflexivity|].
    destruct (f_lt x (Dist.min d)); [reflexivity|].
    destruct (f_lt (Dist.max d) x); reflexivity.
  - constructor; simpl.
    + rewrite length_insert. exact Hlen.
    + exact Hps.
    + apply Forall_insert; auto. lia.
    + rewrite (sum_counts_insert _ _ _ _ Hc). lia.
    + lia.
Qed.

Lemma newDistribution_counted (b : @Dist.Bucketer F) :
  1 <= Z.of_nat (length (Dist.b_pieces b)) < 2 ^ 63 ->
  counted 0 (Dist.newDistribution b).
Proof.
  intros Hlen. constructor; simpl; auto.
  - apply length_replicate.
  - apply Forall_replicate. lia.
  - apply sum_counts_replicate.
Qed.

Lemma AddAll_counted xs : forall n d,
  counted n d -> 0 <= n -> n + Z.of_nat (length xs) < 2 ^ 64 ->
  exists d', Dist.AddAll d xs = Some d' /\
             counted (n + Z.of_nat (length xs)) d' /\
             Dist.pieces d' = Dist.pieces d.
Proof.
  induction xs as [|x xs IH]; intros n d Hd Hn Hlen; simpl in *.
  - exists d. replace (n + Z.of_nat 0) with n by lia. auto.
  - destruct (Add_counted n d x Hd Hn ltac:(lia)) as (c & Hc & HAdd & Hd').
    rewrite HAdd. simpl.
    destruct (IH (n + 1) _ Hd' ltac:(lia) ltac:(lia)) as (d' & Hall & Hd'' & Hps).
    exists d'. split; [exact Hall|]. split; [|exact Hps].
    replace (n + Z.of_nat (S (length xs))) with (n + 1 + Z.of_nat (length xs)) by lia.
    exact Hd''.
Qed.

Lemma AddAll_app xs : forall ys (d : @Dist.distribution F),
  Dist.AddAll d (xs ++ ys) = d' ← Dist.AddAll d xs; Dist.AddAll d' ys.
Proof.
  induction xs as [|x xs IH]; intros ys d; simpl; auto.
  destruct (Dist.Add d x); simpl; auto.
Qed.

(** The pieces a bucketer is made of. *)
Lemma pieces_from_length lower (rest : list F) :
  length (Dist.pieces_from lower rest) = S (length rest).
Proof. revert lower. induction rest; intros; simpl; auto. Qed.

Lemma NewArbitraryBucketer_pieces (es : list F) :
  es <> [] -> Z.of_nat (length es) < 2 ^ 63 - 1 ->
  exists e rest b, es = e :: rest /\
    Dist.NewArbitraryBucketer es = Some b /\
    Dist.b_pieces b =
      {| Dist.Start := f_zero; Dist.End_ := e; Dist.First := true; Dist.Last := false |}
        :: Dist.pieces_from e rest /\
    length (Dist.b_pieces b) = S (length es).
Proof.
  intros Hne Hlen. destruct es as [|e rest]; [congruence|].
  eexists e, rest, _. split; [reflexivity|].
  unfold Dist.NewArbitraryBucketer, Dist.newArbitraryBucketerStream,
    Dist.newBucketerFromStream.
  assert (1 <= Z.of_nat (length (e :: rest))) by (simpl; lia).
  destruct (Z.eqb_spec (Z.of_nat (length (e :: rest))) 0) as [Hz|_]; [lia|].
  cbn -[Z.eqb Z.ltb Z.of_nat length].
  destruct (Z.ltb_spec (Z.of_nat (length (e :: rest))) 1); [lia|].
  rewrite Z.eqb_refl. cbn -[Z.of_nat].
  split; [reflexivity|]. split; [reflexivity|].
  cbn [length Dist.b_pieces]. f_equal. apply pieces_from_length.
Qed.

(** What a snapshot copies from the distribution. *)
Lemma fill_breakdown_counts (ps : list (@Dist.bucketPiece F)) : forall cs bdn,
  length cs = length ps ->
  Dist.fill_breakdown ps cs = Some bdn ->
  map Dist.bp_Count bdn = cs /\ map Dist.bp_piece bdn = ps.
Proof.
  induction ps as [|p ps IH]; intros [|c cs] bdn Hlen Hfill; simpl in *; try discriminate.
  - inversion Hfill; subst. auto.
  - destruct (Dist.fill_breakdown ps cs) as [r|] eqn:Hr; simpl in Hfill; [|discriminate].
    inversion Hfill; subst. simpl.
    destruct (IH cs r ltac:(lia) Hr) as [-> ->]. auto.
Qed.

Lemma fill_breakdown_total (ps : list (@Dist.bucketPiece F)) : forall cs,
  length cs = length ps -> exists bdn, Dist.fill_breakdown ps cs = Some bdn.
Proof.
  induction ps as [|p ps IH]; intros [|c cs] Hlen; simpl in *; try discriminate.
  - eexists; reflexivity.
  - destruct (IH cs ltac:(lia)) as [r Hr]. rewrite Hr. simpl. eexists; reflexivity.
Qed.

Lemma Snapshot_fields n d s :
  counted n d -> Dist.Snapshot d = Some s ->
  Dist.Count s = n /\
  map Dist.bp_Count (Dist.Breakdown s) = Dist.counts d /\
  map Dist.bp_piece (Dist.Breakdown s) = Dist.pieces d /\
  (n <> 0 -> Dist.Min s = Dist.min d /\ Dist.Max s = Dist.max d /\
             Dist.calculateMedian d = Some (Dist.Median s)).
Proof.
  intros [Hlen _ _ _ Hcount] Hs. unfold Dist.Snapshot in Hs.
  destruct (Dist.fill_breakdown (Dist.pieces d) (Dist.counts d)) as [bdn|] eqn:Hb;
    simpl in Hs; [|discriminate].
  destruct (fill_breakdown_counts _ _ _ Hlen Hb) as [Hcs Hps].
  destruct (Z.eqb_spec (Dist.count d) 0) as [H0|H0].
  - inversion Hs; subst; simpl. repeat split; auto; lia.
  - destruct (Dist.calculateMedian d) as [m|]; simpl in Hs; [|discriminate].
    inversion Hs; subst; simpl. repeat split; auto.
Qed.

Lemma Snapshot_total n d m :
  counted n d -> Dist.calculateMedian d = Some m ->
  exists s, Dist.Snapshot d = Some s.
Proof.
  intros [Hlen _ _ _ _] Hm. unfold Dist.Snapshot.
  destruct (fill_breakdown_total _ _ Hlen) as [bdn ->]. simpl.
  destruct (Dist.count d =? 0); [eexists; reflexivity|].
  rewrite Hm. simpl. eexists; reflexivity.
Qed.

End Generic.
End DistFacts.

(** ** Cut points and pieces *)

Module PiecesFacts.
Import DistSpec.
Section Generic.
Context {F : Type} `{Float64Ops F}.
Local Open Scope Z_scope.

Lemma pieces_from_End rest : forall lower i (e : F),
  rest !! i = Some e ->
  exists p, Dist.pieces_from lower rest !! i = Some p /\ Dist.End_ p = e.
Proof.
  induction rest as [|u rest IH]; intros lower [|i] e He; simpl in *; try discriminate.
  - inversion He; subst. eexists. split; reflexivity.
  - apply IH. exact He.
Qed.

Lemma pieces_from_Start rest : forall lower i (e : F),
  (lower :: rest) !! i = Some e ->
  exists p, Dist.pieces_from lower rest !! i = Some p /\ Dist.Start p = e.
Proof.
  induction rest as [|u rest IH]; intros lower [|i] e He; simpl in *.
  - inversion He; subst. eexists. split; reflexivity.
  - destruct i; discriminate.
  - inversion He; subst. eexists. split; reflexivity.
  - apply IH. exact He.
Qed.

(** Piece [i] ends at cut point [i] ... *)
Lemma pieces_of_End es i (e : F) :
  es !! i = Some e ->
  exists p, pieces_of es !! i = Some p /\ Dist.End_ p = e.
Proof.
  destruct es as [|e0 rest]; [discriminate|].
  destruct i as [|i]; simpl; intros He.
  - inversion He; subst. eexists. split; reflexivity.
  - apply pieces_from_End. exact He.
Qed.

(** ... and piece [i + 1] starts there. *)
Lemma pieces_of_Start es i (e : F) :
  es !! i = Some e ->
  exists p, pieces_of es !! (S i) = Some p /\ Dist.Start p = e.
Proof.
  destruct es as [|e0 rest]; [discriminate|].
  simpl. intros He. apply pieces_from_Start. exact He.
Qed.

Lemma pieces_of_length (es : list F) :
  es <> [] -> length (pieces_of es) = S (length es).
Proof.
  destruct es as [|e rest]; [congruence|]. intros _. simpl.
  rewrite DistFacts.pieces_from_length. reflexivity.
Qed.

Lemma NewArbitraryBucketer_pieces_of (es : list F) b :
  Dist.NewArbitraryBucketer es = Some b ->
  Z.of_nat (length es) < 2 ^ 63 - 1 ->
  es <> [] /\ Dist.b_pieces b = pieces_of es.
Proof.
  intros Hb Hlen.
  destruct es as [|e rest]; [discriminate|].
  split; [congruence|].
  destruct (DistFacts.NewArbitraryBucketer_pieces (e :: rest))
    as (e' & rest' & b' & Heq & Hb' & Hps & _); [congruence|exact Hlen|].
  inversion Heq; subst. rewrite Hb in Hb'. inversion Hb'; subst.
  exact Hps.
Qed.

(** The bucket the binary search lands in: the comparison with the cut
    point closing it succeeds, the one with the cut point before fails. *)
Lemma findDistributionIndex_cuts es (x : F) :
  es <> [] -> Z.of_nat (length es) < 2 ^ 63 - 1 ->
  let b := Z.to_nat (Dist.findDistributionIndex (pieces_of es) x) in
  (b <= length es)%nat /\
  (forall e, es !! b = Some e -> f_lt x e = true) /\
  (forall b' e, b = S b' -> es !! b' = Some e -> f_lt x e = false).
Proof.
  intros Hne Hlen. cbv zeta.
  unfold Dist.findDistributionIndex.
  rewrite pieces_of_length by exact Hne.
  set (f := fun i : Z =>
              match pieces_of es !! Z.to_nat i with
              | Some p => f_lt x (Dist.End_ p)
              | None => false
              end).
  replace (Z.of_nat (S (length es)) - 1) with (Z.of_nat (length es)) by lia.
  set (b := Z.to_nat (Search (Z.of_nat (length es)) f)).
  destruct (Search_spec (Z.of_nat (length es)) f ltac:(lia)) as (Hr & Hlo & Hhi).
  split; [subst b; lia|]. split.
  - intros e He.
    assert (Hb : (b < length es)%nat) by (eapply lookup_lt_Some; eauto).
    destruct Hhi as [Hhi|Hhi]; [subst b; lia|].
    assert (Hfb : f (Z.of_nat b) = true).
    { replace (Z.of_nat b) with (Search (Z.of_nat (length es)) f) by (subst b; lia).
      exact Hhi. }
    unfold f in Hfb. rewrite Nat2Z.id in Hfb.
    destruct (pieces_of_End es b e He) as (p & Hp & HEnd).
    rewrite Hp, HEnd in Hfb. exact Hfb.
  - intros b' e Hb He.
    destruct Hlo as [Hlo|Hlo]; [subst b; lia|].
    assert (Hfb : f (Z.of_nat b') = false).
    { replace (Z.of_nat b') with (Search (Z.of_nat (length es)) f - 1) by (subst b; lia).
      exact Hlo. }
    unfold f in Hfb. rewrite Nat2Z.id in Hfb.
    destruct (pieces_of_End es b' e He) as (p & Hp & HEnd).
    rewrite Hp, HEnd in Hfb. exact Hfb.
Qed.

Lemma observes_counted es xs d :
  observes es xs d ->
  Z.of_nat (length es) < 2 ^ 63 - 1 ->
  Z.of_nat (length xs) < 2 ^ 64 ->
  DistSpec.counted (Z.of_nat (length xs)) d /\ Dist.pieces d = pieces_of es /\ es <> [].
Proof.
  intros (b & Hb & Hd) Hes Hxs.
  destruct (NewArbitraryBucketer_pieces_of es b Hb Hes) as [Hne Hps].
  assert (Hlen : (1 <= Z.of_nat (length (Dist.b_pieces b)) < 2 ^ 63)%Z).
  { rewrite Hps, pieces_of_length by exact Hne. lia. }
  destruct (DistFacts.AddAll_counted xs 0 _
              (DistFacts.newDistribution_counted b Hlen) ltac:(lia) ltac:(lia))
    as (d' & Hd' & Hc & Hp).
  rewrite Hd in Hd'. inversion Hd'; subst d'.
  split; [exact Hc|]. split; [|exact Hne].
  rewrite Hp. exact Hps.
Qed.

Lemma observes_total es xs :
  es <> [] ->
  Z.of_nat (length es) < 2 ^ 63 - 1 ->
  Z.of_nat (length xs) < 2 ^ 64 ->
  exists d, observes es xs d.
Proof.
  intros Hne Hes Hxs.
  destruct (DistFacts.NewArbitraryBucketer_pieces es Hne Hes)
    as (e & rest & b & Heq & Hb & Hps & Hlen).
  assert (Hl : (1 <= Z.of_nat (length (Dist.b_pieces b)) < 2 ^ 63)%Z).
  { rewrite Hlen. lia. }
  destruct (DistFacts.AddAll_counted xs 0 _
              (DistFacts.newDistribution_counted b Hl) ltac:(lia) ltac:(lia))
    as (d & Hd & _).
  exists d, b. auto.
Qed.

Lemma observes_snoc es xs x d d' :
  observes es xs d -> Dist.Add d x = Some d' -> observes es (xs ++ [x]) d'.
Proof.
  intros (b & Hb & Hd) HAdd. exists b. split; [exact Hb|].
  rewrite DistFacts.AddAll_app, Hd. simpl. rewrite HAdd. reflexivity.
Qed.

Lemma observes_snoc_inv es xs x d' :
  observes es (xs ++ [x]) d' ->
  exists d, observes es xs d /\ Dist.Add d x = Some d'.
Proof.
  intros (b & Hb & Hd). rewrite DistFacts.AddAll_app in Hd.
  destruct (Dist.AddAll (Dist.newDistribution b) xs) as [d|] eqn:Hxs; [|discriminate].
  simpl in Hd. exists d. split; [exists b; auto|].
  destruct (Dist.Add d x); simpl in Hd; congruence.
Qed.

End Generic.
End PiecesFacts.

(** ** The distribution in binary64 *)

Module DistBinary64.
Import Binary64 Binary64Facts Binary64Spec Binary64Exact DistSpec DistBinary64Spec.
Local Open Scope Z_scope.


Lemma run_observes es xs d : run es xs = Some d -> DistSpec.observes es xs d.
Proof.
  unfold run. intros Hrun.
  destruct (Dist.NewArbitraryBucketer es) as [b|] eqn:Hb; [|discriminate].
  exists b. auto.
Qed.

Lemma ascending_head a es e : forall i,
  ascending (a :: es) -> es !! i = Some e -> ltb a e = true.
Proof.
  revert a. induction es as [|b es IH]; intros a i Hasc He; [destruct i; discriminate|].
  destruct Hasc as [Hab Htl].
  destruct i as [|i]; simpl in He.
  - congruence.
  - eapply ltb_trans; [exact Hab|]. eapply IH; eauto.
Qed.

Lemma ascending_lookup es : forall i j a b,
  ascending es -> (i < j)%nat -> es !! i = Some a -> es !! j = Some b ->
  ltb a b = true.
Proof.
  induction es as [|e es IH]; intros i j a b Hasc Hij Ha Hb; [destruct i; discriminate|].
  destruct j as [|j]; [lia|]. simpl in Hb.
  destruct i as [|i]; simpl in Ha.
  - inversion Ha; subst. eapply ascending_head; eauto.
  - eapply (IH i j); eauto; [|lia].
    destruct es; [exact I|]. apply Hasc.
Qed.

Lemma extremes_Add xs d x idx c :
  Dist.count d = Z.of_nat (length xs) ->
  extremes xs d ->
  extremes (xs ++ [x]) (DistSpec.Add_result d x idx c).
Proof.
  intros Hcount Hext. destruct xs as [|x0 xs]; simpl in *.
  - rewrite Hcount. simpl. split; [auto|]. split; [auto|].
    destruct (is_nan x) eqn:Hx; [auto|]. apply leb_refl. exact Hx.
  - destruct (Z.eqb_spec (Dist.count d) 0) as [H0|_]; [lia|].
    destruct Hext as (Hmin & Hmax & Hord).
    assert (Hin : forall y, x0 = y \/ In y xs -> x0 = y \/ In y (xs ++ [x])).
    { intros y [->|Hy]; auto. right. apply in_or_app. auto. }
    assert (Hx : x0 = x \/ In x (xs ++ [x])).
    { right. apply in_or_app. right. left. reflexivity. }
    destruct (is_nan x0).
    + destruct Hord as [Hnmin Hnmax].
      destruct (Dist.min d); try discriminate.
      destruct (Dist.max d); try discriminate.
      rewrite ltb_nan_r. simpl. auto.
    + destruct (ltb x (Dist.min d)) eqn:Hlt.
      { split; [exact Hx|]. split; [auto|].
        apply ltb_leb. eapply ltb_leb_trans; eauto. }
      destruct (ltb (Dist.max d) x) eqn:Hgt.
      { split; [auto|]. split; [exact Hx|].
        apply ltb_leb. eapply leb_ltb_trans; eauto. }
      auto.
Qed.

Lemma observes_extremes es xs : forall d,
  DistSpec.observes es xs d ->
  Z.of_nat (length es) < 2 ^ 63 - 1 ->
  Z.of_nat (length xs) < 2 ^ 64 ->
  extremes xs d.
Proof.
  induction xs as [|x xs IH] using rev_ind; intros d Hobs Hes Hxs; [exact I|].
  rewrite length_app in Hxs. simpl in Hxs.
  destruct (PiecesFacts.observes_snoc_inv es xs x d Hobs) as (d0 & Hobs0 & HAdd).
  destruct (PiecesFacts.observes_counted es xs d0 Hobs0 Hes ltac:(lia)) as (Hc & _).
  destruct (DistFacts.Add_counted _ d0 x Hc ltac:(lia) ltac:(lia)) as (c & _ & HAdd' & _).
  rewrite HAdd in HAdd'. inversion HAdd'; subst d.
  apply extremes_Add; [apply Hc|].
  apply IH; auto. lia.
Qed.

(** At most one bucket takes a given value. *)
Lemma bucket_unique es x b1 b2 :
  ascending es -> in_bucket es x b1 -> in_bucket es x b2 -> b1 = b2.
Proof.
  intros Hasc (Hb1 & Hhi1 & Hlo1) (Hb2 & Hhi2 & Hlo2).
  assert (Hlt : forall i j, (i <= length es)%nat -> (j <= length es)%nat ->
            (forall e, es !! i = Some e -> ltb x e = true) ->
            (forall b' e, j = S b' -> es !! b' = Some e -> leb e x = true) ->
            (i < j)%nat -> False).
  { intros i j Hi Hj Hhi Hlo Hij.
    destruct j as [|j']; [lia|].
    destruct (lookup_lt_is_Some_2 es i ltac:(lia)) as [ei Hei].
    destruct (lookup_lt_is_Some_2 es j' ltac:(lia)) as [ej Hej].
    pose proof (Hhi ei Hei) as Hxi.
    pose proof (Hlo j' ej eq_refl Hej) as Hjx.
    assert (Hle : ltb x ej = true).
    { destruct (decide (i = j')) as [->|Hne].
      - congruence.
      - eapply ltb_trans; [exact Hxi|].
        eapply (ascending_lookup es i j'); eauto; lia. }
    rewrite (leb_ltb_false x ej Hjx) in Hle. discriminate. }
  destruct (Nat.lt_trichotomy b1 b2) as [H|[H|H]]; [|exact H|]; exfalso.
  - eapply (Hlt b1 b2); eauto.
  - eapply (Hlt b2 b1); eauto.
Qed.

(** The bucket the binary search lands in. *)
Lemma findDistributionIndex_bucket es x :
  es <> [] -> Z.of_nat (length es) < 2 ^ 63 - 1 ->
  Forall (fun e => is_nan e = false) es ->
  is_nan x = false ->
  in_bucket es x (Z.to_nat (Dist.findDistributionIndex (DistSpec.pieces_of es) x)).
Proof.
  intros Hne Hlen Hnan Hx.
  destruct (PiecesFacts.findDistributionIndex_cuts es x Hne Hlen) as (Hb & Hhi & Hlo).
  split; [exact Hb|]. split; [exact Hhi|].
  intros b' e Hb' He. apply ltb_false_leb; auto.
  - rewrite Forall_forall in Hnan. apply Hnan.
    eapply list_elem_of_lookup_2; eauto.
  - exact (Hlo b' e Hb' He).
Qed.

(** C1, as amended: over cut points [e_1 < ... < e_k], none of them NaN,
    and for every value [x] that is not NaN, [Add x] on a distribution
    built by fewer than [2^64 - 1] earlier [Add] calls returns, raises
    the count of the one bucket [b] with [e_b <= x < e_(b+1)] (the first
    bucket when [x < e_1], the last when [e_k <= x]) and no other, adds
    [x] to the running sum, raises the total count by one, and sets
    [min = max = x] on the first observation, otherwise replaces [min] by
    [x] when [x < min] and [max] by [x] when [max < x]. *)
Theorem Add_increments_its_bucket es xs d x :
  ascending es ->
  Forall (fun e => is_nan e = false) es ->
  Z.of_nat (length es) < 2 ^ 63 - 1 ->
  Z.of_nat (length xs) < 2 ^ 64 - 1 ->
  DistSpec.observes es xs d ->
  is_nan x = false ->
  exists d', Dist.Add d x = Some d' /\
             Add_claim es d d' x /\
             (forall b1 b2, in_bucket es x b1 -> in_bucket es x b2 -> b1 = b2).
Proof.
  intros Hasc Hnan Hes Hxs Hobs Hx.
  destruct (PiecesFacts.observes_counted es xs d Hobs Hes ltac:(lia))
    as (Hc & Hps & Hne).
  pose proof (observes_extremes es xs d Hobs Hes ltac:(lia)) as Hext.
  destruct (DistFacts.Add_counted _ d x Hc ltac:(lia) ltac:(lia))
    as (c & Hlook & HAdd & _).
  rewrite Hps in Hlook, HAdd.
  set (b := Z.to_nat (Dist.findDistributionIndex (DistSpec.pieces_of es) x)) in *.
  eexists. split; [exact HAdd|]. split.
  2:{ intros b1 b2. apply bucket_unique. exact Hasc. }
  exists b, c. split.
  { apply findDistributionIndex_bucket; auto. }
  split; [exact Hlook|]. simpl.
  split; [reflexivity|]. split; [reflexivity|]. split; [reflexivity|].
  split.
  - intros H0. rewrite H0. simpl. auto.
  - intros H0. destruct (Z.eqb_spec (Dist.count d) 0) as [|_]; [contradiction|].
    split; [reflexivity|].
    change (@f_lt float64 ops) with ltb.
    destruct (ltb x (Dist.min d)) eqn:Hlt; [|reflexivity].
    assert (Hmax : ltb (Dist.max d) x = false); [|rewrite Hmax; reflexivity].
    destruct xs as [|x0 xs'].
    { destruct Hc as [_ _ _ _ Hcount]. simpl in Hcount. contradiction. }
    destruct Hext as (_ & _ & Hord).
    destruct (is_nan x0).
    + destruct Hord as [Hnmin _].
      destruct (Dist.min d); try discriminate.
      rewrite ltb_nan_r in Hlt. discriminate.
    + apply leb_ltb_false. apply ltb_leb. eapply ltb_leb_trans; eauto.
Qed.

Lemma Add_increments_its_bucket_witness :
  exists d d',
    DistSpec.observes [of_Z 1000] [of_Z 200] d /\
    Dist.Add d (of_Z 300) = Some d' /\
    Add_claim [of_Z 1000] d d' (of_Z 300).
Proof.
  exists_value (run [of_Z 1000] [of_Z 200]).
  match goal with |- exists d', ?O /\ _ =>
    assert (Hobs : O) by (apply run_observes; by_evaluation)
  end.
  destruct (Add_increments_its_bucket [of_Z 1000] [of_Z 200] _ (of_Z 300)
              I ltac:(repeat constructor) eq_refl eq_refl Hobs eq_refl)
    as (d' & HAdd & Hclaim & _).
  exists d'. auto.
Defined.

(** C1 fails on NaN: [Add NaN] raises the count of the last bucket,
    although NaN is in no bucket, [e_k <= NaN] being false. *)
Lemma Add_NaN_in_no_bucket :
  exists b d',
    Dist.NewArbitraryBucketer [of_Z 1000] = Some b /\
    Dist.Add (Dist.newDistribution b) NaN = Some d' /\
    Dist.counts d' = [0; 1] /\
    ~ Add_claim [of_Z 1000] (Dist.newDistribution b) d' NaN.
Proof.
  exists_value (Dist.NewArbitraryBucketer [of_Z 1000]).
  match goal with |- exists d', _ /\ Dist.Add ?d ?x = _ /\ _ =>
    exists_value (Dist.Add d x)
  end.
  split; [by_evaluation|]. split; [by_evaluation|].
  split; [reflexivity|].
  intros (b & c & (Hb & Hhi & Hlo) & _).
  destruct b as [|[|b]]; simpl in *.
  - specialize (Hhi _ eq_refl). discriminate.
  - specialize (Hlo 0%nat _ eq_refl eq_refl). discriminate.
  - lia.
Qed.

(** *** The median search stays within the buckets *)

Lemma valueIndexToPiece_from_returns n rest : forall pieceIdx s,
  1 <= n < 2 ^ 52 ->
  Forall (fun c => 0 <= c) rest ->
  s + 1 + 2 * sum_counts rest = 2 * n ->
  -1 <= s <= n - 1 ->
  exists r, Dist.valueIndexToPiece_from rest pieceIdx (half s) (half (n - 1)) = Some r /\
            (fst r < pieceIdx + length rest)%nat.
Proof.
  induction rest as [|c rest IH]; intros pieceIdx s Hn Hpos Hsum Hs.
  - simpl in Hsum. lia.
  - apply Forall_cons in Hpos as [Hc Hpos]. cbn [sum_counts foldr] in Hsum.
    fold (sum_counts rest) in Hsum.
    assert (Hrest : 0 <= sum_counts rest).
    { clear -Hpos. induction Hpos; simpl; [lia|]. fold (sum_counts l). lia. }
    cbn [Dist.valueIndexToPiece_from f_ge f_le f_sub f_add f_of_uint64 ops].
    rewrite (of_Z_half c) by lia.
    rewrite (sub_half (n - 1) s) by lia.
    rewrite (leb_half (2 * c) (n - 1 - s)) by lia.
    destruct (Z.leb_spec (2 * c) (n - 1 - s)) as [Hle|Hgt].
    + rewrite (add_half s (2 * c)) by lia.
      destruct (IH (S pieceIdx) (s + 2 * c) Hn Hpos ltac:(lia) ltac:(lia))
        as (r & Hr & Hidx).
      exists r. split; [exact Hr|]. simpl. lia.
    + eexists. split; [reflexivity|]. simpl. lia.
Qed.

Lemma calculateMedian_returns n (d : distribution) :
  DistSpec.counted n d -> 1 <= n < 2 ^ 52 ->
  exists m, Dist.calculateMedian d = Some m.
Proof.
  intros [Hlen Hpieces Hpos Hsum Hcount] Hn. unfold Dist.calculateMedian.
  rewrite Hcount. destruct (Z.eqb_spec n 1) as [_|Hn1]; [eexists; reflexivity|].
  unfold wrap64. rewrite Z.mod_small by lia.
  cbn [f_div f_of_uint64 f_two ops]. rewrite (div_two_half (n - 1)) by lia.
  unfold Dist.valueIndexToPiece. rewrite neg_half_half.
  destruct (valueIndexToPiece_from_returns n (Dist.counts d) 0%nat (-1)
              Hn Hpos ltac:(lia) ltac:(lia)) as ([pieceIdx frac] & -> & Hidx).
  cbn [fst] in Hidx. rewrite Hlen in Hidx. cbn [mbind option_bind].
  assert (Hlookup : forall i, (i < length (Dist.pieces d))%nat ->
                              is_Some (Dist.pieces d !! i)).
  { intros i Hi. apply lookup_lt_is_Some_2. exact Hi. }
  destruct (Nat.eqb pieceIdx 0).
  - destruct (Hlookup 0%nat ltac:(lia)) as [p ->]. eexists; reflexivity.
  - destruct (Nat.eqb pieceIdx (length (Dist.pieces d) - 1)).
    + destruct (Hlookup (length (Dist.pieces d) - 1)%nat ltac:(lia)) as [p ->].
      eexists; reflexivity.
    + destruct (Hlookup pieceIdx ltac:(lia)) as [p ->]. eexists; reflexivity.
Qed.

Lemma Snapshot_returns_binary64 (es xs : list float64) (d : distribution) :
  DistSpec.observes es xs d ->
  Z.of_nat (length es) < 2 ^ 63 - 1 ->
  Z.of_nat (length xs) < 2 ^ 52 ->
  exists s, Dist.Snapshot d = Some s.
Proof.
  intros Hobs Hes Hxs.
  destruct (PiecesFacts.observes_counted es xs d Hobs Hes ltac:(lia)) as (Hc & _ & _).
  destruct (Z.eq_dec (Z.of_nat (length xs)) 0) as [H0|H0].
  - destruct Hc as [Hlen _ _ _ Hcount]. unfold Dist.Snapshot.
    destruct (DistFacts.fill_breakdown_total _ _ Hlen) as [bdn ->]. simpl.
    rewrite Hcount, H0. simpl. eexists; reflexivity.
  - destruct (calculateMedian_returns _ d Hc ltac:(lia)) as [m Hm].
    eapply DistFacts.Snapshot_total; eauto.
Qed.

(** C2, as amended: after [Add] calls on a fresh distribution, the first
    of them with a value that is not NaN: when there were fewer than
    [2^52] of them [Snapshot] returns, and when there were fewer than
    [2^64] the snapshot it returns has [Count] equal to the number of
    calls, the counts of its breakdown add up to [Count], and when
    [Count >= 1] its [Min] and [Max] are values that were added, with
    [Min <= Max]. *)
Theorem Snapshot_counts_and_extremes es xs d :
  Z.of_nat (length es) < 2 ^ 63 - 1 ->
  Z.of_nat (length xs) < 2 ^ 64 ->
  (forall x0, head xs = Some x0 -> is_nan x0 = false) ->
  DistSpec.observes es xs d ->
  (Z.of_nat (length xs) < 2 ^ 52 ->
     exists s, Dist.Snapshot d = Some s /\ Snapshot_claim xs s) /\
  (forall s, Dist.Snapshot d = Some s -> Snapshot_claim xs s).
Proof.
  intros Hes Hxs Hhead Hobs.
  assert (Hclaim : forall s, Dist.Snapshot d = Some s -> Snapshot_claim xs s).
  { intros s Hs.
    destruct (PiecesFacts.observes_counted es xs d Hobs Hes Hxs) as (Hc & _ & _).
    pose proof (observes_extremes es xs d Hobs Hes Hxs) as Hext.
    destruct (DistFacts.Snapshot_fields _ d s Hc Hs) as (Hcount & Hcounts & _ & Hmm).
    split; [exact Hcount|]. split.
    - rewrite Hcounts, Hcount. apply Hc.
    - intros H1. destruct Hmm as (-> & -> & _); [lia|].
      destruct xs as [|x0 xs']; [simpl in *; lia|].
      destruct Hext as (Hmin & Hmax & Hord).
      rewrite (Hhead x0 eq_refl) in Hord. auto. }
  split; [|exact Hclaim].
  intros Hsmall. destruct (Snapshot_returns_binary64 es xs d Hobs Hes Hsmall) as [s Hs].
  exists s. auto.
Qed.

Lemma Snapshot_counts_and_extremes_witness :
  exists d,
    DistSpec.observes [of_Z 1000] [of_Z 3000; of_Z 3000; of_Z 7000] d /\
    (exists s, Dist.Snapshot d = Some s /\
               Snapshot_claim [of_Z 3000; of_Z 3000; of_Z 7000] s) /\
    (forall s, Dist.Snapshot d = Some s ->
               Snapshot_claim [of_Z 3000; of_Z 3000; of_Z 7000] s).
Proof.
  exists_value (run [of_Z 1000] [of_Z 3000; of_Z 3000; of_Z 7000]).
  match goal with |- ?O /\ _ =>
    assert (Hd : O) by (apply run_observes; by_evaluation)
  end.
  split; [exact Hd|].
  destruct (Snapshot_counts_and_extremes [of_Z 1000]
              [of_Z 3000; of_Z 3000; of_Z 7000] _
              ltac:(reflexivity) ltac:(reflexivity)
              ltac:(intros x0 Hx0; inversion Hx0; subst; reflexivity) Hd)
    as [Htotal Hclaim].
  split; [apply Htotal; reflexivity|exact Hclaim].
Defined.

(** C2 fails when the first value added is NaN: the snapshot then has
    [Min = Max = NaN], and [NaN <= NaN] is false. *)
Lemma Snapshot_after_NaN :
  exists d s,
    DistSpec.observes [of_Z 1000] [NaN] d /\
    Dist.Snapshot d = Some s /\
    Dist.Count s = 1 /\ Dist.Min s = NaN /\ Dist.Max s = NaN /\
    ~ Snapshot_claim [NaN] s.
Proof.
  exists_value (run [of_Z 1000] [NaN]).
  match goal with |- exists s, _ /\ Dist.Snapshot ?d = _ /\ _ =>
    exists_value (Dist.Snapshot d)
  end.
  split; [apply run_observes; by_evaluation|].
  split; [by_evaluation|]. split; [reflexivity|].
  split; [reflexivity|]. split; [reflexivity|].
  intros (_ & _ & Hord). destruct Hord as [Hle _]; [simpl; lia|].
  discriminate.
Qed.

(** C3, at its failing input: over the cut point 15, after adding 0, 15,
    15 and 15, Snapshot returns with Max 15 and Median
    15.000000000000002, so [min <= median <= max] does not hold of the
    program.  The median lies in the last bucket at the fraction 1/3
    between its clamped ends 15 and 15, and [(1 - 1/3) * 15 + 1/3 * 15],
    rounded in float64, comes out one unit in the last place above 15. *)
Lemma Median_above_Max :
  exists d s,
    DistSpec.observes [of_Z 15] [of_Z 0; of_Z 15; of_Z 15; of_Z 15] d /\
    Dist.Snapshot d = Some s /\
    Dist.Max s = of_Z 15 /\
    Dist.Median s = S754_finite false 8444249301319681 (-49) /\
    ltb (Dist.Max s) (Dist.Median s) = true /\
    ~ Median_claim s.
Proof.
  exists_value (run [of_Z 15] [of_Z 0; of_Z 15; of_Z 15; of_Z 15]).
  match goal with |- exists s, _ /\ Dist.Snapshot ?d = _ /\ _ =>
    exists_value (Dist.Snapshot d)
  end.
  split; [apply run_observes; by_evaluation|].
  split; [by_evaluation|]. split; [by_evaluation|].
  split; [reflexivity|]. split; [by_evaluation|].
  intros [_ Hle]. vm_compute in Hle. discriminate.
Qed.

(** C4: over the arbitrary bucketer with the single cut point 1000, after
    adding 200 and 300 the snapshot has median 250.0; after adding 3000,
    3000 and 7000 to a fresh distribution it has median 5000.0. *)
Theorem Median_all_low_all_high :
  (exists d s,
     DistSpec.observes [of_Z 1000] [of_Z 200; of_Z 300] d /\
     Dist.Snapshot d = Some s /\ Dist.Median s = of_Z 250) /\
  (exists d s,
     DistSpec.observes [of_Z 1000] [of_Z 3000; of_Z 3000; of_Z 7000] d /\
     Dist.Snapshot d = Some s /\ Dist.Median s = of_Z 5000).
Proof.
  split.
  - exists_value (run [of_Z 1000] [of_Z 200; of_Z 300]).
    match goal with |- exists s, _ /\ Dist.Snapshot ?d = _ /\ _ =>
      exists_value (Dist.Snapshot d)
    end.
    split; [apply run_observes; by_evaluation|].
    split; by_evaluation.
  - exists_value (run [of_Z 1000] [of_Z 3000; of_Z 3000; of_Z 7000]).
    match goal with |- exists s, _ /\ Dist.Snapshot ?d = _ /\ _ =>
      exists_value (Dist.Snapshot d)
    end.
    split; [apply run_observes; by_evaluation|].
    split; by_evaluation.
Qed.

End DistBinary64.

(** ** The distribution in exact arithmetic *)

Module DistExact.
Import DistSpec DistExactSpec.
Local Open Scope Q_scope.

Lemma ltb_true x y : Exact.ltb x y = true <-> x < y.
Proof.
  unfold Exact.ltb. rewrite negb_true_iff. split.
  - intros Hb. apply Qnot_le_lt. intros Hle.
    apply Qle_bool_iff in Hle. congruence.
  - intros Hlt. destruct (Qle_bool y x) eqn:Hb; auto.
    apply Qle_bool_iff in Hb. lra.
Qed.

Lemma ltb_false x y : Exact.ltb x y = false <-> y <= x.
Proof.
  unfold Exact.ltb. rewrite negb_false_iff. apply Qle_bool_iff.
Qed.

Lemma interpolate_between lo hi frac :
  lo <= hi -> 0 <= frac -> frac <= 1 ->
  lo <= Dist.interpolate lo hi frac /\ Dist.interpolate lo hi frac <= hi.
Proof.
  intros Hlh H0 H1. unfold Dist.interpolate. cbn. split; nra.
Qed.

Lemma interpolate_within mn mx lo hi frac :
  mn <= lo -> lo <= hi -> hi <= mx -> 0 <= frac -> frac <= 1 ->
  mn <= Dist.interpolate lo hi frac /\ Dist.interpolate lo hi frac <= mx.
Proof.
  intros Hmn Hlh Hmx H0 H1.
  destruct (interpolate_between lo hi frac Hlh H0 H1) as [Hi1 Hi2].
  split; [eapply Qle_trans; eauto | eapply Qle_trans; eauto].
Qed.

(** The walk over the counts stops inside them, on a bucket that is not
    empty, at a fraction between 0 and 1. *)
Lemma valueIndexToPiece_from_stops rest : forall pieceIdx start v,
  Forall (fun c => (0 <= c)%Z) rest ->
  0 <= v - start -> v - start < inject_Z (sum_counts rest) ->
  exists k c frac,
    Dist.valueIndexToPiece_from rest pieceIdx start v = Some ((pieceIdx + k)%nat, frac) /\
    rest !! k = Some c /\ (0 < c)%Z /\ 0 <= frac /\ frac <= 1.
Proof.
  induction rest as [|c rest IH]; intros pieceIdx start v Hpos H0 Hsum.
  - simpl in Hsum. change (inject_Z 0) with 0 in Hsum. lra.
  - inversion Hpos as [|? ? Hc Hrest]; subst.
    simpl in Hsum. rewrite inject_Z_plus in Hsum.
    cbn -[Qle_bool inject_Z Qminus Qplus Qdiv].
    destruct (Qle_bool (inject_Z c) (v - start)) eqn:Hge.
    + apply Qle_bool_iff in Hge.
      destruct (IH (S pieceIdx) (start + inject_Z c) v Hrest ltac:(lra) ltac:(lra))
        as (k & c' & frac & Hres & Hk & Hc' & Hf0 & Hf1).
      exists (S k), c', frac.
      rewrite Nat.add_succ_r. auto.
    + assert (Hlt : v - start < inject_Z c).
      { apply Qnot_le_lt. intros Hle. apply Qle_bool_iff in Hle. congruence. }
      assert (Hcq : 0 < inject_Z c) by lra.
      assert (Hcz : (0 < c)%Z).
      { unfold Qlt in Hcq. simpl in Hcq. lia. }
      exists 0%nat, c, ((v - start) / inject_Z c).
      rewrite Nat.add_0_r. split; [reflexivity|]. split; [reflexivity|].
      split; [exact Hcz|]. split.
      * apply Qle_shift_div_l; [exact Hcq|]. lra.
      * apply Qle_shift_div_r; [exact Hcq|]. lra.
Qed.

Lemma replicate_zero_lookup n i c :
  replicate n 0%Z !! i = Some c -> c = 0%Z.
Proof. intros Hc. apply lookup_replicate in Hc. tauto. Qed.

(** The extremes are ordered and every counted bucket is occupied. *)
Lemma observes_occupied es xs : forall d,
  observes es xs d ->
  (Z.of_nat (length es) < 2 ^ 63 - 1)%Z ->
  (Z.of_nat (length xs) < 2 ^ 64)%Z ->
  (xs <> [] -> Dist.min d <= Dist.max d) /\ occupied es d.
Proof.
  induction xs as [|x xs IH] using rev_ind; intros d Hobs Hes Hxs.
  - split; [congruence|].
    destruct Hobs as (b & _ & Hd). simpl in Hd. inversion Hd; subst d.
    intros i c Hc Hpos. simpl in Hc. apply replicate_zero_lookup in Hc. lia.
  - rewrite length_app in Hxs. simpl in Hxs.
    destruct (PiecesFacts.observes_snoc_inv es xs x d Hobs) as (d0 & Hobs0 & HAdd).
    destruct (PiecesFacts.observes_counted es xs d0 Hobs0 Hes ltac:(lia))
      as (Hc & Hps & Hne).
    destruct (IH d0 Hobs0 Hes ltac:(lia)) as (Hord & Hocc).
    destruct (DistFacts.Add_counted _ d0 x Hc ltac:(lia) ltac:(lia))
      as (c0 & Hc0 & HAdd' & _).
    rewrite HAdd in HAdd'. inversion HAdd'; subst d. clear HAdd'.
    rewrite Hps in *.
    destruct (PiecesFacts.findDistributionIndex_cuts es x Hne Hes) as (Hb & Hhi & Hlo).
    set (idx := Z.to_nat (Dist.findDistributionIndex (pieces_of es) x)) in *.
    assert (Hx_in : (forall e, es !! idx = Some e -> x < e) /\
                    (forall i' e, idx = S i' -> es !! i' = Some e -> e <= x)).
    { split.
      - intros e He. apply ltb_true. exact (Hhi e He).
      - intros i' e Hi He. apply ltb_false. exact (Hlo i' e Hi He). }
    destruct Hx_in as [Hx_hi Hx_lo].
    unfold Add_result, occupied. cbn [Dist.min Dist.max Dist.counts].
    destruct (Z.eqb_spec (Dist.count d0) 0) as [Hz|Hnz].
    + split; [intros _; lra|].
      intros i c Hi Hpos.
      destruct (decide (i = idx)) as [->|Hneq].
      * exists x. repeat split; auto; lra.
      * rewrite list_lookup_insert_ne in Hi by congruence.
        destruct Hc as [_ _ Hnonneg Hsum Hcount].
        pose proof (DistFacts.sum_counts_bound _ _ _ Hnonneg Hi). lia.
    + assert (Hxs' : xs <> []).
      { intros ->. destruct Hc as [_ _ _ _ Hcount]. simpl in Hcount. contradiction. }
      specialize (Hord Hxs').
      change (@f_lt Q Exact.ops) with Exact.ltb.
      assert (Hnew : (if Exact.ltb x (Dist.min d0) then x else Dist.min d0) <= Dist.min d0 /\
                     (if Exact.ltb x (Dist.min d0) then x else Dist.min d0) <= x /\
                     Dist.max d0 <=
                       (if Exact.ltb x (Dist.min d0) then Dist.max d0
                        else if Exact.ltb (Dist.max d0) x then x else Dist.max d0) /\
                     x <=
                       (if Exact.ltb x (Dist.min d0) then Dist.max d0
                        else if Exact.ltb (Dist.max d0) x then x else Dist.max d0)).
      { destruct (Exact.ltb x (Dist.min d0)) eqn:Hlt.
        - apply ltb_true in Hlt. repeat split; lra.
        - apply ltb_false in Hlt.
          destruct (Exact.ltb (Dist.max d0) x) eqn:Hgt.
          + apply ltb_true in Hgt. repeat split; lra.
          + apply ltb_false in Hgt. repeat split; lra. }
      destruct Hnew as (Hmin1 & Hmin2 & Hmax1 & Hmax2).
      split; [intros _; lra|].
      intros i c Hi Hpos.
      destruct (decide (i = idx)) as [->|Hneq].
      * exists x. repeat split; auto.
      * rewrite list_lookup_insert_ne in Hi by congruence.
        destruct (Hocc i c Hi Hpos) as (y & Hy1 & Hy2 & Hy3 & Hy4).
        exists y. repeat split; auto; lra.
Qed.

Lemma Min_bounds e mx x :
  x < e -> x <= mx ->
  x <= f_Min e mx /\ f_Min e mx <= mx.
Proof.
  intros He Hmx. cbn. destruct (Exact.ltb e mx) eqn:Hlt.
  - apply ltb_true in Hlt. split; lra.
  - split; lra.
Qed.

Lemma Max_bounds e mn x :
  e <= x -> mn <= x ->
  mn <= f_Max e mn /\ f_Max e mn <= x.
Proof.
  intros He Hmn. cbn. destruct (Exact.ltb mn e) eqn:Hlt.
  - apply ltb_true in Hlt. split; lra.
  - split; lra.
Qed.

(** The median lies between the observed extremes. *)
Lemma calculateMedian_between es xs d :
  observes es xs d ->
  (Z.of_nat (length es) < 2 ^ 63 - 1)%Z ->
  (Z.of_nat (length xs) < 2 ^ 64)%Z ->
  xs <> [] ->
  exists m, Dist.calculateMedian d = Some m /\
            Dist.min d <= m /\ m <= Dist.max d.
Proof.
  intros Hobs Hes Hxs Hne.
  destruct (PiecesFacts.observes_counted es xs d Hobs Hes Hxs) as (Hc & Hps & Hes_ne).
  destruct (observes_occupied es xs d Hobs Hes Hxs) as (Hord & Hocc).
  specialize (Hord Hne).
  destruct Hc as [Hlen Hpl Hnonneg Hsum Hcount].
  assert (Hn : (1 <= Dist.count d)%Z).
  { rewrite Hcount. destruct xs; [congruence|simpl; lia]. }
  unfold Dist.calculateMedian.
  destruct (Z.eqb_spec (Dist.count d) 1) as [H1|H1].
  { exists (Dist.min d). split; [reflexivity|]. lra. }
  unfold Dist.valueIndexToPiece.
  set (v := f_div (f_of_uint64 (wrap64 (Dist.count d - 1))) f_two).
  assert (Hv : v == inject_Z (Dist.count d - 1) / 2).
  { subst v. unfold wrap64. rewrite Z.mod_small by lia. reflexivity. }
  assert (Hv2 : v - f_neg_half == inject_Z (Dist.count d) / 2).
  { rewrite Hv. cbn. unfold Zminus. rewrite inject_Z_plus.
    change (inject_Z (- (1))) with (- (1)). field. }
  assert (Hcq : 2 <= inject_Z (Dist.count d)).
  { change 2 with (inject_Z 2). rewrite <- Zle_Qle. lia. }
  destruct (valueIndexToPiece_from_stops (Dist.counts d) 0%nat f_neg_half v Hnonneg)
    as (k & c & frac & Hres & Hk & Hcpos & Hf0 & Hf1).
  { rewrite Hv2. apply Qle_shift_div_l; lra. }
  { rewrite Hv2, Hsum, <- Hcount. apply Qlt_shift_div_r; lra. }
  rewrite Hres. cbn [mbind option_bind Nat.add]. simpl (0 + k)%nat.
  destruct (Hocc k c Hk Hcpos) as (x & Hx1 & Hx2 & Hx3 & Hx4).
  assert (Hklen : (k < S (length es))%nat).
  { apply lookup_lt_Some in Hk. rewrite Hlen, Hps in Hk.
    rewrite PiecesFacts.pieces_of_length in Hk by exact Hes_ne. exact Hk. }
  rewrite Hps. rewrite PiecesFacts.pieces_of_length by exact Hes_ne.
  replace (S (length es) - 1)%nat with (length es) by lia.
  destruct (Nat.eqb_spec k 0) as [->|Hk0].
  - destruct (lookup_lt_is_Some_2 es 0%nat) as [e He].
    { destruct es; [congruence|simpl; lia]. }
    destruct (PiecesFacts.pieces_of_End es 0%nat e He) as (p & Hp & HEnd).
    rewrite Hp. simpl. eexists. split; [reflexivity|].
    rewrite HEnd.
    destruct (Min_bounds e (Dist.max d) x (Hx3 e He) Hx2) as [Hm1 Hm2].
    exact (interpolate_within (Dist.min d) (Dist.max d)
             (Dist.min d) (f_Min e (Dist.max d)) frac
             (Qle_refl _) (Qle_trans _ _ _ Hx1 Hm1) Hm2 Hf0 Hf1).
  - destruct k as [|k']; [congruence|].
    destruct (lookup_lt_is_Some_2 es k') as [e He]; [lia|].
    destruct (PiecesFacts.pieces_of_Start es k' e He) as (p & Hp & HStart).
    destruct (Max_bounds e (Dist.min d) x (Hx4 k' e eq_refl He) Hx1) as [Hm1 Hm2].
    destruct (Nat.eqb_spec (S k') (length es)) as [Hlast|Hmid].
    + rewrite <- Hlast, Hp. simpl. eexists. split; [reflexivity|].
      rewrite HStart.
      exact (interpolate_within (Dist.min d) (Dist.max d)
               (f_Max e (Dist.min d)) (Dist.max d) frac
               Hm1 (Qle_trans _ _ _ Hm2 Hx2) (Qle_refl _) Hf0 Hf1).
    + rewrite Hp. simpl. eexists. split; [reflexivity|].
      rewrite HStart.
      destruct (lookup_lt_is_Some_2 es (S k')) as [e' He']; [lia|].
      destruct (PiecesFacts.pieces_of_End es (S k') e' He') as (p' & Hp' & HEnd).
      rewrite Hp in Hp'. inversion Hp'; subst p'. rewrite HEnd.
      destruct (Min_bounds e' (Dist.max d) x (Hx3 e' He') Hx2) as [Hn1 Hn2].
      exact (interpolate_within (Dist.min d) (Dist.max d)
               (f_Max e (Dist.min d)) (f_Min e' (Dist.max d)) frac
               Hm1 (Qle_trans _ _ _ Hm2 Hn1) Hn2 Hf0 Hf1).
Qed.

(** [Snapshot] returns on every distribution the package builds. *)
Lemma Snapshot_returns es xs d :
  observes es xs d ->
  (Z.of_nat (length es) < 2 ^ 63 - 1)%Z ->
  (Z.of_nat (length xs) < 2 ^ 64)%Z ->
  exists s, Dist.Snapshot d = Some s.
Proof.
  intros Hobs Hes Hxs.
  destruct (PiecesFacts.observes_counted es xs d Hobs Hes Hxs) as (Hc & _ & _).
  destruct xs as [|x0 xs'].
  - destruct Hc as [Hlen _ _ _ Hcount]. unfold Dist.Snapshot.
    destruct (DistFacts.fill_breakdown_total _ _ Hlen) as [bdn ->]. simpl.
    rewrite Hcount. simpl. eexists; reflexivity.
  - destruct (calculateMedian_between es (x0 :: xs') d Hobs Hes Hxs ltac:(congruence))
      as (m & Hm & _).
    eapply DistFacts.Snapshot_total; eauto.
Qed.

(** With exact arithmetic the clamping does what it is there for: the
    snapshot of a distribution with at least one and fewer than [2^64]
    observations exists and has [Min <= Median <= Max], whatever buckets
    the samples fall into.  What the program misses of this in float64, it
    misses by rounding. *)
Lemma Median_between_extremes es xs d :
  observes es xs d ->
  (Z.of_nat (length es) < 2 ^ 63 - 1)%Z ->
  (Z.of_nat (length xs) < 2 ^ 64)%Z ->
  xs <> [] ->
  exists s, Dist.Snapshot d = Some s /\ Median_claim s.
Proof.
  intros Hobs Hes Hxs Hne.
  destruct (Snapshot_returns es xs d Hobs Hes Hxs) as [s Hs].
  exists s. split; [exact Hs|].
  destruct (PiecesFacts.observes_counted es xs d Hobs Hes Hxs) as (Hc & _ & _).
  destruct (DistFacts.Snapshot_fields _ d s Hc Hs) as (_ & _ & _ & Hmm).
  destruct Hmm as (HMin & HMax & HMed).
  { destruct xs; [congruence|simpl; lia]. }
  destruct (calculateMedian_between es xs d Hobs Hes Hxs Hne) as (m & Hm & Hlo & Hhi).
  rewrite HMed in Hm. inversion Hm; subst m.
  unfold Median_claim. rewrite HMin, HMax. cbn.
  split; apply Qle_bool_iff; assumption.
Qed.

End DistExact.

(** ** The namespace *)

Module NamespaceFacts.
Import Path Namespace NamespaceSpec.

Lemma dirAt_app σ p : forall d q,
  dirAt σ d (p ++ q) = d' ← dirAt σ d p; dirAt σ d' q.
Proof.
  induction p as [|s p IH]; intros d q; simpl; [reflexivity|].
  destruct (child_dir σ d s) as [d'|]; simpl; auto.
Qed.

Lemma dirAt_snoc σ d p s :
  dirAt σ d (p ++ [s]) = d' ← dirAt σ d p; child_dir σ d' s.
Proof.
  rewrite dirAt_app. destruct (dirAt σ d p) as [d'|]; simpl; auto.
  destruct (child_dir σ d' s); reflexivity.
Qed.

Lemma child_Some σ d s e le :
  child σ d s = Some (e, le) <->
  exists dr, dirs σ !! d = Some dr /\ contents dr !! s = Some e /\
             entries σ !! e = Some le.
Proof.
  unfold child. split.
  - destruct (dirs σ !! d) as [dr|] eqn:Hd; simpl; [|discriminate].
    destruct (contents dr !! s) as [e'|] eqn:Hc; simpl; [|discriminate].
    destruct (entries σ !! e') as [le'|] eqn:He; simpl; [|discriminate].
    intros Heq. inversion Heq; subst. exists dr. auto.
  - intros (dr & -> & Hc & He). simpl. rewrite Hc. simpl. rewrite He. reflexivity.
Qed.

(** What [wf] says of a directory of the namespace and of its entries. *)
Lemma wf_child σ q d s :
  wf σ -> dirAt σ root q = Some d ->
  exists dr, dirs σ !! d = Some dr /\
    match contents dr !! s with
    | None => child σ d s = None
    | Some e =>
        exists le, child σ d s = Some (e, le) /\ entries σ !! e = Some le /\
                   Name le = s /\ segment s /\
                   parent le = enclosingListEntry dr /\ role σ e le
    end.
Proof.
  intros Hwf Hd.
  destruct (wf_dirs σ Hwf q d Hd) as [dr Hdr].
  exists dr. split; [exact Hdr|].
  destruct (contents dr !! s) as [e|] eqn:Hc.
  - destruct (wf_entry σ Hwf q d dr s e Hd Hdr Hc) as (le & Hle & Hrest).
    exists le. split; [|split; [exact Hle|exact Hrest]].
    apply child_Some. eauto.
  - unfold child. rewrite Hdr. simpl. rewrite Hc. reflexivity.
Qed.

(** How a link changes what is found under the root. *)
Section Links.
Variables (σ σ' : store) (q : pathSpec) (d : addr) (dr : directory)
          (name : string) (e : addr) (le : listEntry).
Hypothesis Hwf : wf σ.
Hypothesis Hq : dirAt σ root q = Some d.
Hypothesis Hlk : links σ σ' d dr name e le.

Lemma links_old_entry e0 le0 :
  entries σ !! e0 = Some le0 -> entries σ' !! e0 = Some le0.
Proof.
  intros He0. rewrite (lk_entries _ _ _ _ _ _ _ Hlk).
  rewrite lookup_insert_ne; [exact He0|].
  intros <-. rewrite (lk_fresh _ _ _ _ _ _ _ Hlk) in He0. discriminate.
Qed.

Lemma links_child p d0 s :
  dirAt σ root p = Some d0 ->
  child σ' d0 s = if decide (p = q /\ s = name) then Some (e, le) else child σ d0 s.
Proof.
  intros Hp.
  destruct (wf_child σ p d0 s Hwf Hp) as (dr0 & Hdr0 & Hc).
  destruct (decide (d0 = d)) as [->|Hne].
  - assert (p = q) by (eapply wf_inj; eauto). subst p.
    rewrite (lk_dr _ _ _ _ _ _ _ Hlk) in Hdr0. inversion Hdr0; subst dr0.
    unfold child at 1. rewrite (lk_d _ _ _ _ _ _ _ Hlk). simpl.
    destruct (decide (s = name)) as [->|Hs].
    + rewrite lookup_insert_eq. simpl.
      rewrite (lk_entries _ _ _ _ _ _ _ Hlk), lookup_insert_eq. simpl.
      destruct (decide (q = q /\ name = name)) as [_|Hn]; [reflexivity|tauto].
    + rewrite lookup_insert_ne by congruence.
      destruct (decide (q = q /\ s = name)) as [[_ ?]|_]; [contradiction|].
      destruct (contents dr !! s) as [e0|] eqn:Hcs; simpl.
      * destruct Hc as (le0 & Hch & He0 & _).
        rewrite (links_old_entry e0 le0 He0). simpl. rewrite Hch. reflexivity.
      * rewrite Hc. reflexivity.
  - destruct (decide (p = q /\ s = name)) as [[-> _]|_].
    { rewrite Hq in Hp. congruence. }
    unfold child at 1.
    rewrite (lk_dirs _ _ _ _ _ _ _ Hlk d0 Hne) by eauto.
    rewrite Hdr0. simpl.
    destruct (contents dr0 !! s) as [e0|] eqn:Hcs; simpl.
    + destruct Hc as (le0 & Hch & He0 & _).
      rewrite (links_old_entry e0 le0 He0). simpl. rewrite Hch. reflexivity.
    + rewrite Hc. reflexivity.
Qed.

Lemma links_unbound : child σ d name = None.
Proof.
  unfold child. rewrite (lk_dr _ _ _ _ _ _ _ Hlk). simpl.
  rewrite (lk_free _ _ _ _ _ _ _ Hlk). reflexivity.
Qed.

Lemma links_new_dir_empty a s :
  Directory le = Some a -> child σ' a s = None.
Proof.
  intros Ha. pose proof (lk_role _ _ _ _ _ _ _ Hlk) as Hr. rewrite Ha in Hr.
  destruct (Metric le); [contradiction|]. destruct Hr as [_ Hr].
  unfold child. rewrite Hr. simpl. rewrite lookup_empty. reflexivity.
Qed.

Lemma links_dirAt p :
  dirAt σ' root p =
  if decide (p = q ++ [name]) then Directory le else dirAt σ root p.
Proof.
  induction p as [|s p IH] using rev_ind.
  - simpl. case_decide as Heq; [|reflexivity].
    destruct q; discriminate.
  - rewrite !dirAt_snoc, IH.
    case_decide as Hp.
    + subst p. case_decide as Heq.
      { apply (f_equal length) in Heq. rewrite !length_app in Heq. simpl in Heq. lia. }
      assert (Hnone : child_dir σ d name = None).
      { unfold child_dir. rewrite links_unbound. reflexivity. }
      rewrite dirAt_snoc, Hq. simpl. rewrite Hnone. simpl.
      destruct (Directory le) as [a|] eqn:Ha; simpl; [|reflexivity].
      unfold child_dir. rewrite (links_new_dir_empty a s Ha). reflexivity.
    + destruct (dirAt σ root p) as [d0|] eqn:Hd0; simpl.
      2:{ case_decide as Heq; [|reflexivity].
          apply app_inj_tail in Heq. destruct Heq as [-> _].
          rewrite Hq in Hd0. discriminate. }
      unfold child_dir. rewrite (links_child p d0 s Hd0).
      case_decide as Hn.
      * destruct Hn as [-> ->]. case_decide; [reflexivity|congruence].
      * case_decide as Heq; [|reflexivity].
        apply app_inj_tail in Heq. tauto.
Qed.

Lemma links_not_yet : dirAt σ root (q ++ [name]) = None.
Proof.
  rewrite dirAt_snoc, Hq. simpl. unfold child_dir. rewrite links_unbound. reflexivity.
Qed.

Lemma links_dirAt_old p d0 :
  dirAt σ root p = Some d0 -> dirAt σ' root p = Some d0.
Proof.
  intros Hp. rewrite links_dirAt. case_decide as Heq; [|exact Hp].
  subst p. rewrite links_not_yet in Hp. discriminate.
Qed.

Lemma links_dirAt_inv p d0 :
  dirAt σ' root p = Some d0 ->
  (p = q ++ [name] /\ Directory le = Some d0) \/
  (p <> q ++ [name] /\ dirAt σ root p = Some d0).
Proof.
  rewrite links_dirAt. case_decide; auto.
Qed.

Lemma links_old_dir a dra :
  dirs σ !! a = Some dra ->
  exists dra', dirs σ' !! a = Some dra' /\
    enclosingListEntry dra' = enclosingListEntry dra /\
    forall s, contents dra' !! s =
              if decide (a = d /\ s = name) then Some e else contents dra !! s.
Proof.
  intros Ha. destruct (decide (a = d)) as [->|Hne].
  - rewrite (lk_dr _ _ _ _ _ _ _ Hlk) in Ha. inversion Ha; subst dra.
    eexists. split; [exact (lk_d _ _ _ _ _ _ _ Hlk)|]. split; [reflexivity|].
    intros s. simpl. case_decide as Hs.
    + destruct Hs as [_ ->]. apply lookup_insert_eq.
    + apply lookup_insert_ne. intros <-. tauto.
  - exists dra. split.
    + rewrite (lk_dirs _ _ _ _ _ _ _ Hlk a Hne) by eauto. exact Ha.
    + split; [reflexivity|]. intros s. case_decide as Hs; [tauto|reflexivity].
Qed.

Lemma links_role e0 le0 : role σ e0 le0 -> role σ' e0 le0.
Proof.
  unfold role. destruct (Directory le0) as [d0|], (Metric le0) as [m0|]; auto.
  - intros (dr0 & Hdr0 & Hencl).
    destruct (links_old_dir d0 dr0 Hdr0) as (dr0' & Hdr0' & Hencl' & _).
    exists dr0'. split; [exact Hdr0'|congruence].
  - intros (mr & Hmr & Hencl). exists mr. split; [|exact Hencl].
    apply (lk_metrics _ _ _ _ _ _ _ Hlk); [exact Hmr|]. rewrite Hencl. eauto.
Qed.

Lemma links_new_role : role σ' e le.
Proof.
  pose proof (lk_role _ _ _ _ _ _ _ Hlk) as Hr. unfold role.
  destruct (Directory le) as [a|], (Metric le) as [m|]; auto.
  destruct Hr as [_ Hr]. eexists. split; [exact Hr|reflexivity].
Qed.

Lemma links_wf : wf σ'.
Proof.
  constructor.
  - destruct (wf_root σ Hwf) as (dr0 & Hdr0 & Hencl).
    destruct (links_old_dir root dr0 Hdr0) as (dr0' & Hdr0' & Hencl' & _).
    exists dr0'. split; [exact Hdr0'|congruence].
  - intros p d0 Hp. destruct (links_dirAt_inv p d0 Hp) as [[_ Hnew]|[_ Hold]].
    + pose proof (lk_role _ _ _ _ _ _ _ Hlk) as Hr. rewrite Hnew in Hr.
      destruct (Metric le); [contradiction|]. destruct Hr as [_ Hr]. eauto.
    + destruct (wf_dirs σ Hwf p d0 Hold) as [dr0 Hdr0].
      destruct (links_old_dir d0 dr0 Hdr0) as (dr0' & Hdr0' & _). eauto.
  - intros p d0 dr0' s e0 Hp Hdr0' Hc.
    destruct (links_dirAt_inv p d0 Hp) as [[_ Hnew]|[_ Hold]].
    + pose proof (lk_role _ _ _ _ _ _ _ Hlk) as Hr. rewrite Hnew in Hr.
      destruct (Metric le); [contradiction|]. destruct Hr as [_ Hr].
      rewrite Hr in Hdr0'. inversion Hdr0'; subst dr0'. simpl in Hc.
      rewrite lookup_empty in Hc. discriminate.
    + destruct (wf_child σ p d0 s Hwf Hold) as (dr0 & Hdr0 & Hch).
      destruct (links_old_dir d0 dr0 Hdr0) as (dr0'' & Hdr0'' & Hencl & Hcont).
      rewrite Hdr0' in Hdr0''. inversion Hdr0''; subst dr0''. clear Hdr0''.
      rewrite Hcont in Hc. case_decide as Hs.
      * destruct Hs as [-> ->]. inversion Hc; subst e0.
        rewrite (lk_dr _ _ _ _ _ _ _ Hlk) in Hdr0. inversion Hdr0; subst dr0.
        exists le. split.
        { rewrite (lk_entries _ _ _ _ _ _ _ Hlk). apply lookup_insert_eq. }
        split; [exact (lk_Name _ _ _ _ _ _ _ Hlk)|].
        split; [exact (lk_segment _ _ _ _ _ _ _ Hlk)|].
        split; [rewrite Hencl; exact (lk_parent _ _ _ _ _ _ _ Hlk)|].
        exact links_new_role.
      * rewrite Hc in Hch. destruct Hch as (le0 & _ & He0 & HName & Hseg & Hpar & Hrole).
        exists le0. split; [apply links_old_entry; exact He0|].
        split; [exact HName|]. split; [exact Hseg|].
        split; [congruence|]. apply links_role. exact Hrole.
  - intros p1 p2 d0 Hp1 Hp2.
    assert (Hfresh : forall p, Directory le = Some d0 -> dirAt σ root p = Some d0 -> False).
    { intros p Hnew Hold.
      pose proof (lk_role _ _ _ _ _ _ _ Hlk) as Hr. rewrite Hnew in Hr.
      destruct (Metric le); [contradiction|]. destruct Hr as [Hr _].
      destruct (wf_dirs σ Hwf p d0 Hold) as [x Hx]. congruence. }
    destruct (links_dirAt_inv p1 d0 Hp1) as [[-> Hn1]|[_ Ho1]],
             (links_dirAt_inv p2 d0 Hp2) as [[-> Hn2]|[_ Ho2]]; auto.
    + exfalso. eauto.
    + exfalso. eauto.
    + eapply wf_inj; eauto.
  - destruct (wf_depth σ Hwf) as [n Hn]. exists (S n). intros p d0 Hp.
    destruct (links_dirAt_inv p d0 Hp) as [[-> _]|[_ Hold]].
    + rewrite length_app. simpl. specialize (Hn q d Hq). lia.
    + specialize (Hn p d0 Hold). lia.
Qed.

End Links.

(** *** The initial store *)

Lemma init_child d s : child init d s = None.
Proof.
  unfold child, init. simpl.
  destruct (decide (d = root)) as [->|Hne].
  - rewrite lookup_singleton_eq. simpl. rewrite lookup_empty. reflexivity.
  - rewrite lookup_singleton_ne by congruence. reflexivity.
Qed.

Lemma init_dirAt q d : dirAt init root q = Some d -> q = [] /\ d = root.
Proof.
  destruct q as [|s q]; simpl.
  - intros Heq. inversion Heq. auto.
  - unfold child_dir. rewrite init_child. discriminate.
Qed.

Lemma init_wf : wf init.
Proof.
  constructor.
  - eexists. split; [apply lookup_singleton_eq|reflexivity].
  - intros q d Hq. apply init_dirAt in Hq as [-> ->].
    unfold init. simpl. rewrite lookup_singleton_eq. eauto.
  - intros q d dr s e Hq Hdr Hc. apply init_dirAt in Hq as [-> ->].
    unfold init in Hdr. simpl in Hdr. rewrite lookup_singleton_eq in Hdr.
    inversion Hdr; subst dr. simpl in Hc. rewrite lookup_empty in Hc. discriminate.
  - intros q1 q2 d H1 H2. apply init_dirAt in H1 as [-> _].
    apply init_dirAt in H2 as [-> _]. reflexivity.
  - exists 0. intros q d Hq. apply init_dirAt in Hq as [-> _]. simpl. lia.
Qed.

(** *** Running the code *)

Lemma bind_Ok {A B} (c : M A) (k : A -> M B) σ a σ1 :
  c σ = Ok a σ1 -> bind c k σ = k a σ1.
Proof. unfold bind. intros ->. reflexivity. Qed.

Lemma bind_lift_Some {A B} (a : A) (k : A -> M B) σ :
  bind (lift (Some a)) k σ = k a σ.
Proof. reflexivity. Qed.

Lemma bind_lift_None {A B} (k : A -> M B) σ :
  bind (lift None) k σ = Panic σ.
Proof. reflexivity. Qed.

Lemma get_dir_Ok σ d dr : dirs σ !! d = Some dr -> get_dir d σ = Ok dr σ.
Proof. unfold get_dir. intros ->. reflexivity. Qed.

Lemma get_entry_Ok σ e le : entries σ !! e = Some le -> get_entry e σ = Ok le σ.
Proof. unfold get_entry. intros ->. reflexivity. Qed.

Lemma get_metric_Ok σ m mr : metrics σ !! m = Some mr -> get_metric m σ = Ok mr σ.
Proof. unfold get_metric. intros ->. reflexivity. Qed.

Lemma fresh_dir σ : dirs σ !! fresh (dom (dirs σ)) = None.
Proof. apply not_elem_of_dom. apply is_fresh. Qed.

Lemma fresh_entry σ : entries σ !! fresh (dom (entries σ)) = None.
Proof. apply not_elem_of_dom. apply is_fresh. Qed.

Lemma fresh_metric σ : metrics σ !! fresh (dom (metrics σ)) = None.
Proof. apply not_elem_of_dom. apply is_fresh. Qed.

(** [createDirIfNeeded] on a directory of the namespace. *)
Lemma createDirIfNeeded_new σ q d name :
  wf σ -> dirAt σ root q = Some d -> segment name ->
  child σ d name = None ->
  exists a e dr σ',
    createDirIfNeeded d name σ = Ok (Some a, None) σ' /\
    links σ σ' d dr name e
      {| Name := name; Metric := None; Directory := Some a;
         parent := enclosingListEntry dr |} /\
    metrics σ' = metrics σ.
Proof.
  intros Hwf Hq Hseg Hch.
  destruct (wf_child σ q d name Hwf Hq) as (dr & Hdr & Hc).
  destruct (contents dr !! name) as [e0|] eqn:Hcn.
  { destruct Hc as (le0 & Hch' & _). congruence. }
  set (a := fresh (dom (dirs σ))).
  set (e := fresh (dom (entries σ))).
  assert (Ha : dirs σ !! a = None) by apply fresh_dir.
  assert (Hne : d <> a) by congruence.
  exists a, e, dr. eexists. split; [|split].
  - unfold createDirIfNeeded.
    rewrite (bind_Ok _ _ σ dr σ (get_dir_Ok σ d dr Hdr)). rewrite Hcn.
    unfold newDirectory, new_dir, new_entry, bind at 1. fold a. simpl.
    unfold bind at 1. simpl. fold e.
    unfold bind at 1, get_dir at 1. simpl. rewrite lookup_insert_eq. simpl.
    unfold bind at 1, put_dir at 1. simpl.
    unfold bind at 1, get_dir at 1. simpl.
    rewrite lookup_insert_ne by congruence.
    rewrite lookup_insert_ne by congruence. rewrite Hdr. simpl.
    unfold bind, put_dir, ret. simpl. reflexivity.
  - constructor; simpl; auto.
    + apply lookup_insert_eq.
    + intros a0 Ha0 [x Hx]. rewrite lookup_insert_ne by congruence.
      rewrite !lookup_insert_ne by congruence. reflexivity.
    + apply fresh_entry.
    + split; [exact Ha|]. rewrite lookup_insert_ne by congruence.
      rewrite lookup_insert_eq. reflexivity.
  - reflexivity.
Qed.

Lemma createDirIfNeeded_old σ q d name e le :
  wf σ -> dirAt σ root q = Some d ->
  child σ d name = Some (e, le) ->
  createDirIfNeeded d name σ =
  Ok (match Directory le with
      | Some dir => (Some dir, None)
      | None => (None, Some ErrPathInUse)
      end) σ.
Proof.
  intros Hwf Hq Hch. apply child_Some in Hch as (dr & Hdr & Hc & He).
  unfold createDirIfNeeded.
  rewrite (bind_Ok _ _ σ dr σ (get_dir_Ok σ d dr Hdr)). rewrite Hc.
  rewrite (bind_Ok _ _ σ le σ (get_entry_Ok σ e le He)).
  destruct (Directory le); reflexivity.
Qed.

(** [storeMetric] of a metric that is not attached yet. *)
Lemma storeMetric_new σ q d name m mr :
  wf σ -> dirAt σ root q = Some d -> segment name ->
  metrics σ !! m = Some mr -> metric_enclosingListEntry mr = None ->
  child σ d name = None ->
  exists e dr σ',
    storeMetric d name m σ = Ok None σ' /\
    links σ σ' d dr name e
      {| Name := name; Metric := Some m; Directory := None;
         parent := enclosingListEntry dr |} /\
    metrics σ' !! m =
      Some {| Description := Description mr; Unit_ := Unit_ mr; Value := Value mr;
              metric_enclosingListEntry := Some e |}.
Proof.
  intros Hwf Hq Hseg Hm Hencl Hch.
  destruct (wf_child σ q d name Hwf Hq) as (dr & Hdr & Hc).
  destruct (contents dr !! name) as [e0|] eqn:Hcn.
  { destruct Hc as (le0 & Hch' & _). congruence. }
  set (e := fresh (dom (entries σ))).
  exists e, dr. eexists. split; [|split].
  - unfold storeMetric.
    rewrite (bind_Ok _ _ σ dr σ (get_dir_Ok σ d dr Hdr)). rewrite Hcn.
    unfold new_entry, bind at 1. fold e. simpl.
    unfold bind at 1, get_metric at 1. simpl. rewrite Hm. simpl.
    unfold bind at 1, put_metric at 1. simpl.
    unfold bind at 1, get_dir at 1. simpl. rewrite Hdr. simpl.
    unfold bind, put_dir, ret. simpl. reflexivity.
  - constructor; simpl; auto.
    + apply lookup_insert_eq.
    + intros a0 Ha0 _. apply lookup_insert_ne. congruence.
    + apply fresh_entry.
    + intros m0 mr0 Hm0 [x Hx]. rewrite lookup_insert_ne; [exact Hm0|].
      intros <-. rewrite Hm in Hm0. inversion Hm0; subst mr0. congruence.
    + eexists. split; [apply lookup_insert_eq|reflexivity].
  - simpl. apply lookup_insert_eq.
Qed.

Lemma storeMetric_old σ q d name m c :
  wf σ -> dirAt σ root q = Some d ->
  child σ d name = Some c ->
  storeMetric d name m σ = Ok (Some ErrPathInUse) σ.
Proof.
  intros Hwf Hq Hch. destruct c as [e le].
  apply child_Some in Hch as (dr & Hdr & Hc & He).
  unfold storeMetric.
  rewrite (bind_Ok _ _ σ dr σ (get_dir_Ok σ d dr Hdr)). rewrite Hc. reflexivity.
Qed.

(** *** Bindings *)

Lemma removelast_snoc {A} (p : list A) s : removelast (p ++ [s]) = p.
Proof. apply removelast_last. Qed.

Lemma resolve_snoc σ d p s :
  resolve σ d (p ++ [s]) =
  d' ← dirAt σ d p; c ← child σ d' s; binding_of (snd c).
Proof.
  unfold resolve. destruct (p ++ [s]) eqn:Hp; [destruct p; discriminate|].
  rewrite <- Hp, removelast_snoc, last_snoc. simpl.
  destruct (dirAt σ d p); reflexivity.
Qed.

Lemma resolve_directory σ d p d' :
  resolve σ d p = Some (BoundDirectory d') <-> dirAt σ d p = Some d'.
Proof.
  induction p as [|s p _] using rev_ind.
  - simpl. split; congruence.
  - rewrite resolve_snoc, dirAt_snoc.
    destruct (dirAt σ d p) as [d1|]; simpl; [|split; discriminate].
    unfold child_dir. destruct (child σ d1 s) as [[e le]|]; simpl; [|split; discriminate].
    unfold binding_of. destruct (Directory le), (Metric le); split; congruence.
Qed.

Lemma extends_refl σ : extends σ σ.
Proof. repeat split; auto. Qed.

Lemma extends_trans σ1 σ2 σ3 : extends σ1 σ2 -> extends σ2 σ3 -> extends σ1 σ3.
Proof.
  intros (Hd1 & Hc1 & Hm1) (Hd2 & Hc2 & Hm2). repeat split.
  - auto.
  - intros p d s c Hp Hc. eapply Hc2; eauto.
  - auto.
Qed.

Lemma extends_resolve σ σ' p b :
  extends σ σ' -> resolve σ root p = Some b -> resolve σ' root p = Some b.
Proof.
  intros (Hd & Hc & _). induction p as [|s p _] using rev_ind; [auto|].
  rewrite !resolve_snoc.
  destruct (dirAt σ root p) as [d1|] eqn:Hd1; simpl; [|discriminate].
  rewrite (Hd p d1 Hd1). simpl.
  destruct (child σ d1 s) as [c|] eqn:Hch; simpl; [|discriminate].
  rewrite (Hc p d1 s c Hd1 Hch). auto.
Qed.

Lemma links_extends σ σ' q d dr name e le :
  wf σ -> dirAt σ root q = Some d -> links σ σ' d dr name e le -> extends σ σ'.
Proof.
  intros Hwf Hq Hlk. repeat split.
  - intros p d0. apply (links_dirAt_old σ σ' q d dr name e le Hwf Hq Hlk).
  - intros p d0 s c Hp Hc.
    rewrite (links_child σ σ' q d dr name e le Hwf Hq Hlk p d0 s Hp).
    case_decide as Hn; [|exact Hc].
    destruct Hn as [-> ->]. rewrite Hq in Hp. inversion Hp; subst d0.
    rewrite (links_unbound σ σ' d dr name e le Hlk) in Hc. discriminate.
  - apply (lk_metrics _ _ _ _ _ _ _ Hlk).
Qed.

Lemma binding_of_metric le m :
  binding_of le = Some (BoundMetric m) <-> Directory le = None /\ Metric le = Some m.
Proof.
  unfold binding_of. destruct (Directory le), (Metric le); split;
    try congruence; try (intros [? ?]; congruence).
  intros Heq. inversion Heq. auto.
Qed.

Lemma metric_on_walk_cons σ d s path :
  metric_on_walk σ d (s :: path) <->
  (exists c m, child σ d s = Some c /\ binding_of (snd c) = Some (BoundMetric m)) \/
  (exists d', child_dir σ d s = Some d' /\ metric_on_walk σ d' path).
Proof.
  split.
  - intros (p1 & s' & p2 & m & Hpath & Hres).
    rewrite resolve_snoc in Hres. destruct p1 as [|s1 p1]; simpl in *.
    + inversion Hpath; subst. left.
      destruct (child σ d s') as [c|]; simpl in Hres; [|discriminate]. eauto.
    + inversion Hpath; subst. right.
      destruct (child_dir σ d s1) as [d'|]; simpl in Hres; [|discriminate].
      exists d'. split; [reflexivity|].
      exists p1, s', p2, m. split; [reflexivity|]. rewrite resolve_snoc. exact Hres.
  - intros [(c & m & Hc & Hb)|(d' & Hd' & p1 & s' & p2 & m & Hpath & Hres)].
    + exists [], s, path, m. split; [reflexivity|].
      rewrite resolve_snoc. simpl. rewrite Hc. exact Hb.
    + exists (s :: p1), s', p2, m. split; [simpl; congruence|].
      rewrite resolve_snoc in *. simpl. rewrite Hd'. exact Hres.
Qed.

Lemma metric_on_walk_nil σ d : ~ metric_on_walk σ d [].
Proof. intros (p1 & s & p2 & m & Hpath & _). destruct p1; discriminate. Qed.

Lemma metric_on_walk_empty σ d path :
  (forall s, child σ d s = None) -> ~ metric_on_walk σ d path.
Proof.
  intros Hempty. destruct path as [|s path]; [apply metric_on_walk_nil|].
  rewrite metric_on_walk_cons. intros [(c & m & Hc & _)|(d' & Hd' & _)].
  - rewrite Hempty in Hc. discriminate.
  - unfold child_dir in Hd'. rewrite Hempty in Hd'. discriminate.
Qed.

Lemma dirAt_empty σ d path :
  (forall s, child σ d s = None) -> path <> [] -> dirAt σ d path = None.
Proof.
  intros Hempty Hne. destruct path as [|s path]; [congruence|].
  simpl. unfold child_dir. rewrite Hempty. reflexivity.
Qed.

(** *** registerDirectory *)

Lemma registerDirectory_spec path : forall σ q d,
  wf σ -> dirAt σ root q = Some d -> Forall segment path ->
  (metric_on_walk σ d path /\
   registerDirectory d path σ = Ok (None, Some ErrPathInUse) σ) \/
  (~ metric_on_walk σ d path /\
   exists r σ',
     registerDirectory d path σ = Ok (Some r, None) σ' /\
     wf σ' /\ dirAt σ' root (q ++ path) = Some r /\ extends σ σ' /\
     (forall r0, dirAt σ d path = Some r0 -> σ' = σ) /\
     (dirAt σ d path = None -> forall s, child σ' r s = None)).
Proof.
  induction path as [|s path IH]; intros σ q d Hwf Hq Hseg.
  - right. split; [apply metric_on_walk_nil|].
    exists d, σ. rewrite app_nil_r. simpl.
    split; [reflexivity|]. split; [exact Hwf|]. split; [exact Hq|].
    split; [apply extends_refl|]. split; [reflexivity|discriminate].
  - inversion Hseg as [|? ? Hs Hrest]; subst.
    destruct (child σ d s) as [[e le]|] eqn:Hch.
    + (* the name is taken *)
      pose proof (createDirIfNeeded_old σ q d s e le Hwf Hq Hch) as Hcreate.
      destruct (Directory le) as [d'|] eqn:Hdir.
      * assert (Hd' : child_dir σ d s = Some d').
        { unfold child_dir. rewrite Hch. exact Hdir. }
        assert (Hq' : dirAt σ root (q ++ [s]) = Some d').
        { rewrite dirAt_snoc, Hq. exact Hd'. }
        assert (Hiff : metric_on_walk σ d (s :: path) <-> metric_on_walk σ d' path).
        { rewrite metric_on_walk_cons. split.
          - intros [(c & m & Hc & Hb)|(d'' & Hd'' & Hw)].
            + rewrite Hch in Hc. inversion Hc; subst c.
              apply binding_of_metric in Hb as [Hb _]. simpl in Hb. congruence.
            + congruence.
          - intros Hw. right. eauto. }
        simpl. rewrite (bind_Ok _ _ _ _ _ Hcreate). simpl.
        destruct (IH σ (q ++ [s]) d' Hwf Hq' Hrest)
          as [[Hw Hreg]|(Hw & r & σ' & Hreg & Hwf' & Hr & Hext & Hsame & Hnew)].
        { left. split; [apply Hiff; exact Hw|exact Hreg]. }
        right. split; [rewrite Hiff; exact Hw|].
        exists r, σ'. split; [exact Hreg|]. split; [exact Hwf'|].
        split; [rewrite <- app_assoc in Hr; exact Hr|]. split; [exact Hext|].
        rewrite Hd'. simpl. auto.
      * left. split.
        { apply metric_on_walk_cons. left.
          destruct (wf_child σ q d s Hwf Hq) as (dr & Hdr & Hc).
          apply child_Some in Hch as (dr0 & Hdr0 & Hc0 & He0).
          rewrite Hdr in Hdr0. inversion Hdr0; subst dr0. rewrite Hc0 in Hc.
          destruct Hc as (le0 & _ & He0' & _ & _ & _ & Hrole).
          rewrite He0 in He0'. inversion He0'; subst le0.
          unfold role in Hrole. rewrite Hdir in Hrole.
          destruct (Metric le) as [m|] eqn:Hm; [|contradiction].
          exists (e, le), m. split.
          - apply child_Some. eauto.
          - apply binding_of_metric. auto. }
        simpl. rewrite (bind_Ok _ _ _ _ _ Hcreate). reflexivity.
    + (* the name is free: a directory is made *)
      destruct (createDirIfNeeded_new σ q d s Hwf Hq Hs Hch)
        as (a & e & dr & σ1 & Hcreate & Hlk & _).
      pose proof (links_wf σ σ1 q d dr s e _ Hwf Hq Hlk) as Hwf1.
      pose proof (links_extends σ σ1 q d dr s e _ Hwf Hq Hlk) as Hext1.
      assert (Hq1 : dirAt σ1 root (q ++ [s]) = Some a).
      { rewrite (links_dirAt σ σ1 q d dr s e _ Hwf Hq Hlk).
        case_decide; [reflexivity|congruence]. }
      assert (Hempty : forall s', child σ1 a s' = None).
      { intros s'. exact (links_new_dir_empty σ σ1 d dr s e _ Hlk a s' eq_refl). }
      assert (Hnone : child_dir σ d s = None).
      { unfold child_dir. rewrite Hch. reflexivity. }
      right. split.
      { rewrite metric_on_walk_cons. intros [(c & m & Hc & _)|(d' & Hd' & _)]; congruence. }
      simpl. rewrite (bind_Ok _ _ _ _ _ Hcreate). simpl.
      destruct (IH σ1 (q ++ [s]) a Hwf1 Hq1 Hrest)
        as [[Hw _]|(_ & r & σ' & Hreg & Hwf' & Hr & Hext & Hsame & Hnew)].
      { exfalso. eapply metric_on_walk_empty; eauto. }
      exists r, σ'. split; [exact Hreg|]. split; [exact Hwf'|].
      split; [rewrite <- app_assoc in Hr; exact Hr|].
      split; [eapply extends_trans; eauto|].
      rewrite Hnone. simpl. split; [discriminate|]. intros _.
      destruct path as [|s2 path].
      * simpl in Hsame. rewrite (Hsame a eq_refl) in *.
        rewrite app_nil_r in Hr. rewrite Hq1 in Hr. inversion Hr; subst r.
        exact Hempty.
      * apply Hnew. apply dirAt_empty; [exact Hempty|discriminate].
Qed.

(** *** Stores with the same directories and entries *)

Lemma child_same σ σ2 d s :
  dirs σ2 = dirs σ -> entries σ2 = entries σ -> child σ2 d s = child σ d s.
Proof. unfold child. intros -> ->. reflexivity. Qed.

Lemma dirAt_same σ σ2 p : forall d,
  dirs σ2 = dirs σ -> entries σ2 = entries σ -> dirAt σ2 d p = dirAt σ d p.
Proof.
  induction p as [|s p IH]; intros d Hd He; simpl; [reflexivity|].
  unfold child_dir. rewrite (child_same σ σ2 d s Hd He).
  destruct (child σ d s) as [c|]; simpl; [|reflexivity].
  destruct (Directory (snd c)); simpl; auto.
Qed.

Lemma wf_same_structure σ σ2 :
  dirs σ2 = dirs σ -> entries σ2 = entries σ ->
  (forall m mr, metrics σ !! m = Some mr -> metrics σ2 !! m = Some mr) ->
  wf σ -> wf σ2 /\ extends σ σ2.
Proof.
  intros Hd He Hm Hwf. split.
  - constructor.
    + rewrite Hd. apply (wf_root σ Hwf).
    + intros q d. rewrite (dirAt_same σ σ2 q root Hd He), Hd. apply (wf_dirs σ Hwf).
    + intros q d dr s e. rewrite (dirAt_same σ σ2 q root Hd He), Hd, He.
      intros Hq Hdr Hc.
      destruct (wf_entry σ Hwf q d dr s e Hq Hdr Hc) as (le & Hle & HN & Hs & Hp & Hr).
      exists le. split; [exact Hle|]. split; [exact HN|]. split; [exact Hs|].
      split; [exact Hp|].
      unfold role in *.
      destruct (Directory le), (Metric le); auto.
      * rewrite Hd. exact Hr.
      * destruct Hr as (mr & Hmr & Hencl). eauto.
    + intros q1 q2 d. rewrite !(dirAt_same σ σ2 _ root Hd He). apply (wf_inj σ Hwf).
    + destruct (wf_depth σ Hwf) as [n Hn]. exists n. intros q d.
      rewrite (dirAt_same σ σ2 q root Hd He). apply Hn.
  - repeat split.
    + intros p d. rewrite (dirAt_same σ σ2 p root Hd He). auto.
    + intros p d s c _. rewrite (child_same σ σ2 d s Hd He). auto.
    + intros m mr Hmr _. auto.
Qed.

Lemma path_snoc (p : pathSpec) :
  p <> [] ->
  exists dp base, p = dp ++ [base] /\ Dir p = Some dp /\ Base p = Some base /\
                  Empty p = false.
Proof.
  intros Hne. destruct (exists_last Hne) as (dp & base & ->).
  exists dp, base. split; [reflexivity|].
  unfold Dir, Base. rewrite removelast_snoc, last_snoc.
  destruct dp; simpl; auto.
Qed.

Lemma resolve_app σ d0 q d p :
  dirAt σ d0 q = Some d -> resolve σ d0 (q ++ p) = resolve σ d p.
Proof.
  intros Hq. induction p as [|s p _] using rev_ind.
  - rewrite app_nil_r. simpl. apply resolve_directory. exact Hq.
  - rewrite app_assoc, !resolve_snoc, dirAt_app, Hq. reflexivity.
Qed.

(** *** registerMetric *)

(** Every way a call of [registerMetric] on a directory of the namespace
    can go. *)
Lemma registerMetric_spec σ q d path spec unit description :
  wf σ -> dirAt σ root q = Some d -> Forall segment path ->
  (path = [] /\
   registerMetric d path spec unit description σ = Ok (Some ErrPathInUse) σ) \/
  (exists dp base, path = dp ++ [base] /\
     ((metric_on_walk σ d dp /\
       registerMetric d path spec unit description σ = Ok (Some ErrPathInUse) σ) \/
      (~ metric_on_walk σ d dp /\
       exists r σ1,
         registerDirectory d dp σ = Ok (Some r, None) σ1 /\
         wf σ1 /\ extends σ σ1 /\ dirAt σ1 root (q ++ dp) = Some r /\
         ((newValue spec = None /\
           registerMetric d path spec unit description σ = Panic σ1) \/
          (exists v c σ2,
             newValue spec = Some v /\ child σ1 r base = Some c /\ σ1 = σ /\
             registerMetric d path spec unit description σ =
               Ok (Some ErrPathInUse) σ2 /\
             dirs σ2 = dirs σ /\ entries σ2 = entries σ /\
             wf σ2 /\ extends σ σ2) \/
          (exists v m e σ3,
             newValue spec = Some v /\ child σ1 r base = None /\
             registerMetric d path spec unit description σ = Ok None σ3 /\
             wf σ3 /\ extends σ σ3 /\ dirAt σ3 root (q ++ dp) = Some r /\
             (exists le, child σ3 r base = Some (e, le) /\
                         Metric le = Some m /\ Directory le = None) /\
             metrics σ3 !! m =
               Some {| Description := description; Unit_ := unit; Value := v;
                       metric_enclosingListEntry := Some e |}))))).
Proof.
  intros Hwf Hq Hseg.
  destruct path as [|s0 path0] eqn:Hpath; [left; auto|]. right.
  rewrite <- Hpath in *.
  destruct (path_snoc path ltac:(subst; discriminate))
    as (dp & base & Hsnoc & HDir & HBase & HEmpty).
  exists dp, base. split; [exact Hsnoc|].
  assert (Hsegs : Forall segment dp /\ segment base).
  { rewrite Hsnoc in Hseg. apply Forall_app in Hseg as [H1 H2].
    split; [exact H1|]. inversion H2; auto. }
  destruct Hsegs as [Hsdp Hsbase].
  unfold registerMetric. rewrite HEmpty, HDir, bind_lift_Some.
  destruct (registerDirectory_spec dp σ q d Hwf Hq Hsdp)
    as [[Hw Hreg]|(Hw & r & σ1 & Hreg & Hwf1 & Hr & Hext1 & Hsame & Hnew)].
  { left. split; [exact Hw|]. rewrite (bind_Ok _ _ _ _ _ Hreg). reflexivity. }
  right. split; [exact Hw|]. exists r, σ1.
  split; [exact Hreg|]. split; [exact Hwf1|]. split; [exact Hext1|].
  split; [exact Hr|].
  rewrite (bind_Ok _ _ _ _ _ Hreg). simpl.
  destruct (newValue spec) as [v|] eqn:Hv; [right|left; split; reflexivity].
  rewrite bind_lift_Some.
  unfold bind at 1, new_metric at 1.
  set (m := fresh (dom (metrics σ1))).
  set (mr := {| Description := description; Unit_ := unit; Value := v;
                metric_enclosingListEntry := None |}).
  set (σ2 := {| dirs := dirs σ1; entries := entries σ1;
                metrics := <[m := mr]> (metrics σ1) |}).
  assert (Hm1 : metrics σ1 !! m = None) by apply fresh_metric.
  destruct (wf_same_structure σ1 σ2 eq_refl eq_refl) as [Hwf2 Hext2]; [|exact Hwf1|].
  { intros m0 mr0 Hm0. simpl. rewrite lookup_insert_ne; [exact Hm0|]. congruence. }
  assert (Hr2 : dirAt σ2 root (q ++ dp) = Some r).
  { rewrite (dirAt_same σ1 σ2 _ root eq_refl eq_refl). exact Hr. }
  rewrite HBase, bind_lift_Some. fold mr. fold σ2.
  destruct (child σ1 r base) as [c|] eqn:Hch.
  - left. exists v, c, σ2. split; [reflexivity|]. split; [reflexivity|].
    assert (Hσ : σ1 = σ).
    { destruct (dirAt σ d dp) as [r0|] eqn:Hr0; [eauto|].
      rewrite (Hnew eq_refl base) in Hch. discriminate. }
    split; [exact Hσ|]. split.
    { eapply storeMetric_old; eauto. }
    subst σ1. split; [reflexivity|]. split; [reflexivity|]. auto.
  - right.
    destruct (storeMetric_new σ2 (q ++ dp) r base m mr Hwf2 Hr2 Hsbase)
      as (e & dr & σ3 & Hstore & Hlk & Hm3); [apply lookup_insert_eq|reflexivity|exact Hch|].
    exists v, m, e, σ3. split; [reflexivity|]. split; [reflexivity|].
    split; [exact Hstore|].
    pose proof (links_extends σ2 σ3 _ r dr base e _ Hwf2 Hr2 Hlk) as Hext3.
    split; [eapply links_wf; eauto|].
    split; [eapply extends_trans; [exact Hext1|]; eapply extends_trans; eauto|].
    split; [apply (links_dirAt_old σ2 σ3 _ r dr base e _ Hwf2 Hr2 Hlk); exact Hr2|].
    split; [|exact Hm3].
    exists {| Name := base; Metric := Some m; Directory := None;
              parent := enclosingListEntry dr |}.
    split; [|split; reflexivity].
    rewrite (links_child σ2 σ3 _ r dr base e _ Hwf2 Hr2 Hlk _ r base Hr2).
    case_decide as Hn; [reflexivity|tauto].
Qed.

(** *** The parser *)

Lemma no_slash_String c s :
  no_slash (String c s) = negb (Ascii.eqb c "/"%char) && no_slash s.
Proof. reflexivity. Qed.

Lemma Split_not_nil s : Split s <> [].
Proof.
  destruct s as [|c s]; simpl; [discriminate|].
  destruct (Ascii.eqb c "/"); [discriminate|].
  destruct (Split s); discriminate.
Qed.

Lemma Split_no_slash s : Forall (fun part => no_slash part = true) (Split s).
Proof.
  induction s as [|c s IH]; simpl.
  - repeat constructor.
  - destruct (Ascii.eqb c "/") eqn:Hc.
    + constructor; [reflexivity|exact IH].
    + destruct (Split s) as [|hd tl]; [repeat constructor; rewrite no_slash_String, Hc; reflexivity|].
      inversion IH; subst. constructor; [|assumption].
      rewrite no_slash_String, Hc. simpl. assumption.
Qed.

Lemma newPathSpec_segments s : Forall segment (newPathSpec s).
Proof.
  unfold newPathSpec. apply Forall_forall. intros part Hin.
  apply list_elem_of_filter in Hin as [Hblank Hin]. split; [|exact Hblank].
  pose proof (Split_no_slash s) as Hall. rewrite Forall_forall in Hall. auto.
Qed.

(** *** The states of the program are well formed *)

Lemma registerMetric_wf σ q d path spec unit description :
  wf σ -> dirAt σ root q = Some d -> Forall segment path ->
  forall σ', (exists r, registerMetric d path spec unit description σ = Ok r σ') \/
             registerMetric d path spec unit description σ = Panic σ' ->
  wf σ' /\ extends σ σ'.
Proof.
  intros Hwf Hq Hseg σ' Hout.
  destruct (registerMetric_spec σ q d path spec unit description Hwf Hq Hseg)
    as [[_ Hres]|(dp & base & _ & [[_ Hres]|(_ & r & σ1 & _ & Hwf1 & Hext1 & _ & Hcases)])].
  - rewrite Hres in Hout. destruct Hout as [[r Heq]|Heq]; inversion Heq; subst.
    auto using extends_refl.
  - rewrite Hres in Hout. destruct Hout as [[r Heq]|Heq]; inversion Heq; subst.
    auto using extends_refl.
  - destruct Hcases as [[_ Hres]|[(v & c & σ2 & _ & _ & _ & Hres & _ & _ & Hwf2 & Hext2)
                                 |(v & m & e & σ3 & _ & _ & Hres & Hwf3 & Hext3 & _)]];
      rewrite Hres in Hout; destruct Hout as [[r0 Heq]|Heq]; inversion Heq; subst; auto.
Qed.

Lemma registerDirectory_wf σ q d path r σ' :
  wf σ -> dirAt σ root q = Some d -> Forall segment path ->
  registerDirectory d path σ = Ok r σ' ->
  wf σ' /\ extends σ σ'.
Proof.
  intros Hwf Hq Hseg Hout.
  destruct (registerDirectory_spec path σ q d Hwf Hq Hseg)
    as [[_ Hres]|(_ & r1 & σ1 & Hres & Hwf1 & _ & Hext1 & _)];
    rewrite Hres in Hout; inversion Hout; subst; auto using extends_refl.
Qed.

Lemma later_wf σ0 σ : wf σ0 -> later σ0 σ -> wf σ /\ extends σ0 σ.
Proof.
  intros Hwf0 Hlater. induction Hlater as
    [|σ d path spec unit description r σ' _ [Hwf Hext] [q Hq] Hcall
     |σ d path spec unit description σ' _ [Hwf Hext] [q Hq] Hcall
     |σ d path r σ' _ [Hwf Hext] [q Hq] Hcall].
  - auto using extends_refl.
  - destruct (registerMetric_wf σ q d _ spec unit description Hwf Hq
                (newPathSpec_segments path) σ') as [Hwf' Hext']; [left; eauto|].
    split; [exact Hwf'|]. eapply extends_trans; eauto.
  - destruct (registerMetric_wf σ q d _ spec unit description Hwf Hq
                (newPathSpec_segments path) σ') as [Hwf' Hext']; [right; exact Hcall|].
    split; [exact Hwf'|]. eapply extends_trans; eauto.
  - destruct (registerDirectory_wf σ q d _ r σ' Hwf Hq
                (newPathSpec_segments path) Hcall) as [Hwf' Hext'].
    split; [exact Hwf'|]. eapply extends_trans; eauto.
Qed.

Lemma reachable_wf σ : reachable σ -> wf σ.
Proof. intros Hr. apply (later_wf init σ init_wf Hr). Qed.

Lemma later_trans σ0 σ1 σ2 : later σ0 σ1 -> later σ1 σ2 -> later σ0 σ2.
Proof.
  intros H01 H12. induction H12; [exact H01| | |].
  - eapply later_RegisterMetric; eauto.
  - eapply later_RegisterMetric_panic; eauto.
  - eapply later_RegisterDirectory; eauto.
Qed.

(** *** Lookups *)

Lemma getDirectory_spec σ p : forall q d,
  wf σ -> dirAt σ root q = Some d ->
  getDirectory d p σ = Ok (dirAt σ d p) σ.
Proof.
  induction p as [|s p IH]; intros q d Hwf Hq; [reflexivity|].
  destruct (wf_child σ q d s Hwf Hq) as (dr & Hdr & Hc).
  simpl. unfold getDirectory_step.
  unfold bind at 1. unfold bind at 1. rewrite (get_dir_Ok σ d dr Hdr).
  unfold child_dir.
  destruct (contents dr !! s) as [e|] eqn:Hcs.
  - destruct Hc as (le & Hch & He & _). rewrite Hch. simpl.
    unfold bind at 1. rewrite (get_entry_Ok σ e le He). unfold ret at 1.
    destruct (Directory le) as [d'|] eqn:Hd'; [|reflexivity].
    apply (IH (q ++ [s]) d' Hwf).
    rewrite dirAt_snoc, Hq. simpl. unfold child_dir. rewrite Hch. exact Hd'.
  - rewrite Hc. reflexivity.
Qed.

Lemma getDirectoryOrMetric_spec σ q d p :
  wf σ -> dirAt σ root q = Some d ->
  getDirectoryOrMetric d p σ = Ok (found (resolve σ d p)) σ.
Proof.
  intros Hwf Hq. destruct p as [|s0 p0] eqn:Hp; [reflexivity|]. rewrite <- Hp.
  destruct (path_snoc p ltac:(subst; discriminate))
    as (dp & base & Hsnoc & HDir & HBase & HEmpty).
  unfold getDirectoryOrMetric. rewrite HEmpty, HDir, bind_lift_Some.
  rewrite (bind_Ok _ _ _ _ _ (getDirectory_spec σ dp q d Hwf Hq)).
  rewrite Hsnoc, resolve_snoc.
  destruct (dirAt σ d dp) as [d1|] eqn:Hd1; [|reflexivity]. simpl.
  rewrite <- Hsnoc, HBase, bind_lift_Some.
  assert (Hq1 : dirAt σ root (q ++ dp) = Some d1).
  { rewrite dirAt_app, Hq. exact Hd1. }
  destruct (wf_child σ (q ++ dp) d1 base Hwf Hq1) as (dr & Hdr & Hc).
  rewrite (bind_Ok _ _ _ _ _ (get_dir_Ok σ d1 dr Hdr)).
  destruct (contents dr !! base) as [e|] eqn:Hcb.
  - destruct Hc as (le & Hch & He & _ & _ & _ & Hrole).
    rewrite (bind_Ok _ _ _ _ _ (get_entry_Ok σ e le He)), Hch. simpl.
    unfold role in Hrole. unfold binding_of, ret.
    destruct (Directory le), (Metric le); try contradiction; reflexivity.
  - rewrite Hc. reflexivity.
Qed.

Lemma dirAt_prefix σ d0 p1 p2 x :
  dirAt σ d0 (p1 ++ p2) = Some x -> exists d1, dirAt σ d0 p1 = Some d1.
Proof.
  rewrite dirAt_app. destruct (dirAt σ d0 p1) as [d1|]; [eauto|discriminate].
Qed.

Lemma dirAt_relative σ q d p x :
  dirAt σ root q = Some d -> dirAt σ root (q ++ p) = Some x -> dirAt σ d p = Some x.
Proof. intros Hq. rewrite dirAt_app, Hq. auto. Qed.

Lemma dirAt_not_on_walk σ d p x :
  dirAt σ d p = Some x -> ~ metric_on_walk σ d p.
Proof.
  intros Hp (p1 & s & p2 & m & Hpath & Hres). subst p.
  replace (p1 ++ s :: p2) with ((p1 ++ [s]) ++ p2) in Hp
    by (rewrite <- app_assoc; reflexivity).
  apply dirAt_prefix in Hp as [d1 Hd1].
  apply resolve_directory in Hd1. congruence.
Qed.

(** A registration that is refused leaves the directories and the entries
    as they were. *)
Lemma refused_registration_namespace σ d path spec unit description err σ' :
  reachable σ -> in_namespace σ d ->
  RegisterMetric d path spec unit description σ = Ok (Some err) σ' ->
  namespace σ' = namespace σ.
Proof.
  intros Hreach [q Hq] Hcall. pose proof (reachable_wf σ Hreach) as Hwf.
  unfold RegisterMetric in Hcall.
  destruct (registerMetric_spec σ q d (newPathSpec path) spec unit description
              Hwf Hq (newPathSpec_segments path))
    as [[_ Hres]|(dp & base & _ & [[_ Hres]|(_ & r & σ1 & _ & _ & _ & _ & Hcases)])].
  - rewrite Hres in Hcall. inversion Hcall; subst. reflexivity.
  - rewrite Hres in Hcall. inversion Hcall; subst. reflexivity.
  - destruct Hcases as [[_ Hres]|[(v & c & σ2 & _ & _ & _ & Hres & Hd & He & _)
                                 |(v & m & e & σ3 & _ & _ & Hres & _)]];
      rewrite Hres in Hcall; inversion Hcall; subst.
    unfold namespace. rewrite Hd, He. reflexivity.
Qed.

(** *** Paths as strings *)

Lemma Split_segment s : no_slash s = true -> Split s = [s].
Proof.
  induction s as [|c s IH]; [reflexivity|].
  rewrite no_slash_String. intros [Hc Hs]%andb_prop. simpl.
  destruct (Ascii.eqb c "/"); [discriminate|]. rewrite (IH Hs). reflexivity.
Qed.

Lemma Split_app s t :
  no_slash s = true -> Split (s +:+ "/" +:+ t) = s :: Split t.
Proof.
  induction s as [|c s IH]; intros Hs; [reflexivity|].
  rewrite no_slash_String in Hs. apply andb_prop in Hs as [Hc Hs].
  change (String c s +:+ "/" +:+ t) with (String c (s +:+ "/" +:+ t)).
  simpl. destruct (Ascii.eqb c "/"); [discriminate|].
  rewrite (IH Hs). reflexivity.
Qed.

Lemma Split_String_ p : Forall segment p -> p <> [] -> Split (Path.String_ p) = p.
Proof.
  unfold Path.String_. induction p as [|x p IH]; intros Hall Hne; [congruence|].
  inversion Hall as [|? ? [Hx _] Hp]; subst.
  destruct p as [|y p].
  - simpl. apply Split_segment, Hx.
  - change (String.concat "/" (x :: y :: p))
      with (x +:+ "/" +:+ String.concat "/" (y :: p)).
    rewrite Split_app by exact Hx. rewrite IH; [reflexivity|exact Hp|discriminate].
Qed.

Lemma filter_segments (p : pathSpec) :
  Forall segment p -> filter (fun part => TrimSpace_is_empty part = false) p = p.
Proof.
  induction p as [|x p IH]; intros Hall; [reflexivity|].
  inversion Hall as [|? ? [_ Hx] Hp]; subst.
  unfold pathSpec in *. rewrite filter_cons_True by exact Hx. rewrite IH by exact Hp. reflexivity.
Qed.

Lemma newPathSpec_absolute p : Forall segment p -> newPathSpec (absolute p) = p.
Proof.
  intros Hall. unfold newPathSpec, absolute.
  change ("/" +:+ Path.String_ p) with (String "/"%char (Path.String_ p)).
  cbn [Split]. rewrite Ascii.eqb_refl.
  unfold pathSpec in *. rewrite filter_cons_False by (vm_compute; congruence).
  destruct p as [|x p].
  - reflexivity.
  - rewrite Split_String_ by (auto; discriminate). apply filter_segments, Hall.
Qed.

(** *** Reversal in place *)

Lemma swap_length names i j : length (swap names i j) = length names.
Proof.
  unfold swap. destruct (names !! i), (names !! j); auto.
  unfold pathSpec. rewrite !length_insert. reflexivity.
Qed.

Lemma swap_lookup (names : pathSpec) i j x :
  i < length names -> j < length names ->
  swap names i j !! x =
  if decide (x = i) then names !! j
  else if decide (x = j) then names !! i else names !! x.
Proof.
  intros Hi Hj. unfold swap, pathSpec in *.
  destruct (lookup_lt_is_Some_2 names i Hi) as [a Ha].
  destruct (lookup_lt_is_Some_2 names j Hj) as [b Hb].
  rewrite Ha, Hb.
  destruct (decide (x = i)) as [->|Hxi].
  - rewrite list_lookup_insert_eq by (rewrite length_insert; lia). reflexivity.
  - rewrite list_lookup_insert_ne by congruence.
    destruct (decide (x = j)) as [->|Hxj].
    + rewrite list_lookup_insert_eq by lia. reflexivity.
    + rewrite list_lookup_insert_ne by congruence. reflexivity.
Qed.

Lemma reverse_from_length turns : forall i names,
  length (reverse_from turns i names) = length names.
Proof.
  induction turns as [|turns IH]; intros i names; simpl; [reflexivity|].
  rewrite IH, swap_length. reflexivity.
Qed.

Lemma reverse_from_lookup turns : forall i (names : pathSpec) x,
  2 * (i + turns) <= length names ->
  reverse_from turns i names !! x =
  if decide (i <= x < i + turns \/
             length names - i - turns <= x < length names - i)
  then names !! (length names - 1 - x) else names !! x.
Proof.
  induction turns as [|turns IH]; intros i names x Hlen; simpl.
  - case_decide; [lia|reflexivity].
  - rewrite IH by (rewrite swap_length; lia). rewrite swap_length.
    rewrite !swap_lookup by lia.
    repeat case_decide; subst; try lia; try reflexivity;
      try (f_equal; lia).
Qed.

Lemma reverse_in_place_rev (names : pathSpec) : reverse_in_place names = rev names.
Proof.
  rewrite rev_alt. change (rev_append names []) with (reverse names).
  unfold reverse_in_place. apply list_eq. intros x.
  pose proof (Nat.div_mod_eq (length names) 2) as Hdiv.
  pose proof (Nat.mod_upper_bound (length names) 2) as Hmod.
  rewrite reverse_from_lookup by lia.
  destruct (decide (x < length names)) as [Hx|Hx].
  - rewrite reverse_lookup by exact Hx.
    case_decide; [f_equal; lia|].
    f_equal. lia.
  - rewrite (lookup_ge_None_2 (reverse names)) by (rewrite length_reverse; lia).
    case_decide; [lia|]. apply lookup_ge_None_2. lia.
Qed.

(** *** Up the parent pointers *)

Lemma wf_entry_at σ q d s e le :
  wf σ -> dirAt σ root q = Some d -> child σ d s = Some (e, le) ->
  exists dr, dirs σ !! d = Some dr /\ entries σ !! e = Some le /\ Name le = s /\
             segment s /\ parent le = enclosingListEntry dr /\ role σ e le.
Proof.
  intros Hwf Hq Hc. destruct (wf_child σ q d s Hwf Hq) as (dr & Hdr & Hm).
  destruct (contents dr !! s) as [e'|]; [|congruence].
  destruct Hm as (le' & Hc' & He & Hrest). rewrite Hc in Hc'.
  injection Hc' as <- <-. exists dr. auto.
Qed.

Lemma wf_dir_entry σ q s d :
  wf σ -> dirAt σ root (q ++ [s]) = Some d ->
  exists d0 e le dr,
    dirAt σ root q = Some d0 /\ child σ d0 s = Some (e, le) /\
    dirs σ !! d = Some dr /\ enclosingListEntry dr = Some e.
Proof.
  intros Hwf Hq. rewrite dirAt_snoc in Hq.
  destruct (dirAt σ root q) as [d0|] eqn:Hq0; [|discriminate]. simpl in Hq.
  unfold child_dir in Hq. destruct (child σ d0 s) as [[e le]|] eqn:Hc; [|discriminate].
  simpl in Hq.
  destruct (wf_entry_at σ q d0 s e le Hwf Hq0 Hc)
    as (dr0 & _ & _ & _ & _ & _ & Hrole).
  unfold role in Hrole. rewrite Hq in Hrole.
  destruct (Metric le); [contradiction|]. destruct Hrole as (dr & Hdr & Hencl).
  exists d0, e, le, dr. auto.
Qed.

Lemma wf_segments σ q : forall d,
  wf σ -> dirAt σ root q = Some d -> Forall segment q.
Proof.
  induction q as [|s q IH] using rev_ind; intros d Hwf Hq; [constructor|].
  destruct (wf_dir_entry σ q s d Hwf Hq) as (d0 & e & le & _ & Hq0 & Hc & _).
  destruct (wf_entry_at σ q d0 s e le Hwf Hq0 Hc) as (_ & _ & _ & _ & Hseg & _).
  apply Forall_app. split; [eauto|]. constructor; [exact Hseg|constructor].
Qed.

Lemma pathFrom_loop_nil fuel from names σ :
  pathFrom_loop fuel None from names σ = Ok (None, names) σ.
Proof. destruct fuel; reflexivity. Qed.

Lemma pathFrom_loop_spec σ q : forall d s e le fuel names,
  wf σ -> dirAt σ root q = Some d -> child σ d s = Some (e, le) ->
  length q < fuel ->
  pathFrom_loop fuel (Some e) None names σ = Ok (None, names ++ s :: rev q) σ.
Proof.
  induction q as [|s' q IH] using rev_ind;
    intros d s e le fuel names Hwf Hq Hc Hfuel.
  - injection Hq as <-.
    destruct (wf_entry_at σ [] root s e le Hwf eq_refl Hc)
      as (dr & Hdr & He & Hname & _ & Hpar & _).
    destruct (wf_root σ Hwf) as (dr0 & Hdr0 & Hencl).
    rewrite Hdr in Hdr0. injection Hdr0 as <-.
    destruct fuel; [lia|]. simpl.
    rewrite (bind_Ok _ _ _ _ _ (get_entry_Ok _ _ _ He)).
    rewrite Hpar, Hencl, Hname. apply pathFrom_loop_nil.
  - destruct (wf_dir_entry σ q s' d Hwf Hq) as (d0 & e' & le' & dr & Hq0 & Hc' & Hdr & Hencl).
    destruct (wf_entry_at σ (q ++ [s']) d s e le Hwf Hq Hc)
      as (dr' & Hdr' & He & Hname & _ & Hpar & _).
    rewrite Hdr in Hdr'. injection Hdr' as <-.
    rewrite length_app in Hfuel. simpl in Hfuel.
    destruct fuel; [lia|]. simpl.
    rewrite (bind_Ok _ _ _ _ _ (get_entry_Ok _ _ _ He)).
    rewrite Hpar, Hencl, Hname.
    rewrite (IH d0 s' e' le' fuel (names ++ [s]) Hwf Hq0 Hc') by lia.
    rewrite rev_app_distr. simpl. rewrite <- app_assoc. reflexivity.
Qed.

Lemma absPath_entry σ q d s e le fuel :
  wf σ -> dirAt σ root q = Some d -> child σ d s = Some (e, le) ->
  length q < fuel ->
  absPath fuel (Some e) σ = Ok (absolute (q ++ [s])) σ.
Proof.
  intros Hwf Hq Hc Hfuel. destruct (wf_root σ Hwf) as (dr0 & Hdr0 & Hencl).
  unfold absPath, pathFrom.
  rewrite (bind_Ok _ _ σ (q ++ [s]) σ); [reflexivity|].
  rewrite (bind_Ok _ _ _ _ _ (get_dir_Ok _ _ _ Hdr0)). rewrite Hencl.
  rewrite (bind_Ok _ _ _ _ _ (pathFrom_loop_spec σ q d s e le fuel [] Hwf Hq Hc Hfuel)).
  simpl.
  rewrite reverse_in_place_rev. simpl. rewrite rev_involutive. reflexivity.
Qed.

Lemma absPath_nil σ fuel :
  wf σ -> absPath fuel None σ = Ok "/" σ.
Proof.
  intros Hwf. destruct (wf_root σ Hwf) as (dr0 & Hdr0 & Hencl).
  unfold absPath, pathFrom.
  rewrite (bind_Ok _ _ σ ([] : pathSpec) σ); [reflexivity|].
  rewrite (bind_Ok _ _ _ _ _ (get_dir_Ok _ _ _ Hdr0)). rewrite Hencl.
  rewrite (bind_Ok _ _ _ _ _ (pathFrom_loop_nil fuel None [] σ)).
  reflexivity.
Qed.

Lemma AbsPath_of_bound_metric σ p m :
  wf σ -> resolve σ root p = Some (BoundMetric m) ->
  GetMetric root (absolute p) σ = Ok (Some m) σ /\
  forall fuel, length p <= fuel -> metric_AbsPath fuel m σ = Ok (absolute p) σ.
Proof.
  intros Hwf Hres.
  destruct p as [|s q _] using rev_ind; [discriminate|].
  pose proof Hres as Hres'. rewrite resolve_snoc in Hres'.
  destruct (dirAt σ root q) as [d|] eqn:Hq; [|discriminate]. simpl in Hres'.
  destruct (child σ d s) as [[e le]|] eqn:Hc; [|discriminate]. simpl in Hres'.
  apply binding_of_metric in Hres' as [Hdir Hmet].
  destruct (wf_entry_at σ q d s e le Hwf Hq Hc) as (dr & Hdr & He & Hname & Hseg & Hpar & Hrole).
  unfold role in Hrole. rewrite Hdir, Hmet in Hrole. destruct Hrole as (mr & Hmr & Hencl).
  assert (Hall : Forall segment (q ++ [s])).
  { apply Forall_app. split; [eapply wf_segments; eauto|]. constructor; [exact Hseg|constructor]. }
  split.
  - unfold GetMetric.
    rewrite (bind_Ok _ _ _ _ _ (getDirectoryOrMetric_spec σ [] root _ Hwf eq_refl)).
    rewrite newPathSpec_absolute by exact Hall. rewrite Hres. reflexivity.
  - intros fuel Hfuel. unfold metric_AbsPath.
    rewrite (bind_Ok _ _ _ _ _ (get_metric_Ok _ _ _ Hmr)). rewrite Hencl.
    rewrite length_app in Hfuel. simpl in Hfuel.
    apply (absPath_entry σ q d s e le); auto. lia.
Qed.

Lemma directory_AbsPath_root σ fuel :
  wf σ -> directory_AbsPath fuel root σ = Ok "/" σ.
Proof.
  intros Hwf. destruct (wf_root σ Hwf) as (dr0 & Hdr0 & Hencl).
  unfold directory_AbsPath.
  rewrite (bind_Ok _ _ _ _ _ (get_dir_Ok _ _ _ Hdr0)). rewrite Hencl.
  apply absPath_nil, Hwf.
Qed.

Lemma registered_metric_bound σ0 q d path spec unit description σ1 :
  wf σ0 -> dirAt σ0 root q = Some d -> Forall segment path ->
  registerMetric d path spec unit description σ0 = Ok None σ1 ->
  wf σ1 /\ exists m, resolve σ1 root (q ++ path) = Some (BoundMetric m).
Proof.
  intros Hwf Hq Hall Hreg.
  destruct (registerMetric_spec σ0 q d path spec unit description Hwf Hq Hall)
    as [[_ Heq]|(dp & base & -> & [[_ Heq]|(_ & r & σ' & _ & _ & _ & _ & Hcases)])];
    try congruence.
  destruct Hcases as [[_ Heq]|[(v & c & σ2 & _ & _ & _ & Heq & _)|
    (v & m & e & σ3 & _ & _ & Heq & Hwf3 & _ & Hr & (le & Hc & Hmet & Hdir) & _)]];
    try congruence.
  rewrite Hreg in Heq. injection Heq as ->. split; [exact Hwf3|].
  exists m. rewrite app_assoc, resolve_snoc, Hr. simpl. rewrite Hc. simpl.
  apply binding_of_metric. auto.
Qed.

(** *** The order of strings *)

Lemma ascii_compare_refl c : Ascii.compare c c = Eq.
Proof. unfold Ascii.compare. apply N.compare_refl. Qed.

Lemma ascii_compare_trans a b c :
  Ascii.compare a b = Lt -> Ascii.compare b c = Lt -> Ascii.compare a c = Lt.
Proof. unfold Ascii.compare. rewrite !N.compare_lt_iff. lia. Qed.

Lemma string_compare_trans a : forall b c,
  String.compare a b = Lt -> String.compare b c = Lt -> String.compare a c = Lt.
Proof.
  induction a as [|x a IH]; intros [|y b] [|z c]; simpl; try congruence.
  destruct (Ascii.compare x y) eqn:Hxy; try discriminate;
    destruct (Ascii.compare y z) eqn:Hyz; try discriminate; intros Hab Hbc.
  - apply Ascii.compare_eq_iff in Hxy, Hyz. subst.
    rewrite ascii_compare_refl. eauto.
  - apply Ascii.compare_eq_iff in Hxy. subst. rewrite Hyz. reflexivity.
  - apply Ascii.compare_eq_iff in Hyz. subst. rewrite Hxy. reflexivity.
  - rewrite (ascii_compare_trans x y z Hxy Hyz). reflexivity.
Qed.

Lemma string_compare_refl a : String.compare a a = Eq.
Proof. induction a as [|x a IH]; simpl; [|rewrite ascii_compare_refl]; auto. Qed.

Lemma ltb_Lt a b : String.ltb a b = true <-> String.compare a b = Lt.
Proof. unfold String.ltb. destruct (String.compare a b); split; congruence. Qed.

Lemma string_ltb_trans a b c :
  String.ltb a b = true -> String.ltb b c = true -> String.ltb a c = true.
Proof. rewrite !ltb_Lt. apply string_compare_trans. Qed.

Lemma string_ltb_irrefl a : String.ltb a a = false.
Proof. unfold String.ltb. rewrite string_compare_refl. reflexivity. Qed.

Lemma string_ltb_total a b :
  String.ltb a b = false -> a <> b -> String.ltb b a = true.
Proof.
  unfold String.ltb. rewrite (String.compare_antisym b a).
  destruct (String.compare a b) eqn:Hab; simpl; try congruence.
  intros _ Hne. apply String.compare_eq_iff in Hab. contradiction.
Qed.

(** *** Sorting by name *)

Lemma insert_byName_perm x l : Permutation (insert_byName x l) (x :: l).
Proof.
  induction l as [|y l IH]; simpl; [reflexivity|].
  destruct (String.ltb (fst x) (fst y)); [reflexivity|].
  rewrite IH. apply perm_swap.
Qed.

Lemma sortListEntries_perm l : Permutation (sortListEntries l) l.
Proof.
  induction l as [|x l IH]; simpl; [reflexivity|].
  rewrite insert_byName_perm. constructor. exact IH.
Qed.

Lemma insert_byName_sorted x l :
  StronglySorted byName l -> fst x ∉ map fst l ->
  StronglySorted byName (insert_byName x l).
Proof.
  induction l as [|y l IH]; intros Hs Hx; simpl.
  - repeat constructor.
  - apply StronglySorted_inv in Hs as [Hs Hy].
    rewrite fmap_cons, not_elem_of_cons in Hx. destruct Hx as [Hxy Hx].
    destruct (String.ltb (fst x) (fst y)) eqn:Hlt.
    + constructor; [constructor; assumption|].
      constructor; [exact Hlt|].
      eapply Forall_impl; [exact Hy|]. intros z Hz. unfold byName in *.
      eapply string_ltb_trans; eauto.
    + constructor; [auto|].
      rewrite (Forall_forall (byName y)). intros z Hz.
      apply (elem_of_Permutation_proper _ _ _ (insert_byName_perm x l)) in Hz.
      apply elem_of_cons in Hz as [->|Hz].
      * apply string_ltb_total; auto.
      * rewrite Forall_forall in Hy. auto.
Qed.

Lemma sortListEntries_sorted l :
  NoDup (map fst l) -> StronglySorted byName (sortListEntries l).
Proof.
  induction l as [|x l IH]; simpl; intros Hnd; [constructor|].
  apply NoDup_cons in Hnd as [Hx Hnd].
  apply insert_byName_sorted; [auto|].
  intros Hin. apply Hx.
  rewrite (sortListEntries_perm l) in Hin. exact Hin.
Qed.

Lemma sortListEntries_elem x l : x ∈ sortListEntries l <-> x ∈ l.
Proof. rewrite (sortListEntries_perm l). reflexivity. Qed.

(** *** Listing a directory *)

Lemma mapM_spec {A B} (f : A -> M B) (g : A -> B) σ l :
  (forall x, x ∈ l -> f x σ = Ok (g x) σ) -> mapM f l σ = Ok (map g l) σ.
Proof.
  induction l as [|x l IH]; intros Hf; simpl; [reflexivity|].
  assert (Hx : f x σ = Ok (g x) σ) by (apply Hf; left).
  assert (Hl : mapM f l σ = Ok (map g l) σ) by (apply IH; intros y Hy; apply Hf; right; exact Hy).
  rewrite (bind_Ok _ _ _ _ _ Hx), (bind_Ok _ _ _ _ _ Hl). reflexivity.
Qed.

Lemma map_fixed {A} (h : A -> A) l : (forall x, x ∈ l -> h x = x) -> map h l = l.
Proof.
  induction l as [|x l IH]; intros Hh; simpl; [reflexivity|].
  rewrite Hh by left. rewrite IH; [reflexivity|]. intros y Hy. apply Hh. right. exact Hy.
Qed.

Lemma wf_listed σ q d dr s e :
  wf σ -> dirAt σ root q = Some d -> dirs σ !! d = Some dr ->
  (s, e) ∈ sortListEntries (map_to_list (contents dr)) ->
  exists le, child σ d s = Some (e, le) /\ entries σ !! e = Some le /\ Name le = s /\
    ((exists d', Directory le = Some d' /\ Metric le = None /\
                 dirAt σ root (q ++ [s]) = Some d') \/
     (exists m, Directory le = None /\ Metric le = Some m)).
Proof.
  intros Hwf Hq Hdr Hin. apply sortListEntries_elem, elem_of_map_to_list in Hin.
  destruct (wf_entry σ Hwf q d dr s e Hq Hdr Hin) as (le & He & Hname & _ & _ & Hrole).
  assert (Hc : child σ d s = Some (e, le)) by (apply child_Some; eauto).
  exists le. split; [exact Hc|]. split; [exact He|]. split; [exact Hname|].
  unfold role in Hrole.
  destruct (Directory le) as [d'|] eqn:Hdir, (Metric le) as [m|] eqn:Hmet;
    try contradiction.
  - left. exists d'. split; [reflexivity|]. split; [reflexivity|].
    rewrite dirAt_snoc, Hq. simpl. unfold child_dir. rewrite Hc. exact Hdir.
  - right. eauto.
Qed.

Lemma List_spec σ q d dr :
  wf σ -> dirAt σ root q = Some d -> dirs σ !! d = Some dr ->
  List d σ = Ok (map snd (sortListEntries (map_to_list (contents dr)))) σ.
Proof.
  intros Hwf Hq Hdr. unfold List, List_named.
  rewrite (bind_Ok _ _ σ (sortListEntries (map_to_list (contents dr))) σ);
    [reflexivity|].
  rewrite (bind_Ok _ _ _ _ _ (get_dir_Ok _ _ _ Hdr)).
  set (g := fun e : addr => match entries σ !! e with
                            | Some le => (Name le, e)
                            | None => (EmptyString, e)
                            end).
  rewrite (bind_Ok _ _ σ (map g (map snd (map_to_list (contents dr)))) σ).
  - unfold ret. do 2 f_equal. rewrite map_map. apply map_fixed.
    intros [s e] Hin. apply elem_of_map_to_list in Hin.
    destruct (wf_entry σ Hwf q d dr s e Hq Hdr Hin) as (le & He & Hname & _).
    unfold g. simpl. rewrite He, Hname. reflexivity.
  - apply mapM_spec. intros e Hin.
    apply list_elem_of_fmap in Hin as ([s e'] & -> & Hin).
    apply elem_of_map_to_list in Hin.
    destruct (wf_entry σ Hwf q d dr s e' Hq Hdr Hin) as (le & He & _).
    simpl. rewrite (bind_Ok _ _ _ _ _ (get_entry_Ok _ _ _ He)).
    unfold g. rewrite He. reflexivity.
Qed.

(** *** The traversal *)

Lemma deliver_app {C} (collector : metricsCollector C) σ l1 : forall l2 c,
  deliver collector σ (l1 ++ l2) c =
  match deliver collector σ l1 c with
  | (Some err, c') => (Some err, c')
  | (None, c') => deliver collector σ l2 c'
  end.
Proof.
  induction l1 as [|m l1 IH]; intros l2 c; simpl; [reflexivity|].
  destruct (collector σ (Some m) c) as [c' [err|]]; [reflexivity|apply IH].
Qed.

Lemma map_snd_prefixed (s : string) (L : list (pathSpec * addr)) :
  map snd (map (fun pm => (s :: fst pm, snd pm)) L) = map snd L.
Proof. rewrite map_map. reflexivity. Qed.

Lemma GetAllMetrics_range_spec {C} (collector : metricsCollector C) σ q d dr fuel :
  wf σ -> dirAt σ root q = Some d -> dirs σ !! d = Some dr ->
  (forall s d' c, dirAt σ root (q ++ [s]) = Some d' ->
     GetAllMetrics fuel d' collector c σ
     = Ok (deliver collector σ (map snd (leaves fuel σ d')) c) σ) ->
  forall xs c,
    (forall x, x ∈ xs -> x ∈ sortListEntries (map_to_list (contents dr))) ->
    GetAllMetrics_range (fun dir c' => GetAllMetrics fuel dir collector c')
      collector (map snd xs) c σ
    = Ok (deliver collector σ
            (map snd (flat_map (entry_leaves (leaves fuel σ) σ) xs)) c) σ.
Proof.
  intros Hwf Hq Hdr Hdesc. induction xs as [|[s e] xs IH]; intros c Hxs;
    [reflexivity|].
  destruct (wf_listed σ q d dr s e Hwf Hq Hdr (Hxs _ ltac:(left)))
    as (le & Hc & He & Hname & Hrole).
  assert (Hxs' : forall x, x ∈ xs -> x ∈ sortListEntries (map_to_list (contents dr)))
    by (intros x Hx; apply Hxs; right; exact Hx).
  cbn [map snd flat_map GetAllMetrics_range]. rewrite map_app, deliver_app.
  rewrite (bind_Ok _ _ _ _ _ (get_entry_Ok _ _ _ He)).
  unfold entry_leaves. cbn [fst snd]. rewrite He.
  destruct Hrole as [(d' & Hdir & Hmet & Hd')|(m & Hdir & Hmet)];
    rewrite Hdir, ?Hmet.
  - rewrite (bind_Ok _ _ _ _ _ (Hdesc s d' c Hd')). rewrite map_snd_prefixed.
    destruct (deliver collector σ (map snd (leaves fuel σ d')) c) as [[err|] c'];
      cbn [fst snd]; [reflexivity|]. apply IH, Hxs'.
  - unfold bind at 1. unfold Collect. cbn [map snd deliver].
    destruct (collector σ (Some m) c) as [c' [err|]]; cbn [fst snd];
      [reflexivity|]. apply IH, Hxs'.
Qed.

Lemma GetAllMetrics_spec {C} (collector : metricsCollector C) σ n :
  wf σ -> (forall q d, dirAt σ root q = Some d -> length q <= n) ->
  forall fuel q d c,
    dirAt σ root q = Some d -> n < length q + fuel ->
    GetAllMetrics fuel d collector c σ
    = Ok (deliver collector σ (map snd (leaves fuel σ d)) c) σ.
Proof.
  intros Hwf Hn. induction fuel as [|fuel IH]; intros q d c Hq Hfuel.
  - specialize (Hn q d Hq). lia.
  - destruct (wf_dirs σ Hwf q d Hq) as [dr Hdr].
    cbn [GetAllMetrics leaves]. rewrite Hdr.
    rewrite (bind_Ok _ _ _ _ _ (List_spec σ q d dr Hwf Hq Hdr)).
    apply (GetAllMetrics_range_spec collector σ q d dr fuel Hwf Hq Hdr); [|auto].
    intros s d' c' Hd'. apply (IH (q ++ [s])); [exact Hd'|].
    rewrite length_app. simpl. lia.
Qed.

(** *** The metrics delivered *)

Lemma resolve_cons σ d s p :
  resolve σ d (s :: p) =
  match child σ d s with
  | None => None
  | Some c =>
      match Directory (snd c) with
      | Some d' => resolve σ d' p
      | None => match p with [] => binding_of (snd c) | _ => None end
      end
  end.
Proof.
  destruct p as [|t p].
  - cbn. destruct (child σ d s) as [[e le]|]; [|reflexivity]. cbn.
    unfold binding_of. destruct (Directory le); reflexivity.
  - change (resolve σ d (s :: t :: p))
      with (d' ← dirAt σ d (s :: removelast (t :: p)); b ← last (t :: p);
            c ← child σ d' b; binding_of (snd c)).
    cbn [dirAt]. unfold child_dir.
    destruct (child σ d s) as [[e le]|]; [|reflexivity]. cbn [snd mbind option_bind].
    destruct (Directory le); reflexivity.
Qed.

Lemma entry_leaves_elem below σ s e le p m :
  entries σ !! e = Some le ->
  (p, m) ∈ entry_leaves below σ (s, e) <->
  exists p', p = s :: p' /\
    match Directory le with
    | Some d' => (p', m) ∈ below d'
    | None => p' = [] /\ Metric le = Some m
    end.
Proof.
  intros He. unfold entry_leaves. cbn [fst snd]. rewrite He.
  destruct (Directory le) as [d'|].
  - rewrite list_elem_of_fmap. split.
    + intros ([p' m'] & Heq & Hin). injection Heq as -> ->. eauto.
    + intros (p' & -> & Hin). exists (p', m). auto.
  - destruct (Metric le) as [m'|].
    + rewrite list_elem_of_singleton. split.
      * intros Heq. injection Heq as -> ->. eauto.
      * intros (p' & -> & -> & Heq). injection Heq as ->. reflexivity.
    + split; [intros Hin; inversion Hin|]. intros (p' & _ & _ & Heq). discriminate.
Qed.

Lemma leaves_elem σ n :
  wf σ -> (forall q d, dirAt σ root q = Some d -> length q <= n) ->
  forall fuel q d p m,
    dirAt σ root q = Some d -> n < length q + fuel ->
    (p, m) ∈ leaves fuel σ d <-> resolve σ d p = Some (BoundMetric m).
Proof.
  intros Hwf Hn. induction fuel as [|fuel IH]; intros q d p m Hq Hfuel.
  - specialize (Hn q d Hq). lia.
  - destruct (wf_dirs σ Hwf q d Hq) as [dr Hdr].
    cbn [leaves]. rewrite Hdr. rewrite list_elem_of_In, in_flat_map. split.
    + intros ([s e] & Hin & Hpm). apply list_elem_of_In in Hin, Hpm.
      destruct (wf_listed σ q d dr s e Hwf Hq Hdr Hin) as (le & Hc & He & _ & Hrole).
      apply (entry_leaves_elem _ σ s e le p m He) in Hpm.
      destruct Hpm as (p' & Hp & Hpm). subst p.
      rewrite resolve_cons, Hc. cbn [snd].
      destruct Hrole as [(d' & Hdir & _ & Hd')|(m' & Hdir & Hmet)];
        rewrite Hdir in *.
      * apply (IH (q ++ [s])); [exact Hd'| |exact Hpm].
        rewrite length_app. simpl. lia.
      * destruct Hpm as [-> Hm]. apply binding_of_metric. auto.
    + intros Hres. destruct p as [|s p']; [discriminate|].
      rewrite resolve_cons in Hres.
      destruct (child σ d s) as [[e le]|] eqn:Hc; [|discriminate]. cbn [snd] in Hres.
      pose proof Hc as Hc'. apply child_Some in Hc' as (dr' & Hdr' & Hcont & He).
      rewrite Hdr in Hdr'. injection Hdr' as <-.
      assert (Hin : (s, e) ∈ sortListEntries (map_to_list (contents dr)))
        by (apply sortListEntries_elem, elem_of_map_to_list; exact Hcont).
      exists (s, e). split; [apply list_elem_of_In; exact Hin|].
      apply list_elem_of_In. apply (entry_leaves_elem _ σ s e le _ m He).
      exists p'. split; [reflexivity|].
      destruct (wf_listed σ q d dr s e Hwf Hq Hdr Hin) as (le' & Hc2 & _ & _ & Hrole).
      rewrite Hc in Hc2. injection Hc2 as <-.
      destruct Hrole as [(d' & Hdir & _ & Hd')|(m' & Hdir & Hmet)];
        rewrite Hdir in *.
      * apply (IH (q ++ [s])); [exact Hd'| |exact Hres].
        rewrite length_app. simpl. lia.
      * destruct p'; [|discriminate]. apply binding_of_metric in Hres as [_ Hm].
        auto.
Qed.

(** *** The order of the paths delivered *)

Lemma path_lt_cons s p q : path_lt p q -> path_lt (s :: p) (s :: q).
Proof.
  unfold path_lt. intros Hpq. destruct q as [|t q]; [destruct p; discriminate|].
  cbn [path_ltb]. rewrite String.eqb_refl, Hpq. apply orb_true_r.
Qed.

Lemma path_lt_heads s t p q : String.ltb s t = true -> path_lt (s :: p) (t :: q).
Proof. unfold path_lt. intros Hst. cbn [path_ltb]. rewrite Hst. reflexivity. Qed.

Lemma flat_map_sorted (f : string * addr -> list (pathSpec * addr)) xs :
  StronglySorted byName xs ->
  (forall x, x ∈ xs -> StronglySorted path_lt (map fst (f x))) ->
  (forall x pm, x ∈ xs -> pm ∈ f x -> exists p', fst pm = fst x :: p') ->
  StronglySorted path_lt (map fst (flat_map f xs)).
Proof.
  induction xs as [|x xs IH]; intros Hs Hf Hhead; simpl; [constructor|].
  apply StronglySorted_inv in Hs as [Hs Hx]. rewrite map_app.
  apply StronglySorted_app_2.
  - intros a b Ha Hb.
    apply list_elem_of_fmap in Ha as (pa & -> & Ha).
    apply list_elem_of_fmap in Hb as (pb & -> & Hb).
    apply list_elem_of_In, in_flat_map in Hb as (y & Hy & Hb).
    apply list_elem_of_In in Hy, Hb.
    destruct (Hhead x pa ltac:(left) Ha) as (pa' & Hpa).
    destruct (Hhead y pb ltac:(right; exact Hy) Hb) as (pb' & Hpb).
    destruct pa as [pa ma], pb as [pb mb]. cbn [fst] in *. subst pa pb.
    apply path_lt_heads. rewrite Forall_forall in Hx. apply Hx, Hy.
  - apply Hf. left.
  - apply IH; [exact Hs| |].
    + intros y Hy. apply Hf. right. exact Hy.
    + intros y pm Hy. apply Hhead. right. exact Hy.
Qed.

Lemma leaves_sorted σ n :
  wf σ -> (forall q d, dirAt σ root q = Some d -> length q <= n) ->
  forall fuel q d,
    dirAt σ root q = Some d -> n < length q + fuel ->
    StronglySorted path_lt (map fst (leaves fuel σ d)).
Proof.
  intros Hwf Hn. induction fuel as [|fuel IH]; intros q d Hq Hfuel.
  - constructor.
  - destruct (wf_dirs σ Hwf q d Hq) as [dr Hdr]. cbn [leaves]. rewrite Hdr.
    apply flat_map_sorted.
    + apply sortListEntries_sorted, NoDup_fst_map_to_list.
    + intros [s e] Hin.
      destruct (wf_listed σ q d dr s e Hwf Hq Hdr Hin) as (le & _ & He & _ & Hrole).
      unfold entry_leaves. cbn [fst snd]. rewrite He.
      destruct Hrole as [(d' & Hdir & _ & Hd')|(m' & Hdir & Hmet)];
        rewrite Hdir, ?Hmet.
      * rewrite map_map. cbn [fst]. rewrite <- (map_map fst (cons s)).
        apply StronglySorted_fmap with (R1 := path_lt).
        -- intros p p'. apply path_lt_cons.
        -- apply (IH (q ++ [s])); [exact Hd'|]. rewrite length_app. simpl. lia.
      * repeat constructor.
    + intros [s e] [p m] Hin Hpm.
      destruct (wf_listed σ q d dr s e Hwf Hq Hdr Hin) as (le & _ & He & _).
      apply (entry_leaves_elem _ σ s e le p m He) in Hpm.
      destruct Hpm as (p' & Hp & _). exists p'. exact Hp.
Qed.

Lemma flat_map_agree {A B} (f g : A -> list B) l :
  (forall x, x ∈ l -> f x = g x) -> flat_map f l = flat_map g l.
Proof.
  induction l as [|x l IH]; intros Hfg; simpl; [reflexivity|].
  rewrite Hfg by left. rewrite IH; [reflexivity|].
  intros y Hy. apply Hfg. right. exact Hy.
Qed.

Lemma leaves_fuel σ n :
  wf σ -> (forall q d, dirAt σ root q = Some d -> length q <= n) ->
  forall fuel1 fuel2 q d,
    dirAt σ root q = Some d -> n < length q + fuel1 -> n < length q + fuel2 ->
    leaves fuel1 σ d = leaves fuel2 σ d.
Proof.
  intros Hwf Hn. induction fuel1 as [|fuel1 IH]; intros fuel2 q d Hq H1 H2.
  - specialize (Hn q d Hq). lia.
  - destruct fuel2 as [|fuel2]; [specialize (Hn q d Hq); lia|].
    destruct (wf_dirs σ Hwf q d Hq) as [dr Hdr]. cbn [leaves]. rewrite Hdr.
    apply flat_map_agree. intros [s e] Hin.
    destruct (wf_listed σ q d dr s e Hwf Hq Hdr Hin) as (le & _ & He & _ & Hrole).
    unfold entry_leaves. cbn [fst snd]. rewrite He.
    destruct Hrole as [(d' & Hdir & _ & Hd')|(m' & Hdir & Hmet)];
      rewrite Hdir, ?Hmet; [|reflexivity].
    rewrite (IH fuel2 (q ++ [s]) d' Hd'); [reflexivity| |];
      rewrite length_app; simpl; lia.
Qed.

End NamespaceFacts.

(** ** The claims about the namespace *)

Module Registry.
Import Path Namespace NamespaceSpec NamespaceFacts.

(** C5, as amended: on a directory of the namespace and for a metric source
    of a supported type, RegisterMetric returns, and returns the PathInUse
    error exactly when the parsed path is empty, or some proper ancestor
    segment of the path is already bound to a metric, or the final segment
    is already bound to anything; otherwise it returns success, having
    installed the metric at the final segment, the ancestors being
    directories (created where they were missing), with every earlier
    binding kept. *)
Theorem RegisterMetric_refused_or_installed σ d path spec unit description v :
  reachable σ -> in_namespace σ d -> newValue spec = Some v ->
  exists r σ',
    RegisterMetric d path spec unit description σ = Ok r σ' /\
    (r = Some ErrPathInUse <-> registration_refused σ d (newPathSpec path)) /\
    (r <> Some ErrPathInUse ->
       r = None /\ installed σ' d (newPathSpec path) description unit v /\
       extends σ σ').
Proof.
  intros Hreach [q Hq] Hv. pose proof (reachable_wf σ Hreach) as Hwf.
  unfold RegisterMetric. set (p := newPathSpec path).
  destruct (registerMetric_spec σ q d p spec unit description
              Hwf Hq (newPathSpec_segments path))
    as [[Hnil Hres]|(dp & base & Hsnoc & [[Hw Hres]|(Hw & r & σ1 & Hreg & Hwf1 & Hext1 & Hr & Hcases)])].
  - exists (Some ErrPathInUse), σ. split; [exact Hres|]. split; [|congruence].
    split; [intros _; left; exact Hnil|reflexivity].
  - exists (Some ErrPathInUse), σ. split; [exact Hres|]. split; [|congruence].
    split; [intros _|reflexivity]. right. left.
    rewrite Hsnoc, removelast_snoc. exact Hw.
  - destruct Hcases as [[Hnone _]|[(v' & c & σ2 & _ & Hch & Hσ & Hres & _)
                                  |(v' & m & e & σ3 & Hv' & Hch & Hres & Hwf3 & Hext3 & Hr3 & Hle & Hm)]].
    + congruence.
    + subst σ1. exists (Some ErrPathInUse), σ2. split; [exact Hres|].
      split; [|congruence]. split; [intros _|reflexivity]. right. right.
      rewrite Hsnoc, resolve_snoc, (dirAt_relative σ q d dp r Hq Hr). simpl.
      rewrite Hch. simpl.
      assert (Hq1 : dirAt σ root (q ++ dp) = Some r) by exact Hr.
      destruct (wf_child σ (q ++ dp) r base Hwf Hq1) as (dr & Hdr & Hc).
      destruct c as [e le]. apply child_Some in Hch as (dr0 & Hdr0 & Hc0 & He0).
      rewrite Hdr in Hdr0. inversion Hdr0; subst dr0. rewrite Hc0 in Hc.
      destruct Hc as (le0 & _ & He0' & _ & _ & _ & Hrole).
      rewrite He0 in He0'. inversion He0'; subst le0.
      unfold role in Hrole. unfold binding_of. simpl.
      destruct (Directory le), (Metric le); try contradiction; eauto.
    + exists None, σ3. split; [exact Hres|]. split.
      { split; [discriminate|]. intros [Hnil|[Hw'|[b Hb]]]; exfalso.
        - rewrite Hnil in Hsnoc. destruct dp; discriminate.
        - rewrite Hsnoc, removelast_snoc in Hw'. contradiction.
        - rewrite Hsnoc, resolve_snoc in Hb.
          destruct (dirAt σ d dp) as [r0|] eqn:Hr0; simpl in Hb; [|discriminate].
          destruct (child σ r0 base) as [c|] eqn:Hc0; simpl in Hb; [|discriminate].
          assert (Hq0 : dirAt σ root (q ++ dp) = Some r0).
          { rewrite dirAt_app, Hq. exact Hr0. }
          destruct Hext1 as (Hd1 & Hc1 & _).
          pose proof (Hd1 _ _ Hq0) as Hq1. rewrite Hr in Hq1. inversion Hq1; subst r0.
          rewrite (Hc1 _ _ _ _ Hq0 Hc0) in Hch. discriminate. }
      intros _. split; [reflexivity|]. split; [|exact Hext3].
      assert (Hq3 : dirAt σ3 root q = Some d).
      { destruct Hext3 as (Hd3 & _). auto. }
      pose proof (dirAt_relative σ3 q d dp r Hq3 Hr3) as Hdp3.
      destruct Hle as (le & Hch3 & HMetric & HDir).
      rewrite Hv in Hv'. inversion Hv'; subst v'.
      exists m. eexists. split; [|split; [exact Hm|]].
      * rewrite Hsnoc, resolve_snoc, Hdp3. simpl. rewrite Hch3. simpl.
        apply binding_of_metric. auto.
      * simpl. repeat split; auto.
        intros p1 p2 Hp Hp2.
        destruct (exists_last Hp2) as (p2' & s & ->).
        rewrite Hsnoc, app_assoc in Hp. apply app_inj_tail in Hp as [Hdp _].
        rewrite Hdp in Hdp3. apply dirAt_prefix in Hdp3 as [d1 Hd1].
        exists d1. apply resolve_directory. exact Hd1.
Qed.

Lemma RegisterMetric_refused_or_installed_witness :
  exists r σ',
    RegisterMetric root "/proc/foo" (SrcPointer GoInt) 0%N "a counter" init = Ok r σ' /\
    (r = Some ErrPathInUse <-> registration_refused init root (newPathSpec "/proc/foo")) /\
    (r <> Some ErrPathInUse ->
       r = None /\
       installed σ' root (newPathSpec "/proc/foo") "a counter" 0%N
         {| val := SrcPointer GoInt; valType := Int_;
            isValAPointer := false; isfunc := false |} /\
       extends init σ').
Proof.
  apply (RegisterMetric_refused_or_installed init root "/proc/foo"
           (SrcPointer GoInt) 0%N "a counter").
  - apply later_refl.
  - exists []. reflexivity.
  - reflexivity.
Defined.

(** C5 fails on a metric source of an unsupported type: the call panics
    once the ancestors have been walked, so it returns neither the error nor
    success, and the directory it made for the ancestor stays. *)
Lemma RegisterMetric_panics_on_unsupported_source :
  exists σ',
    RegisterMetric root "/a/b" SrcOther 0%N "" init = Panic σ' /\
    ~ registration_refused init root (newPathSpec "/a/b") /\
    (exists d, resolve σ' root ["a"] = Some (BoundDirectory d)) /\
    resolve init root ["a"] = None.
Proof.
  exists_outcome (RegisterMetric root "/a/b" SrcOther 0%N "" init).
  split; [vm_compute; reflexivity|]. split; [|split].
  - intros [Hnil|[Hw|[b Hb]]].
    + vm_compute in Hnil. discriminate.
    + revert Hw. apply metric_on_walk_empty. apply init_child.
    + vm_compute in Hb. discriminate.
  - eexists. vm_compute. reflexivity.
  - vm_compute. reflexivity.
Qed.

(** C6: on a directory of the namespace RegisterDirectory returns; it fails,
    with PathInUse, exactly when some segment along the walk is already
    bound to a metric; when it succeeds, a second call returns the same
    directory without error and leaves the store as it is; and so does any
    call on a path all of whose segments are already bound to
    directories. *)
Theorem RegisterDirectory_idempotent σ d path :
  reachable σ -> in_namespace σ d ->
  (exists r σ',
     RegisterDirectory d path σ = Ok r σ' /\
     (snd r = Some ErrPathInUse <-> metric_on_walk σ d (newPathSpec path)) /\
     (snd r <> Some ErrPathInUse ->
        exists d', r = (Some d', None) /\
                   RegisterDirectory d path σ' = Ok (Some d', None) σ')) /\
  (forall d', dirAt σ d (newPathSpec path) = Some d' ->
              RegisterDirectory d path σ = Ok (Some d', None) σ).
Proof.
  intros Hreach [q Hq]. pose proof (reachable_wf σ Hreach) as Hwf.
  unfold RegisterDirectory. set (p := newPathSpec path).
  assert (Hidem : forall σ0 d', wf σ0 -> dirAt σ0 root q = Some d ->
            dirAt σ0 d p = Some d' ->
            registerDirectory d p σ0 = Ok (Some d', None) σ0).
  { intros σ0 d' Hwf0 Hq0 Hp0.
    destruct (registerDirectory_spec p σ0 q d Hwf0 Hq0 (newPathSpec_segments path))
      as [[Hw _]|(_ & r & σ' & Hreg & _ & Hr & Hext & Hsame & _)].
    - exfalso. eapply dirAt_not_on_walk; eauto.
    - rewrite (Hsame d' Hp0) in *. rewrite dirAt_app, Hq0 in Hr. simpl in Hr.
      rewrite Hp0 in Hr. inversion Hr; subst r. exact Hreg. }
  split; [|intros d' Hp; apply Hidem; auto].
  destruct (registerDirectory_spec p σ q d Hwf Hq (newPathSpec_segments path))
    as [[Hw Hreg]|(Hw & r & σ' & Hreg & Hwf' & Hr & Hext & _)].
  - exists (None, Some ErrPathInUse), σ. split; [exact Hreg|]. simpl.
    split; [tauto|congruence].
  - exists (Some r, None), σ'. split; [exact Hreg|]. simpl. split.
    + split; [discriminate|contradiction].
    + intros _. exists r. split; [reflexivity|].
      assert (Hq' : dirAt σ' root q = Some d) by (destruct Hext as (Hd & _); auto).
      apply Hidem; auto. eapply dirAt_relative; eauto.
Qed.

Lemma RegisterDirectory_idempotent_witness :
  (exists r σ',
     RegisterDirectory root "/proc/foo" init = Ok r σ' /\
     (snd r = Some ErrPathInUse <-> metric_on_walk init root (newPathSpec "/proc/foo")) /\
     (snd r <> Some ErrPathInUse ->
        exists d', r = (Some d', None) /\
                   RegisterDirectory root "/proc/foo" σ' = Ok (Some d', None) σ')) /\
  (forall d', dirAt init root (newPathSpec "/proc/foo") = Some d' ->
              RegisterDirectory root "/proc/foo" init = Ok (Some d', None) init).
Proof.
  apply (RegisterDirectory_idempotent init root "/proc/foo").
  - apply later_refl.
  - exists []. reflexivity.
Defined.

(** C9, as amended: a RegisterMetric call that returns an error leaves the
    namespace, its directories and entries, exactly as it was: a walk that
    is refused has made no directory. *)
Theorem refused_registration_is_atomic σ d path spec unit description err σ' :
  reachable σ -> in_namespace σ d ->
  RegisterMetric d path spec unit description σ = Ok (Some err) σ' ->
  namespace σ' = namespace σ.
Proof. apply refused_registration_namespace. Qed.

Lemma refused_registration_is_atomic_witness :
  exists σ σ',
    RegisterMetric root "/proc/foo" (SrcPointer GoInt) 0%N "" init = Ok None σ /\
    RegisterMetric root "/proc/foo/bar/baz" (SrcPointer GoInt) 0%N "" σ
      = Ok (Some ErrPathInUse) σ' /\
    namespace σ' = namespace σ.
Proof.
  exists_store (RegisterMetric root "/proc/foo" (SrcPointer GoInt) 0%N "" init).
  match goal with |- exists σ', ?c = _ /\ _ => exists_store c end.
  split; [vm_compute; reflexivity|]. split; [vm_compute; reflexivity|].
  match goal with |- namespace ?σ' = namespace ?σ =>
    apply (refused_registration_is_atomic σ root "/proc/foo/bar/baz"
             (SrcPointer GoInt) 0%N "" ErrPathInUse σ')
  end.
  - apply (later_RegisterMetric init init root "/proc/foo" (SrcPointer GoInt)
             0%N "" None).
    + apply later_refl.
    + exists []. reflexivity.
    + vm_compute. reflexivity.
  - exists []. reflexivity.
  - vm_compute. reflexivity.
Defined.

(** C9 fails: no state and path are such that RegisterMetric returns the
    PathInUse error and leaves a namespace that differs from the one
    before. *)
Lemma no_refused_registration_changes_namespace :
  ~ exists σ d path spec unit description σ',
      reachable σ /\ in_namespace σ d /\
      RegisterMetric d path spec unit description σ = Ok (Some ErrPathInUse) σ' /\
      namespace σ' <> namespace σ.
Proof.
  intros (σ & d & path & spec & unit & description & σ' & Hreach & Hd & Hcall & Hne).
  apply Hne. eapply refused_registration_namespace; eauto.
Qed.

(** C10: for every directory and every path string that parses to the
    empty segment sequence, as the strings [""], ["/"] and ["//"] do,
    GetMetric returns nil, GetDirectory returns the directory itself and
    GetDirectoryOrMetric returns the directory and no metric, each leaving
    the store as it is. *)
Theorem lookups_of_the_empty_path σ d path :
  newPathSpec path = [] ->
  GetMetric d path σ = Ok None σ /\
  GetDirectory d path σ = Ok (Some d) σ /\
  GetDirectoryOrMetric d path σ = Ok (Some d, None) σ /\
  newPathSpec "" = [] /\ newPathSpec "/" = [] /\ newPathSpec "//" = [].
Proof.
  intros Hp. unfold GetMetric, GetDirectory, GetDirectoryOrMetric.
  rewrite Hp. repeat split.
Qed.

Lemma lookups_of_the_empty_path_witness :
  GetMetric root "//" init = Ok None init /\
  GetDirectory root "//" init = Ok (Some root) init /\
  GetDirectoryOrMetric root "//" init = Ok (Some root, None) init /\
  newPathSpec "" = [] /\ newPathSpec "/" = [] /\ newPathSpec "//" = [].
Proof.
  apply (lookups_of_the_empty_path init root "//"). reflexivity.
Defined.

(** C7: a metric registered with success, through the directory at [q] and
    under the path string [path], is found again by GetMetric under the
    absolute path P, the segments from the root joined by and prefixed with
    a slash, in every later state of the namespace, and its AbsPath is P;
    the AbsPath of the root directory is the slash alone.  [fuel] bounds
    the walk up the parent pointers: the length of the path is enough. *)
Theorem AbsPath_round_trip σ0 q d path spec unit description σ1 σ :
  reachable σ0 -> dirAt σ0 root q = Some d ->
  RegisterMetric d path spec unit description σ0 = Ok None σ1 ->
  later σ1 σ ->
  exists m,
    GetMetric root (absolute (q ++ newPathSpec path)) σ = Ok (Some m) σ /\
    (forall fuel, length (q ++ newPathSpec path) <= fuel ->
       metric_AbsPath fuel m σ = Ok (absolute (q ++ newPathSpec path)) σ) /\
    (forall fuel, directory_AbsPath fuel root σ = Ok "/" σ).
Proof.
  intros Hreach Hq Hreg Hlater. pose proof (reachable_wf σ0 Hreach) as Hwf0.
  destruct (registered_metric_bound σ0 q d (newPathSpec path) spec unit description σ1
              Hwf0 Hq (newPathSpec_segments path) Hreg) as (Hwf1 & m & Hres).
  destruct (later_wf σ1 σ Hwf1 Hlater) as (Hwf & Hext).
  exists m. pose proof (extends_resolve σ1 σ _ _ Hext Hres) as Hres'.
  destruct (AbsPath_of_bound_metric σ _ m Hwf Hres') as (Hget & Habs).
  split; [exact Hget|]. split; [exact Habs|].
  intros fuel. apply directory_AbsPath_root, Hwf.
Qed.

Lemma AbsPath_round_trip_witness :
  exists σ1,
    RegisterMetric root "/proc/foo" (SrcPointer GoInt) 0%N "" init = Ok None σ1 /\
    exists m,
      GetMetric root "/proc/foo" σ1 = Ok (Some m) σ1 /\
      (forall fuel, 2 <= fuel -> metric_AbsPath fuel m σ1 = Ok "/proc/foo" σ1) /\
      (forall fuel, directory_AbsPath fuel root σ1 = Ok "/" σ1).
Proof.
  exists_store (RegisterMetric root "/proc/foo" (SrcPointer GoInt) 0%N "" init).
  split; [vm_compute; reflexivity|].
  match goal with |- exists m, GetMetric _ _ ?σ1 = _ /\ _ =>
    apply (AbsPath_round_trip init [] root "/proc/foo" (SrcPointer GoInt) 0%N ""
             σ1 σ1)
  end.
  - apply later_refl.
  - reflexivity.
  - vm_compute. reflexivity.
  - apply later_refl.
Defined.

(** C8, as amended: GetAllMetrics, given fuel for the depth of the tree,
    returns, and what it hands to the collector is the list [L] of the
    metrics bound below the directory, each once and no directory among
    them, in the order of their paths compared segment by segment, which is
    the depth-first order with the children of every directory by
    ascending name (and not the order of the path strings); the collector is
    called on them in turn until it returns an error, and then that error is
    returned at once, with the collector as that call left it. *)
Theorem GetAllMetrics_delivers_sorted_leaves σ d :
  reachable σ -> in_namespace σ d ->
  exists L : list (pathSpec * addr),
    (forall p m, (p, m) ∈ L <-> resolve σ d p = Some (BoundMetric m)) /\
    StronglySorted path_lt (map fst L) /\
    (exists fuel0, forall fuel C (collector : metricsCollector C) c,
       fuel0 <= fuel ->
       GetAllMetrics fuel d collector c σ
       = Ok (deliver collector σ (map snd L) c) σ) /\
    (forall C (collector : metricsCollector C) c L1 m L2 c1 c2 err,
       map snd L = L1 ++ m :: L2 ->
       deliver collector σ L1 c = (None, c1) ->
       collector σ (Some m) c1 = (c2, Some err) ->
       deliver collector σ (map snd L) c = (Some err, c2)).
Proof.
  intros Hreach [q Hq]. pose proof (reachable_wf σ Hreach) as Hwf.
  destruct (wf_depth σ Hwf) as [n Hn].
  exists (leaves (S n) σ d).
  split; [|split; [|split]].
  - intros p m. apply (leaves_elem σ n Hwf Hn (S n) q d); [exact Hq|lia].
  - apply (leaves_sorted σ n Hwf Hn (S n) q d); [exact Hq|lia].
  - exists (S n). intros fuel C collector c Hfuel.
    rewrite (leaves_fuel σ n Hwf Hn (S n) fuel q d Hq) by lia.
    apply (GetAllMetrics_spec collector σ n Hwf Hn fuel q d c Hq). lia.
  - intros C collector c L1 m L2 c1 c2 err -> H1 Hm.
    rewrite deliver_app, H1. cbn [deliver]. rewrite Hm. reflexivity.
Qed.

Lemma GetAllMetrics_delivers_sorted_leaves_witness :
  exists σ1 σ2 σ3,
    RegisterMetric root "/b/x" (SrcPointer GoInt) 0%N "" init = Ok None σ1 /\
    RegisterMetric root "/a" (SrcPointer GoInt) 0%N "" σ1 = Ok None σ2 /\
    RegisterMetric root "/b/c" (SrcPointer GoInt) 0%N "" σ2 = Ok None σ3 /\
    exists L : list (pathSpec * addr),
      (forall p m, (p, m) ∈ L <-> resolve σ3 root p = Some (BoundMetric m)) /\
      StronglySorted path_lt (map fst L) /\
      (exists fuel0, forall fuel C (collector : metricsCollector C) c,
         fuel0 <= fuel ->
         GetAllMetrics fuel root collector c σ3
         = Ok (deliver collector σ3 (map snd L) c) σ3) /\
      (forall C (collector : metricsCollector C) c L1 m L2 c1 c2 err,
         map snd L = L1 ++ m :: L2 ->
         deliver collector σ3 L1 c = (None, c1) ->
         collector σ3 (Some m) c1 = (c2, Some err) ->
         deliver collector σ3 (map snd L) c = (Some err, c2)).
Proof.
  exists_store (RegisterMetric root "/b/x" (SrcPointer GoInt) 0%N "" init).
  match goal with |- exists σ2 σ3, _ /\ ?c = _ /\ _ => exists_store c end.
  match goal with |- exists σ3, _ /\ _ /\ ?c = _ /\ _ => exists_store c end.
  match goal with
  | |- ?c1 = Ok None ?σ1 /\ ?c2 = Ok None ?σ2 /\ ?c3 = Ok None ?σ3 /\ _ =>
      assert (H1 : c1 = Ok None σ1) by by_evaluation;
      assert (H2 : c2 = Ok None σ2) by by_evaluation;
      assert (H3 : c3 = Ok None σ3) by by_evaluation;
      assert (Hroot : forall σ, in_namespace σ root) by (intros σ; exists []; reflexivity);
      pose proof (later_RegisterMetric init _ _ _ _ _ _ _ _
                    (later_refl init) (Hroot _) H1) as R1;
      pose proof (later_RegisterMetric init _ _ _ _ _ _ _ _ R1 (Hroot _) H2) as R2;
      pose proof (later_RegisterMetric init _ _ _ _ _ _ _ _ R2 (Hroot _) H3) as R3;
      split; [exact H1|]; split; [exact H2|]; split; [exact H3|];
      exact (GetAllMetrics_delivers_sorted_leaves σ3 root R3 (Hroot σ3))
  end.
Defined.

(** C8 as first stated fails: the delivered sequence is not the sorted
    list of the metric paths.  After the registrations /a-b/x and /a/x the
    metric with AbsPath /a/x is delivered before the one with AbsPath
    /a-b/x, the segment [a] being below [a-b], while the string /a-b/x is
    below /a/x (the byte of the hyphen is below that of the slash), so the
    sequence of the delivered paths is not ascending. *)
Lemma delivered_paths_not_sorted :
  exists σ1 σ2 m1 m2,
    RegisterMetric root "/a-b/x" (SrcPointer GoInt) 0%N "" init = Ok None σ1 /\
    RegisterMetric root "/a/x" (SrcPointer GoInt) 0%N "" σ1 = Ok None σ2 /\
    GetAllMetrics 3 root (fun _ m c => (c ++ [m], None)) [] σ2
    = Ok (None, [Some m1; Some m2]) σ2 /\
    metric_AbsPath 2 m1 σ2 = Ok "/a/x" σ2 /\
    metric_AbsPath 2 m2 σ2 = Ok "/a-b/x" σ2 /\
    String.ltb "/a-b/x" "/a/x" = true /\
    ~ StronglySorted (fun p q : string => String.ltb p q = true) ["/a/x"; "/a-b/x"].
Proof.
  exists_store (RegisterMetric root "/a-b/x" (SrcPointer GoInt) 0%N "" init).
  match goal with |- exists σ2 _ _, _ /\ ?c = _ /\ _ => exists_store c end.
  match goal with |- exists _ _, _ /\ _ /\ ?c = _ /\ _ =>
    let v := eval vm_compute in c in
    match v with Ok (_, [Some ?m1; Some ?m2]) _ => exists m1, m2 end
  end.
  split; [by_evaluation|]. split; [by_evaluation|]. split; [by_evaluation|].
  split; [by_evaluation|]. split; [by_evaluation|]. split; [reflexivity|].
  intros Hsorted. inversion Hsorted as [|? ? _ Hall]; subst.
  inversion Hall as [|? ? Hlt _]; subst. vm_compute in Hlt. discriminate.
Qed.

(** The registrations /b/x, /a, /b/c are delivered as /a, /b/c, /b/x, and a
    collector that fails on /b/c is not handed /b/x. *)
Example GetAllMetrics_in_name_order :
  exists σ1 σ2 σ3 m_bx m_a m_bc,
    RegisterMetric root "/b/x" (SrcPointer GoInt) 0%N "" init = Ok None σ1 /\
    RegisterMetric root "/a" (SrcPointer GoInt) 0%N "" σ1 = Ok None σ2 /\
    RegisterMetric root "/b/c" (SrcPointer GoInt) 0%N "" σ2 = Ok None σ3 /\
    GetMetric root "/b/x" σ3 = Ok (Some m_bx) σ3 /\
    GetMetric root "/a" σ3 = Ok (Some m_a) σ3 /\
    GetMetric root "/b/c" σ3 = Ok (Some m_bc) σ3 /\
    GetAllMetrics 3 root (fun _ m c => (c ++ [m], None)) [] σ3
    = Ok (None, [Some m_a; Some m_bc; Some m_bx]) σ3 /\
    GetAllMetrics 3 root
      (fun _ m c => (c ++ [m], if decide (m = Some m_bc) then Some (OtherError 7) else None))
      [] σ3
    = Ok (Some (OtherError 7), [Some m_a; Some m_bc]) σ3.
Proof.
  exists_store (RegisterMetric root "/b/x" (SrcPointer GoInt) 0%N "" init).
  match goal with |- exists σ2 σ3 _ _ _, _ /\ ?c = _ /\ _ => exists_store c end.
  match goal with |- exists σ3 _ _ _, _ /\ _ /\ ?c = _ /\ _ => exists_store c end.
  match goal with |- exists _ _ _, _ /\ _ /\ _ /\ ?c1 = _ /\ ?c2 = _ /\ ?c3 = _ /\ _ =>
    let v1 := eval vm_compute in c1 in
    let v2 := eval vm_compute in c2 in
    let v3 := eval vm_compute in c3 in
    match v1 with Ok (Some ?m1) _ =>
    match v2 with Ok (Some ?m2) _ =>
    match v3 with Ok (Some ?m3) _ => exists m1, m2, m3 end end end
  end.
  repeat split; by_evaluation.
Qed.

End Registry.

(** ** The buckets of a bucketer *)

Module BucketerFacts.
Import Binary64 Binary64Facts Binary64Spec Binary64Exact DistSpec DistBinary64Spec BucketerSpec.
Local Open Scope Z_scope.

Lemma stream_iter_length n : forall (c : float64) next,
  length (Dist.stream_iter n c next) = n.
Proof. induction n as [|n IH]; intros c next; simpl; [reflexivity|]. rewrite IH. reflexivity. Qed.

Lemma newBucketerFromStream_pieces n (stream : list float64) b :
  Dist.newBucketerFromStream (n, stream) = Some b ->
  stream <> [] /\ Z.of_nat (length stream) = n /\ Dist.b_pieces b = pieces_of stream.
Proof.
  unfold Dist.newBucketerFromStream.
  destruct (n <? 1); [discriminate|].
  destruct (Z.eqb_spec (Z.of_nat (length stream)) n) as [Hn|Hn]; [|discriminate].
  destruct stream as [|lower rest]; [discriminate|]. cbn [negb].
  intros Hb. injection Hb as <-. split; [discriminate|]. split; [exact Hn|reflexivity].
Qed.

(** Every bucketer is the pieces between some cut points. *)
Lemma constructed_pieces b :
  constructed b ->
  exists cuts, cuts <> [] /\ Z.of_nat (length cuts) < 2 ^ 63 - 1 /\
               Dist.b_pieces b = pieces_of cuts.
Proof.
  intros [(count & start & scale & Hc & Hb)|[(count & start & inc & Hc & Hb)|(es & Hes & Hb)]].
  - unfold Dist.NewExponentialBucketer, Dist.newExponentialBucketerStream in Hb.
    destruct ((count <? 2) || f_le start f_zero || f_le scale f_one); [discriminate|].
    cbn [mbind option_bind] in Hb.
    apply newBucketerFromStream_pieces in Hb as (Hne & Hlen & Hps).
    eexists. split; [exact Hne|]. split; [|exact Hps]. lia.
  - unfold Dist.NewLinearBucketer, Dist.newLinearBucketerStream in Hb.
    destruct ((count <? 2) || f_le inc f_zero); [discriminate|].
    cbn [mbind option_bind] in Hb.
    apply newBucketerFromStream_pieces in Hb as (Hne & Hlen & Hps).
    eexists. split; [exact Hne|]. split; [|exact Hps]. lia.
  - destruct (PiecesFacts.NewArbitraryBucketer_pieces_of es b Hb Hes) as [Hne Hps].
    exists es. auto.
Qed.

Lemma constructed_length b :
  constructed b -> 2 <= Z.of_nat (length (Dist.b_pieces b)) < 2 ^ 63.
Proof.
  intros Hb. destruct (constructed_pieces b Hb) as (cuts & Hne & Hlen & ->).
  rewrite PiecesFacts.pieces_of_length by exact Hne.
  destruct cuts; [congruence|]. simpl in *. lia.
Qed.

Lemma pieces_from_flags rest : forall (lower : float64) i p,
  Dist.pieces_from lower rest !! i = Some p ->
  Dist.First p = false /\ Dist.Last p = Nat.eqb i (length rest).
Proof.
  induction rest as [|u rest IH]; intros lower [|i] p Hp; simpl in Hp.
  - injection Hp as <-. auto.
  - destruct i; discriminate.
  - injection Hp as <-. auto.
  - apply IH in Hp. exact Hp.
Qed.

Lemma pieces_from_head rest (lower : float64) :
  exists p, Dist.pieces_from lower rest !! 0%nat = Some p /\ Dist.Start p = lower.
Proof. destruct rest; eexists; split; reflexivity. Qed.

Lemma pieces_from_adjacent rest : forall (lower : float64) i p q,
  Dist.pieces_from lower rest !! i = Some p ->
  Dist.pieces_from lower rest !! S i = Some q ->
  Dist.End_ p = Dist.Start q.
Proof.
  induction rest as [|u rest IH]; intros lower [|i] p q Hp Hq; simpl in Hp, Hq.
  - discriminate.
  - destruct i; discriminate.
  - injection Hp as <-. destruct (pieces_from_head rest u) as (q' & Hq' & Hs).
    rewrite Hq in Hq'. injection Hq' as <-. simpl. congruence.
  - eapply IH; eauto.
Qed.

Lemma pieces_of_side_by_side (cuts : list float64) :
  cuts <> [] -> side_by_side (pieces_of cuts).
Proof.
  destruct cuts as [|e rest]; [congruence|]. intros _. split.
  - intros [|i] p Hp; simpl in Hp.
    + injection Hp as <-. simpl. rewrite DistFacts.pieces_from_length. auto.
    + apply pieces_from_flags in Hp as [HF HL]. simpl.
      rewrite DistFacts.pieces_from_length. auto.
  - intros [|i] p q Hp Hq; simpl in Hp, Hq.
    + injection Hp as <-. destruct (pieces_from_head rest e) as (q' & Hq' & Hs).
      rewrite Hq in Hq'. injection Hq' as <-. simpl. congruence.
    + eapply pieces_from_adjacent; eauto.
Qed.

(** The distributions of the package: [Add] calls on a fresh one. *)
Lemma constructed_counted b :
  constructed b -> counted 0 (Dist.newDistribution b).
Proof.
  intros Hb. apply DistFacts.newDistribution_counted.
  pose proof (constructed_length b Hb). lia.
Qed.

Lemma AddAll_returns b (xs : list float64) :
  constructed b -> Z.of_nat (length xs) < 2 ^ 64 ->
  exists d, Dist.AddAll (Dist.newDistribution b) xs = Some d /\
            counted (Z.of_nat (length xs)) d /\ Dist.pieces d = Dist.b_pieces b.
Proof.
  intros Hb Hxs.
  destruct (DistFacts.AddAll_counted xs 0 _ (constructed_counted b Hb) ltac:(lia) ltac:(lia))
    as (d & Hd & Hc & Hp).
  exists d. auto.
Qed.


(** The cut points of a piece that is not the last. *)
Lemma pieces_of_cut (cuts : list float64) i p :
  pieces_of cuts !! i = Some p -> Dist.Last p = false ->
  cuts !! i = Some (Dist.End_ p).
Proof.
  intros Hp HL. destruct cuts as [|e rest]; [discriminate|].
  destruct (pieces_of_side_by_side (e :: rest) ltac:(discriminate)) as [Hflags _].
  destruct (Hflags i p Hp) as [_ HLast]. rewrite HL in HLast.
  pose proof (lookup_lt_Some _ _ _ Hp) as Hi.
  rewrite PiecesFacts.pieces_of_length in Hi, HLast by discriminate.
  symmetry in HLast. apply Nat.eqb_neq in HLast.
  destruct (lookup_lt_is_Some_2 (e :: rest) i ltac:(lia)) as [c Hc].
  destruct (PiecesFacts.pieces_of_End (e :: rest) i c Hc) as (p' & Hp' & HE).
  rewrite Hp in Hp'. injection Hp' as <-. rewrite HE. exact Hc.
Qed.

Lemma stream_iter_next n : forall (c : float64) next i a a',
  Dist.stream_iter n c next !! i = Some a ->
  Dist.stream_iter n c next !! S i = Some a' ->
  a' = next a.
Proof.
  induction n as [|n IH]; intros c next i a a' Ha Ha'; [discriminate|].
  destruct i as [|i]; simpl in Ha, Ha'.
  - injection Ha as <-. destruct n; [discriminate|]. simpl in Ha'. congruence.
  - eapply IH; eauto.
Qed.

(** The bucketer made from the stream [c, next c, next (next c), ...]. *)
Lemma stream_bucketer n (c : float64) next :
  1 <= n ->
  exists b,
    Dist.newBucketerFromStream (n, Dist.stream_iter (Z.to_nat n) c next) = Some b /\
    Z.of_nat (length (Dist.b_pieces b)) = n + 1 /\
    (exists p, Dist.b_pieces b !! 0%nat = Some p /\ Dist.End_ p = c) /\
    (forall i p q, Dist.b_pieces b !! i = Some p -> Dist.b_pieces b !! S i = Some q ->
       Dist.Last q = false -> Dist.End_ q = next (Dist.End_ p)).
Proof.
  intros Hn. unfold Dist.newBucketerFromStream.
  destruct (Z.ltb_spec n 1); [lia|].
  rewrite stream_iter_length, Z2Nat.id, Z.eqb_refl by lia. cbn [negb].
  destruct (Z.to_nat n) as [|k] eqn:Hk; [lia|]. cbn [Dist.stream_iter].
  eexists. split; [reflexivity|]. cbn [Dist.b_pieces].
  change (?first :: Dist.pieces_from c ?rest) with (pieces_of (c :: rest)).
  set (cuts := c :: Dist.stream_iter k (next c) next).
  assert (Hcuts : cuts = Dist.stream_iter (S k) c next) by reflexivity.
  assert (Hne : cuts <> []) by discriminate.
  split; [|split].
  - rewrite PiecesFacts.pieces_of_length by exact Hne.
    rewrite Hcuts, stream_iter_length. lia.
  - eexists. split; reflexivity.
  - intros i p q Hp Hq HL.
    destruct (pieces_of_side_by_side cuts Hne) as [Hflags _].
    assert (HLp : Dist.Last p = false).
    { destruct (Hflags i p Hp) as [_ ->]. apply Nat.eqb_neq.
      pose proof (lookup_lt_Some _ _ _ Hq). lia. }
    pose proof (pieces_of_cut cuts i p Hp HLp) as Hci.
    pose proof (pieces_of_cut cuts (S i) q Hq HL) as Hcq.
    rewrite Hcuts in Hci, Hcq. eapply stream_iter_next; eauto.
Qed.

(** *** What [Add] does to the counts *)

Lemma sent_to_cons ps x xs i :
  sent_to ps (x :: xs) i =
  (if decide (Z.to_nat (Dist.findDistributionIndex ps x) = i) then 1 else 0)
  + sent_to ps xs i.
Proof.
  unfold sent_to. rewrite filter_cons. case_decide; simpl length; lia.
Qed.

Lemma AddAll_sent_to (xs : list float64) : forall n (d d' : distribution),
  counted n d -> 0 <= n -> n + Z.of_nat (length xs) < 2 ^ 64 ->
  Dist.AddAll d xs = Some d' ->
  forall i c, Dist.counts d !! i = Some c ->
              Dist.counts d' !! i = Some (c + sent_to (Dist.pieces d) xs i).
Proof.
  induction xs as [|x xs IH]; intros n d d' Hd Hn Hlen Hall i c Hc.
  - injection Hall as <-. unfold sent_to. simpl. rewrite Hc. f_equal. lia.
  - simpl in Hall, Hlen.
    destruct (DistFacts.Add_counted n d x Hd Hn ltac:(lia)) as (c0 & Hc0 & HAdd & Hd1).
    rewrite HAdd in Hall. cbn [mbind option_bind] in Hall.
    set (idx := Z.to_nat (Dist.findDistributionIndex (Dist.pieces d) x)) in *.
    assert (Hci : Dist.counts (Add_result d x idx c0) !! i
                  = Some (c + (if decide (idx = i) then 1 else 0))).
    { cbn [Add_result Dist.counts]. case_decide as Hi.
      - subst i. rewrite list_lookup_insert_eq by (eapply lookup_lt_Some; eauto).
        congruence.
      - rewrite list_lookup_insert_ne by exact Hi. rewrite Hc. f_equal. lia. }
    rewrite (IH (n + 1) _ d' Hd1 ltac:(lia) ltac:(lia) Hall i _ Hci).
    rewrite sent_to_cons. fold idx. cbn [Add_result Dist.pieces]. f_equal. lia.
Qed.

Lemma fresh_counts b (xs : list float64) d :
  constructed b -> Z.of_nat (length xs) < 2 ^ 64 ->
  Dist.AddAll (Dist.newDistribution b) xs = Some d ->
  Dist.counts d
  = map (sent_to (Dist.b_pieces b) xs) (seq 0 (length (Dist.b_pieces b))).
Proof.
  intros Hb Hxs Hd.
  destruct (AddAll_returns b xs Hb Hxs) as (d' & Hd' & Hc & Hp).
  rewrite Hd in Hd'. injection Hd' as <-.
  apply list_eq. intros i.
  destruct (decide (i < length (Dist.b_pieces b))%nat) as [Hi|Hi].
  - rewrite (AddAll_sent_to xs 0 _ d (constructed_counted b Hb) ltac:(lia) ltac:(lia) Hd i 0).
    + rewrite list_lookup_fmap, lookup_seq_lt by exact Hi. reflexivity.
    + cbn [Dist.newDistribution Dist.counts]. apply lookup_replicate_2. exact Hi.
  - rewrite !lookup_ge_None_2; [reflexivity| |].
    + rewrite length_map, length_seq. lia.
    + destruct Hc as [Hlen _ _ _ _]. rewrite Hlen, Hp. lia.
Qed.

(** *** Snapshots *)

Lemma Snapshot_returns_counted n (d : distribution) :
  counted n d -> 0 <= n < 2 ^ 52 -> exists s, Dist.Snapshot d = Some s.
Proof.
  intros Hc Hn. destruct (Z.eq_dec n 0) as [H0|H0].
  - destruct Hc as [Hlen _ _ _ Hcount]. unfold Dist.Snapshot.
    destruct (DistFacts.fill_breakdown_total _ _ Hlen) as [bdn ->]. simpl.
    rewrite Hcount, H0. simpl. eexists; reflexivity.
  - destruct (DistBinary64.calculateMedian_returns n d Hc ltac:(lia)) as [m Hm].
    eapply DistFacts.Snapshot_total; eauto.
Qed.

Lemma Snapshot_of_built b (xs : list float64) :
  constructed b -> Z.of_nat (length xs) < 2 ^ 52 ->
  exists d s,
    Dist.AddAll (Dist.newDistribution b) xs = Some d /\
    Dist.Snapshot d = Some s /\
    counted (Z.of_nat (length xs)) d /\
    Dist.Count s = Z.of_nat (length xs) /\
    map Dist.bp_piece (Dist.Breakdown s) = Dist.b_pieces b /\
    map Dist.bp_Count (Dist.Breakdown s)
    = map (sent_to (Dist.b_pieces b) xs) (seq 0 (length (Dist.b_pieces b))) /\
    (xs <> [] -> Dist.Min s = Dist.min d /\ Dist.Max s = Dist.max d).
Proof.
  intros Hb Hxs.
  destruct (AddAll_returns b xs Hb ltac:(lia)) as (d & Hd & Hc & Hp).
  destruct (Snapshot_returns_counted _ d Hc ltac:(lia)) as [s Hs].
  destruct (DistFacts.Snapshot_fields _ d s Hc Hs) as (Hcount & Hcounts & Hpieces & Hmm).
  exists d, s. split; [exact Hd|]. split; [exact Hs|]. split; [exact Hc|].
  split; [exact Hcount|]. split; [congruence|].
  split; [rewrite Hcounts; apply fresh_counts; auto; lia|].
  intros Hne. destruct Hmm as (HMin & HMax & _); [|auto].
  destruct xs; [congruence|]. simpl. lia.
Qed.

(** *** The extremes *)

Lemma built_snoc b (xs : list float64) x d :
  Dist.AddAll (Dist.newDistribution b) (xs ++ [x]) = Some d ->
  exists d0, Dist.AddAll (Dist.newDistribution b) xs = Some d0 /\ Dist.Add d0 x = Some d.
Proof.
  rewrite DistFacts.AddAll_app. intros Hd.
  destruct (Dist.AddAll (Dist.newDistribution b) xs) as [d0|]; [|discriminate].
  cbn [mbind option_bind Dist.AddAll] in Hd. exists d0. split; [reflexivity|].
  destruct (Dist.Add d0 x); [exact Hd|discriminate].
Qed.

Lemma built_between b (xs : list float64) : forall d,
  constructed b -> Z.of_nat (length xs) < 2 ^ 64 ->
  Forall (fun x => is_nan x = false) xs ->
  Dist.AddAll (Dist.newDistribution b) xs = Some d ->
  Forall (fun x => leb (Dist.min d) x = true /\ leb x (Dist.max d) = true) xs.
Proof.
  induction xs as [|x xs IH] using rev_ind; intros d Hb Hlen Hnan Hd; [constructor|].
  rewrite length_app in Hlen. simpl in Hlen.
  apply Forall_app in Hnan as [Hnan Hx]. apply Forall_inv in Hx.
  destruct (built_snoc b xs x d Hd) as (d0 & Hd0 & HAdd).
  specialize (IH d0 Hb ltac:(lia) Hnan Hd0).
  destruct (AddAll_returns b xs Hb ltac:(lia)) as (d0' & Hd0' & Hc & _).
  rewrite Hd0 in Hd0'. injection Hd0' as <-.
  destruct (DistFacts.Add_counted _ d0 x Hc ltac:(lia) ltac:(lia)) as (c & _ & HAdd' & _).
  rewrite HAdd in HAdd'. injection HAdd' as ->.
  pose proof (counted_count _ _ Hc) as Hcount.
  cbn [Add_result Dist.min Dist.max].
  destruct xs as [|x0 xs].
  - rewrite Hcount. simpl. repeat constructor; apply leb_refl; exact Hx.
  - destruct (Z.eqb_spec (Dist.count d0) 0) as [H0|_]; [simpl in Hcount; lia|].
    assert (Hmm : leb (Dist.min d0) (Dist.max d0) = true).
    { apply Forall_inv in IH as [H1 H2]. eapply leb_trans; eauto. }
    destruct (leb_not_nan _ _ Hmm) as [Hnmin Hnmax].
    cbn [f_lt ops].
    destruct (ltb x (Dist.min d0)) eqn:Hlt.
    + apply Forall_app. split.
      * eapply Forall_impl; [exact IH|]. intros y [H1 H2]. split; [|exact H2].
        eapply leb_trans; [apply ltb_leb; exact Hlt|exact H1].
      * repeat constructor; [apply leb_refl; exact Hx|].
        eapply leb_trans; [apply ltb_leb; exact Hlt|exact Hmm].
    + apply ltb_false_leb in Hlt; [|exact Hx|exact Hnmin].
      destruct (ltb (Dist.max d0) x) eqn:Hgt.
      * apply Forall_app. split.
        -- eapply Forall_impl; [exact IH|]. intros y [H1 H2]. split; [exact H1|].
           eapply leb_trans; [exact H2|apply ltb_leb; exact Hgt].
        -- repeat constructor; [exact Hlt|apply leb_refl; exact Hx].
      * apply ltb_false_leb in Hgt; [|exact Hnmax|exact Hx].
        apply Forall_app. split; [exact IH|]. repeat constructor; assumption.
Qed.

(** *** The bucket of a larger value *)

Lemma findDistributionIndex_monotone (es : list float64) x y :
  es <> [] -> Z.of_nat (length es) < 2 ^ 63 - 1 ->
  ascending es -> Forall (fun e => is_nan e = false) es ->
  leb x y = true ->
  Dist.findDistributionIndex (pieces_of es) x <= Dist.findDistributionIndex (pieces_of es) y.
Proof.
  intros Hne Hlen Hasc Hnan Hxy. destruct (leb_not_nan _ _ Hxy) as [Hx Hy].
  pose proof (DistBinary64.findDistributionIndex_bucket es x Hne Hlen Hnan Hx) as (Hbx & _ & Hlo).
  pose proof (DistBinary64.findDistributionIndex_bucket es y Hne Hlen Hnan Hy) as (Hby & Hhi & _).
  assert (Hps : 1 <= Z.of_nat (length (pieces_of es)) < 2 ^ 63).
  { rewrite PiecesFacts.pieces_of_length by exact Hne. lia. }
  pose proof (DistFacts.findDistributionIndex_range (pieces_of es) x Hps) as Hrx.
  pose proof (DistFacts.findDistributionIndex_range (pieces_of es) y Hps) as Hry.
  set (bx := Dist.findDistributionIndex (pieces_of es) x) in *.
  set (by_ := Dist.findDistributionIndex (pieces_of es) y) in *.
  destruct (Z_le_gt_dec bx by_) as [Hle|Hgt]; [exact Hle|exfalso].
  destruct (Z.to_nat bx) as [|b'] eqn:Hb'; [lia|].
  destruct (lookup_lt_is_Some_2 es b' ltac:(lia)) as [e' He'].
  destruct (lookup_lt_is_Some_2 es (Z.to_nat by_) ltac:(lia)) as [e He].
  pose proof (Hlo b' e' eq_refl He') as He'x.
  pose proof (Hhi e He) as Hye.
  assert (Hye' : ltb y e' = true).
  { destruct (decide (Z.to_nat by_ = b')) as [Heq|Hneq].
    - rewrite Heq in He. congruence.
    - eapply ltb_trans; [exact Hye|].
      eapply (DistBinary64.ascending_lookup es (Z.to_nat by_) b'); eauto. lia. }
  assert (He'y : leb e' y = true) by (eapply leb_trans; eauto).
  rewrite (leb_ltb_false y e' He'y) in Hye'. discriminate.
Qed.

End BucketerFacts.

(** ** Distributions over the buckets of a bucketer *)

Module Distributions.
Import Binary64 Binary64Facts DistSpec DistBinary64Spec BucketerSpec BucketerFacts.
Local Open Scope Z_scope.

Lemma fill_breakdown_fresh (ps : list bucketPiece) :
  Dist.fill_breakdown ps (replicate (length ps) 0)
  = Some (map (fun p => {| Dist.bp_piece := p; Dist.bp_Count := 0 |}) ps).
Proof.
  induction ps as [|p ps IH]; [reflexivity|]. simpl. rewrite IH. reflexivity.
Qed.

(** The pieces of every bucketer the package makes lie side by side: at
    least two, the first flagged First, the last flagged Last, no other
    flagged, and each ending where the next starts. *)
Theorem Bucketer_pieces_side_by_side b :
  constructed b ->
  2 <= Z.of_nat (length (Dist.b_pieces b)) < 2 ^ 63 /\
  side_by_side (Dist.b_pieces b).
Proof.
  intros Hb. split; [apply constructed_length, Hb|].
  destruct (constructed_pieces b Hb) as (cuts & Hne & _ & ->).
  apply pieces_of_side_by_side, Hne.
Qed.

Lemma Bucketer_pieces_side_by_side_witness :
  exists b,
    Dist.NewExponentialBucketer 6 (of_Z 10) (div (of_Z 5) (of_Z 2)) = Some b /\
    2 <= Z.of_nat (length (Dist.b_pieces b)) < 2 ^ 63 /\
    side_by_side (Dist.b_pieces b).
Proof.
  exists_value (Dist.NewExponentialBucketer 6 (of_Z 10) (div (of_Z 5) (of_Z 2))).
  split; [by_evaluation|].
  apply Bucketer_pieces_side_by_side.
  left. exists 6, (of_Z 10), (div (of_Z 5) (of_Z 2)). split; [reflexivity|by_evaluation].
Defined.

(** NewLinearBucketer panics when [count < 2] or [increment <= 0];
    whenever it returns a bucketer, neither is so, the bucketer has [count]
    pieces, the first ends at [start], and every later cut point is the one
    before plus [increment], added in float64. *)
Theorem NewLinearBucketer_buckets count (start increment : float64) :
  (count < 2 \/ leb increment (S754_zero false) = true ->
   Dist.NewLinearBucketer count start increment = None) /\
  (forall b, Dist.NewLinearBucketer count start increment = Some b ->
     2 <= count /\ leb increment (S754_zero false) = false /\
     Z.of_nat (length (Dist.b_pieces b)) = count /\
     (exists p, Dist.b_pieces b !! 0%nat = Some p /\ Dist.End_ p = start) /\
     (forall i p q,
        Dist.b_pieces b !! i = Some p -> Dist.b_pieces b !! S i = Some q ->
        Dist.Last q = false -> Dist.End_ q = add (Dist.End_ p) increment)).
Proof.
  unfold Dist.NewLinearBucketer, Dist.newLinearBucketerStream.
  cbn [f_le f_zero f_add ops].
  destruct (Z.ltb_spec count 2) as [Hc|Hc]; cbn [orb].
  { split; [reflexivity|discriminate]. }
  destruct (leb increment (S754_zero false)) eqn:Hi.
  { split; [reflexivity|discriminate]. }
  cbn [mbind option_bind].
  destruct (stream_bucketer (count - 1) start (fun c => add c increment) ltac:(lia))
    as (b & Hb & Hlen & Hfirst & Hnext).
  rewrite Hb. split.
  - intros [?|?]; [lia|discriminate].
  - intros b' Hb'. injection Hb' as <-. split; [exact Hc|]. split; [reflexivity|].
    split; [lia|]. split; [exact Hfirst|exact Hnext].
Qed.

(** NewExponentialBucketer panics when [count < 2], [start <= 0] or
    [scale <= 1]; whenever it returns a bucketer, none of these is so, the
    bucketer has [count] pieces, the first ends at [start], and every later
    cut point is the one before times [scale], multiplied in float64. *)
Theorem NewExponentialBucketer_buckets count (start scale : float64) :
  (count < 2 \/ leb start (S754_zero false) = true \/ leb scale (of_Z 1) = true ->
   Dist.NewExponentialBucketer count start scale = None) /\
  (forall b, Dist.NewExponentialBucketer count start scale = Some b ->
     2 <= count /\ leb start (S754_zero false) = false /\
     leb scale (of_Z 1) = false /\
     Z.of_nat (length (Dist.b_pieces b)) = count /\
     (exists p, Dist.b_pieces b !! 0%nat = Some p /\ Dist.End_ p = start) /\
     (forall i p q,
        Dist.b_pieces b !! i = Some p -> Dist.b_pieces b !! S i = Some q ->
        Dist.Last q = false -> Dist.End_ q = mul (Dist.End_ p) scale)).
Proof.
  unfold Dist.NewExponentialBucketer, Dist.newExponentialBucketerStream.
  cbn [f_le f_zero f_one f_mul ops].
  destruct (Z.ltb_spec count 2) as [Hc|Hc]; cbn [orb].
  { split; [reflexivity|discriminate]. }
  destruct (leb start (S754_zero false)) eqn:Hs; cbn [orb].
  { split; [reflexivity|discriminate]. }
  destruct (leb scale (of_Z 1)) eqn:Hi.
  { split; [reflexivity|discriminate]. }
  cbn [mbind option_bind].
  destruct (stream_bucketer (count - 1) start (fun c => mul c scale) ltac:(lia))
    as (b & Hb & Hlen & Hfirst & Hnext).
  rewrite Hb. split.
  - intros [?|[?|?]]; [lia|discriminate|discriminate].
  - intros b' Hb'. injection Hb' as <-. split; [exact Hc|].
    split; [reflexivity|]. split; [reflexivity|].
    split; [lia|]. split; [exact Hfirst|exact Hnext].
Qed.

(** Fewer than [2^64] Add calls on a fresh distribution, whatever the
    values (NaN and the infinities among them), all return; they leave the
    pieces as they are, and the count of bucket [i] is the number of values
    the binary search sent to [i]. *)
Theorem Adds_count_in_buckets b (xs : list float64) :
  constructed b -> Z.of_nat (length xs) < 2 ^ 64 ->
  exists d,
    Dist.AddAll (Dist.newDistribution b) xs = Some d /\
    Dist.pieces d = Dist.b_pieces b /\
    Dist.count d = Z.of_nat (length xs) /\
    Dist.counts d
    = map (sent_to (Dist.b_pieces b) xs) (seq 0 (length (Dist.b_pieces b))).
Proof.
  intros Hb Hxs. destruct (AddAll_returns b xs Hb Hxs) as (d & Hd & Hc & Hp).
  exists d. split; [exact Hd|]. split; [exact Hp|]. split; [apply Hc|].
  apply fresh_counts; auto.
Qed.

Lemma Adds_count_in_buckets_witness :
  exists b d,
    Dist.NewArbitraryBucketer [of_Z 10; of_Z 22; of_Z 50] = Some b /\
    Dist.AddAll (Dist.newDistribution b) [of_Z 3; NaN; of_Z 22; PosInf] = Some d /\
    Dist.pieces d = Dist.b_pieces b /\
    Dist.count d = 4 /\
    Dist.counts d
    = map (sent_to (Dist.b_pieces b) [of_Z 3; NaN; of_Z 22; PosInf])
          (seq 0 (length (Dist.b_pieces b))).
Proof.
  exists_value (Dist.NewArbitraryBucketer [of_Z 10; of_Z 22; of_Z 50]).
  match goal with |- exists d, ?B /\ _ =>
    assert (Hb : B) by by_evaluation
  end.
  destruct (Adds_count_in_buckets _ [of_Z 3; NaN; of_Z 22; PosInf]
              (or_intror (or_intror (ex_intro _ [of_Z 10; of_Z 22; of_Z 50]
                                       (conj eq_refl Hb))))
              eq_refl) as (d & Hd & Hrest).
  exists d. split; [exact Hb|]. split; [exact Hd|]. exact Hrest.
Defined.

(** After fewer than [2^52] Add calls on a fresh distribution Snapshot
    returns; its breakdown lists the pieces of the bucketer in their order,
    each with the number of values sent to it, and its Count is the number
    of calls. *)
Theorem Snapshot_breakdown_counts b (xs : list float64) :
  constructed b -> Z.of_nat (length xs) < 2 ^ 52 ->
  exists d s,
    Dist.AddAll (Dist.newDistribution b) xs = Some d /\
    Dist.Snapshot d = Some s /\
    Dist.Count s = Z.of_nat (length xs) /\
    map Dist.bp_piece (Dist.Breakdown s) = Dist.b_pieces b /\
    map Dist.bp_Count (Dist.Breakdown s)
    = map (sent_to (Dist.b_pieces b) xs) (seq 0 (length (Dist.b_pieces b))).
Proof.
  intros Hb Hxs.
  destruct (Snapshot_of_built b xs Hb Hxs) as (d & s & Hd & Hs & _ & Hn & Hp & Hc & _).
  exists d, s. auto.
Qed.

Lemma Snapshot_breakdown_counts_witness :
  exists b d s,
    Dist.NewLinearBucketer 3 (of_Z 12) (of_Z 5) = Some b /\
    Dist.AddAll (Dist.newDistribution b) [of_Z 3; of_Z 13; of_Z 14] = Some d /\
    Dist.Snapshot d = Some s /\
    Dist.Count s = 3 /\
    map Dist.bp_piece (Dist.Breakdown s) = Dist.b_pieces b /\
    map Dist.bp_Count (Dist.Breakdown s)
    = map (sent_to (Dist.b_pieces b) [of_Z 3; of_Z 13; of_Z 14])
          (seq 0 (length (Dist.b_pieces b))).
Proof.
  exists_value (Dist.NewLinearBucketer 3 (of_Z 12) (of_Z 5)).
  match goal with |- exists d s, ?B /\ _ =>
    assert (Hb : B) by by_evaluation
  end.
  destruct (Snapshot_breakdown_counts _ [of_Z 3; of_Z 13; of_Z 14]
              (or_intror (or_introl (ex_intro _ 3 (ex_intro _ (of_Z 12)
                 (ex_intro _ (of_Z 5) (conj eq_refl Hb))))))
              eq_refl) as (d & s & Hd & Hs & Hrest).
  exists d, s. split; [exact Hb|]. split; [exact Hd|]. split; [exact Hs|]. exact Hrest.
Defined.

(** When none of the values added is NaN, the Min of the snapshot is below
    or equal to every value added and its Max above or equal to every one
    of them. *)
Theorem Snapshot_extremes_bound_every_value b (xs : list float64) :
  constructed b -> Z.of_nat (length xs) < 2 ^ 52 -> xs <> [] ->
  Forall (fun x => is_nan x = false) xs ->
  exists d s,
    Dist.AddAll (Dist.newDistribution b) xs = Some d /\
    Dist.Snapshot d = Some s /\
    Forall (fun x => leb (Dist.Min s) x = true /\ leb x (Dist.Max s) = true) xs.
Proof.
  intros Hb Hxs Hne Hnan.
  destruct (Snapshot_of_built b xs Hb Hxs) as (d & s & Hd & Hs & _ & _ & _ & _ & Hmm).
  destruct (Hmm Hne) as [HMin HMax].
  exists d, s. split; [exact Hd|]. split; [exact Hs|]. rewrite HMin, HMax.
  apply (built_between b xs d Hb ltac:(lia) Hnan Hd).
Qed.

Lemma Snapshot_extremes_bound_every_value_witness :
  exists b d s,
    Dist.NewArbitraryBucketer [of_Z 10; of_Z 22; of_Z 50] = Some b /\
    Dist.AddAll (Dist.newDistribution b) [of_Z 30; of_Z 3; NegInf; of_Z 70] = Some d /\
    Dist.Snapshot d = Some s /\
    Forall (fun x => leb (Dist.Min s) x = true /\ leb x (Dist.Max s) = true)
           [of_Z 30; of_Z 3; NegInf; of_Z 70].
Proof.
  exists_value (Dist.NewArbitraryBucketer [of_Z 10; of_Z 22; of_Z 50]).
  match goal with |- exists d s, ?B /\ _ =>
    assert (Hb : B) by by_evaluation
  end.
  destruct (Snapshot_extremes_bound_every_value _ [of_Z 30; of_Z 3; NegInf; of_Z 70]
              (or_intror (or_intror (ex_intro _ [of_Z 10; of_Z 22; of_Z 50]
                                       (conj eq_refl Hb))))
              eq_refl ltac:(discriminate)
              ltac:(repeat constructor))
    as (d & s & Hd & Hs & Hrest).
  exists d, s. split; [exact Hb|]. split; [exact Hd|]. split; [exact Hs|]. exact Hrest.
Defined.

(** After a single Add of [x], whatever [x] is, the snapshot has Count 1
    and Min, Max and Median all equal to [x]. *)
Theorem Snapshot_of_single_value b (x : float64) :
  constructed b ->
  exists d s,
    Dist.AddAll (Dist.newDistribution b) [x] = Some d /\
    Dist.Snapshot d = Some s /\
    Dist.Count s = 1 /\ Dist.Min s = x /\ Dist.Max s = x /\ Dist.Median s = x.
Proof.
  intros Hb.
  destruct (Snapshot_of_built b [x] Hb ltac:(reflexivity))
    as (d & s & Hd & Hs & Hc & Hn & _ & _ & Hmm).
  destruct (Hmm ltac:(discriminate)) as [HMin HMax].
  destruct (DistFacts.Snapshot_fields _ d s Hc Hs) as (_ & _ & _ & Hmed).
  destruct (Hmed ltac:(discriminate)) as (_ & _ & Hmedian).
  exists d, s. split; [exact Hd|]. split; [exact Hs|]. split; [exact Hn|].
  pose proof Hd as Hd'. cbn [Dist.AddAll] in Hd'.
  destruct (DistFacts.Add_counted 0 (Dist.newDistribution b) x
              (constructed_counted b Hb) ltac:(lia) ltac:(lia)) as (c & _ & HAdd & _).
  rewrite HAdd in Hd'. cbn [mbind option_bind] in Hd'. injection Hd' as Hd'.
  assert (Hmin : Dist.min d = x) by (rewrite <- Hd'; reflexivity).
  assert (Hmax : Dist.max d = x) by (rewrite <- Hd'; reflexivity).
  split; [rewrite HMin; exact Hmin|]. split; [rewrite HMax; exact Hmax|].
  unfold Dist.calculateMedian in Hmedian. rewrite (counted_count _ _ Hc) in Hmedian.
  cbn [length Z.of_nat Pos.of_succ_nat Z.eqb Pos.eqb] in Hmedian.
  injection Hmedian as Hmedian. rewrite <- Hmedian. exact Hmin.
Qed.

Lemma Snapshot_of_single_value_witness :
  exists b d s,
    Dist.NewArbitraryBucketer [of_Z 1000] = Some b /\
    Dist.AddAll (Dist.newDistribution b) [NaN] = Some d /\
    Dist.Snapshot d = Some s /\
    Dist.Count s = 1 /\ Dist.Min s = NaN /\ Dist.Max s = NaN /\ Dist.Median s = NaN.
Proof.
  exists_value (Dist.NewArbitraryBucketer [of_Z 1000]).
  match goal with |- exists d s, ?B /\ _ =>
    assert (Hb : B) by by_evaluation
  end.
  destruct (Snapshot_of_single_value _ NaN
              (or_intror (or_intror (ex_intro _ [of_Z 1000] (conj eq_refl Hb)))))
    as (d & s & Hd & Hs & Hrest).
  exists d, s. split; [exact Hb|]. split; [exact Hd|]. split; [exact Hs|]. exact Hrest.
Defined.

(** The snapshot of a distribution nothing was added to: Snapshot returns,
    with Min, Max, Average, Median and Count zero and every piece of the
    bucketer listed with count zero. *)
Theorem Snapshot_of_fresh_distribution (b : Bucketer) :
  Dist.Snapshot (Dist.newDistribution b)
  = Some {| Dist.Min := S754_zero false; Dist.Max := S754_zero false;
            Dist.Average := S754_zero false; Dist.Median := S754_zero false;
            Dist.Count := 0;
            Dist.Breakdown :=
              map (fun p => {| Dist.bp_piece := p; Dist.bp_Count := 0 |})
                  (Dist.b_pieces b) |}.
Proof.
  unfold Dist.Snapshot, Dist.newDistribution.
  cbn [Dist.pieces Dist.counts Dist.count].
  rewrite fill_breakdown_fresh. reflexivity.
Qed.

(** Over ascending cut points, none of them NaN, a value is never sent to
    a lower bucket than a smaller one. *)
Theorem larger_value_no_lower_bucket (es : list float64) b x y :
  Z.of_nat (length es) < 2 ^ 63 - 1 ->
  Dist.NewArbitraryBucketer es = Some b ->
  ascending es -> Forall (fun e => is_nan e = false) es ->
  leb x y = true ->
  Dist.findDistributionIndex (Dist.b_pieces b) x
  <= Dist.findDistributionIndex (Dist.b_pieces b) y.
Proof.
  intros Hlen Hb Hasc Hnan Hxy.
  destruct (PiecesFacts.NewArbitraryBucketer_pieces_of es b Hb Hlen) as [Hne ->].
  apply findDistributionIndex_monotone; auto.
Qed.

Lemma larger_value_no_lower_bucket_witness :
  exists b,
    Dist.NewArbitraryBucketer [of_Z 10; of_Z 22; of_Z 50] = Some b /\
    Dist.findDistributionIndex (Dist.b_pieces b) (of_Z 15)
    <= Dist.findDistributionIndex (Dist.b_pieces b) (of_Z 30).
Proof.
  exists_value (Dist.NewArbitraryBucketer [of_Z 10; of_Z 22; of_Z 50]).
  match goal with |- ?B /\ _ => assert (Hb : B) by by_evaluation end.
  split; [exact Hb|].
  apply (larger_value_no_lower_bucket [of_Z 10; of_Z 22; of_Z 50]).
  - reflexivity.
  - exact Hb.
  - repeat split.
  - repeat constructor.
  - reflexivity.
Defined.

(** The ranges sent over RPC for a snapshot: one per piece, in order, with
    the count of its bucket; the first and only the first has no Lower, the
    last and only the last has no Upper, and the Upper of each range is the
    Lower of the next. *)
Theorem asRPCRanges_cover_the_line b (xs : list float64) :
  constructed b -> Z.of_nat (length xs) < 2 ^ 52 ->
  exists d s,
    Dist.AddAll (Dist.newDistribution b) xs = Some d /\
    Dist.Snapshot d = Some s /\
    length (RPC.asRPCRanges (Dist.Breakdown s)) = length (Dist.b_pieces b) /\
    (forall i r, RPC.asRPCRanges (Dist.Breakdown s) !! i = Some r ->
       (RPC.Lower r = None <-> i = 0%nat) /\
       (RPC.Upper r = None <-> S i = length (Dist.b_pieces b)) /\
       RPC.Count r = sent_to (Dist.b_pieces b) xs i) /\
    (forall i r r', RPC.asRPCRanges (Dist.Breakdown s) !! i = Some r ->
       RPC.asRPCRanges (Dist.Breakdown s) !! S i = Some r' ->
       exists e, RPC.Upper r = Some e /\ RPC.Lower r' = Some e).
Proof.
  intros Hb Hxs.
  destruct (Snapshot_of_built b xs Hb Hxs) as (d & s & Hd & Hs & _ & _ & Hp & Hc & _).
  exists d, s. split; [exact Hd|]. split; [exact Hs|].
  destruct (constructed_pieces b Hb) as (cuts & Hne & _ & Hcuts).
  pose proof (pieces_of_side_by_side cuts Hne) as [Hflags Hadj].
  rewrite <- Hcuts in Hflags, Hadj.
  assert (Hrange : forall i r, RPC.asRPCRanges (Dist.Breakdown s) !! i = Some r ->
            exists bp, Dist.Breakdown s !! i = Some bp /\
              Dist.b_pieces b !! i = Some (Dist.bp_piece bp) /\
              RPC.Count r = Dist.bp_Count bp /\
              RPC.Lower r = (if Dist.First (Dist.bp_piece bp) then None
                             else Some (Dist.Start (Dist.bp_piece bp))) /\
              RPC.Upper r = (if Dist.Last (Dist.bp_piece bp) then None
                             else Some (Dist.End_ (Dist.bp_piece bp)))).
  { intros i r Hr. unfold RPC.asRPCRanges in Hr. rewrite list_lookup_fmap in Hr.
    destruct (Dist.Breakdown s !! i) as [bp|] eqn:Hbp; [|discriminate].
    injection Hr as <-. exists bp. split; [reflexivity|]. split; [|auto].
    rewrite <- Hp, list_lookup_fmap, Hbp. reflexivity. }
  split; [|split].
  - unfold RPC.asRPCRanges. rewrite length_map, <- Hp, length_map. reflexivity.
  - intros i r Hr. destruct (Hrange i r Hr) as (bp & Hbp & Hpi & HC & HL & HU).
    destruct (Hflags i _ Hpi) as [HF HLa]. rewrite HL, HU, HF, HLa. split; [|split].
    + destruct i; simpl; split; congruence.
    + destruct (Nat.eqb_spec (S i) (length (Dist.b_pieces b))); split; congruence.
    + rewrite HC. 
      assert (Hci : map Dist.bp_Count (Dist.Breakdown s) !! i = Some (Dist.bp_Count bp))
        by (rewrite list_lookup_fmap, Hbp; reflexivity).
      rewrite Hc, list_lookup_fmap in Hci.
      rewrite lookup_seq_lt in Hci by (eapply lookup_lt_Some; eauto).
      injection Hci as <-. reflexivity.
  - intros i r r' Hr Hr'.
    destruct (Hrange i r Hr) as (bp & _ & Hpi & _ & _ & HU).
    destruct (Hrange (S i) r' Hr') as (bp' & _ & Hpi' & _ & HL & _).
    destruct (Hflags i _ Hpi) as [_ HLa]. destruct (Hflags (S i) _ Hpi') as [HF _].
    rewrite HU, HL, HF, HLa.
    pose proof (lookup_lt_Some _ _ _ Hpi') as Hlt.
    destruct (Nat.eqb_spec (S i) (length (Dist.b_pieces b))); [lia|].
    cbn [Nat.eqb]. rewrite (Hadj i _ _ Hpi Hpi'). eauto.
Qed.

Lemma asRPCRanges_cover_the_line_witness :
  exists b d s,
    Dist.NewExponentialBucketer 6 (of_Z 10) (div (of_Z 5) (of_Z 2)) = Some b /\
    Dist.AddAll (Dist.newDistribution b) [of_Z 3; of_Z 30; of_Z 700] = Some d /\
    Dist.Snapshot d = Some s /\
    length (RPC.asRPCRanges (Dist.Breakdown s)) = length (Dist.b_pieces b) /\
    (forall i r, RPC.asRPCRanges (Dist.Breakdown s) !! i = Some r ->
       (RPC.Lower r = None <-> i = 0%nat) /\
       (RPC.Upper r = None <-> S i = length (Dist.b_pieces b)) /\
       RPC.Count r = sent_to (Dist.b_pieces b) [of_Z 3; of_Z 30; of_Z 700] i) /\
    (forall i r r', RPC.asRPCRanges (Dist.Breakdown s) !! i = Some r ->
       RPC.asRPCRanges (Dist.Breakdown s) !! S i = Some r' ->
       exists e, RPC.Upper r = Some e /\ RPC.Lower r' = Some e).
Proof.
  exists_value (Dist.NewExponentialBucketer 6 (of_Z 10) (div (of_Z 5) (of_Z 2))).
  match goal with |- exists d s, ?B /\ _ =>
    assert (Hb : B) by by_evaluation
  end.
  destruct (asRPCRanges_cover_the_line _ [of_Z 3; of_Z 30; of_Z 700]
              (or_introl (ex_intro _ 6 (ex_intro _ (of_Z 10)
                 (ex_intro _ (div (of_Z 5) (of_Z 2)) (conj eq_refl Hb)))))
              eq_refl) as (d & s & Hd & Hs & Hrest).
  exists d, s. split; [exact Hb|]. split; [exact Hd|]. split; [exact Hs|]. exact Hrest.
Defined.

End Distributions.

(** ** Parsing and printing paths *)

Module Paths.
Import Path Namespace NamespaceSpec NamespaceFacts.

Lemma Split_join a b : Split (a +:+ "/" +:+ b) = (Split a ++ Split b)%list.
Proof.
  induction a as [|c a IH].
  - reflexivity.
  - change (String c a +:+ "/" +:+ b) with (String c (a +:+ "/" +:+ b)).
    cbn [Split]. rewrite IH. destruct (Ascii.eqb c "/"); [reflexivity|].
    pose proof (Split_not_nil a) as Hne.
    destruct (Split a) as [|hd tl]; [congruence|]. reflexivity.
Qed.

Lemma newPathSpec_String_ p : Forall segment p -> newPathSpec (Path.String_ p) = p.
Proof.
  intros Hall. destruct p as [|x p]; [reflexivity|].
  unfold newPathSpec. rewrite Split_String_ by (auto; discriminate).
  apply filter_segments, Hall.
Qed.

(** No segment the parser yields is empty, made of white space only, or
    has a slash in it. *)
Theorem newPathSpec_parts_not_blank path part :
  part ∈ newPathSpec path ->
  part <> EmptyString /\ TrimSpace_is_empty part = false /\ no_slash part = true.
Proof.
  intros Hin. pose proof (newPathSpec_segments path) as Hall.
  rewrite Forall_forall in Hall. destruct (Hall part Hin) as [Hslash Hblank].
  split; [|auto]. intros ->. discriminate.
Qed.

Lemma newPathSpec_parts_not_blank_witness :
  "rpc-count" <> EmptyString /\ TrimSpace_is_empty "rpc-count" = false /\
  no_slash "rpc-count" = true.
Proof.
  apply (newPathSpec_parts_not_blank "//proc/ /rpc-count/" "rpc-count").
  vm_compute. right. left.
Defined.

(** Parsing, joining with slashes and parsing again gives the path parsed
    first, with or without a leading slash. *)
Theorem newPathSpec_String_round_trip path :
  newPathSpec (Path.String_ (newPathSpec path)) = newPathSpec path /\
  newPathSpec ("/" +:+ Path.String_ (newPathSpec path)) = newPathSpec path.
Proof.
  split.
  - apply newPathSpec_String_, newPathSpec_segments.
  - apply (newPathSpec_absolute (newPathSpec path)), newPathSpec_segments.
Qed.

(** The path of two strings joined by a slash is the path of the first
    followed by the path of the second. *)
Theorem newPathSpec_joins a b :
  newPathSpec (a +:+ "/" +:+ b) = (newPathSpec a ++ newPathSpec b)%list.
Proof. unfold newPathSpec. rewrite Split_join. apply filter_app. Qed.

(** Dir and Base panic on the empty path and on no other; on any other
    path Dir is the path without its last segment and Base that segment. *)
Theorem Dir_Base_split (p : pathSpec) :
  (Dir p = None <-> p = []) /\ (Base p = None <-> p = []) /\
  (forall dp base, Dir p = Some dp -> Base p = Some base ->
     p = (dp ++ [base])%list /\ length dp = pred (length p)).
Proof.
  destruct (decide (p = [])) as [->|Hne].
  - split; [split; auto|]. split; [split; auto|]. discriminate.
  - destruct (path_snoc p Hne) as (dp & base & Hp & HDir & HBase & _).
    rewrite HDir, HBase. split; [split; [discriminate|contradiction]|].
    split; [split; [discriminate|contradiction]|].
    intros dp' base' Hd Hb. injection Hd as <-. injection Hb as <-.
    split; [exact Hp|]. rewrite Hp, length_app. simpl. lia.
Qed.

End Paths.

(** ** The tree of directories and metrics *)

Module Tree.
Import Path Namespace Collectors NamespaceSpec NamespaceFacts Paths.

(** The state after [RegisterMetric root "/proc/foo"] on the initial one. *)
Ltac with_outcome t k :=
  let v := eval vm_compute in t in
  match v with
  | Namespace.Ok ?r ?σ => k r σ
  end.

Ltac with_proc_foo k :=
  with_outcome (RegisterMetric root "/proc/foo" (SrcPointer GoInt) 0%N "" init)
    ltac:(fun _ σ1 => k σ1).

Ltac proc_foo_registered σ1 :=
  apply (later_RegisterMetric init init root "/proc/foo" (SrcPointer GoInt) 0%N ""
           None σ1);
  [apply later_refl | exists []; reflexivity | vm_compute; reflexivity].

Ltac at_root := exists []; reflexivity.

(** *** Lookups *)

Lemma found_directory σ d p :
  fst (found (resolve σ d p)) = dirAt σ d p.
Proof.
  destruct (resolve σ d p) as [[d'|m]|] eqn:Hres; cbn [found fst].
  - symmetry. apply resolve_directory. exact Hres.
  - destruct (dirAt σ d p) as [d'|] eqn:Hd; [|reflexivity].
    apply resolve_directory in Hd. congruence.
  - destruct (dirAt σ d p) as [d'|] eqn:Hd; [|reflexivity].
    apply resolve_directory in Hd. congruence.
Qed.

Lemma found_not_both b : fst (found b) = None \/ snd (found b) = None.
Proof. destruct b as [[?|?]|]; cbn; auto. Qed.

Lemma found_Some b r : found b = r -> r <> (None, None) -> exists x, b = Some x.
Proof. destruct b as [x|]; [eauto|]. cbn. intros <- Hr. congruence. Qed.

Lemma found_inj b1 b2 : found b1 = found b2 -> b1 = b2.
Proof. destruct b1 as [[?|?]|], b2 as [[?|?]|]; cbn; congruence. Qed.

Lemma GetDirectoryOrMetric_spec σ q d path :
  wf σ -> dirAt σ root q = Some d ->
  GetDirectoryOrMetric d path σ = Ok (found (resolve σ d (newPathSpec path))) σ.
Proof. intros. unfold GetDirectoryOrMetric. eapply getDirectoryOrMetric_spec; eauto. Qed.

Lemma GetMetric_spec σ q d path :
  wf σ -> dirAt σ root q = Some d ->
  GetMetric d path σ = Ok (snd (found (resolve σ d (newPathSpec path)))) σ.
Proof.
  intros Hwf Hq. unfold GetMetric.
  rewrite (bind_Ok _ _ _ _ _ (getDirectoryOrMetric_spec σ q d _ Hwf Hq)). reflexivity.
Qed.

Lemma GetDirectory_spec σ q d path :
  wf σ -> dirAt σ root q = Some d ->
  GetDirectory d path σ = Ok (dirAt σ d (newPathSpec path)) σ.
Proof. intros. unfold GetDirectory. eapply getDirectory_spec; eauto. Qed.

Lemma resolve_relative σ q d p :
  dirAt σ root q = Some d -> resolve σ d p = resolve σ root (q ++ p).
Proof. intros Hq. symmetry. apply resolve_app. exact Hq. Qed.

Lemma GetMetric_bound σ q d path m :
  wf σ -> dirAt σ root q = Some d ->
  GetMetric d path σ = Ok (Some m) σ ->
  resolve σ d (newPathSpec path) = Some (BoundMetric m).
Proof.
  intros Hwf Hq Hget. rewrite (GetMetric_spec σ q d path Hwf Hq) in Hget.
  injection Hget as Hget.
  destruct (resolve σ d (newPathSpec path)) as [[?|?]|]; cbn in Hget; congruence.
Qed.

(** GetDirectory, GetMetric and GetDirectoryOrMetric agree: in a state of
    the program and from a directory of the namespace they return, leave
    the store as it is, GetDirectory gives the directory and GetMetric the
    metric that GetDirectoryOrMetric gives, and never are both there. *)
Theorem lookups_agree σ d path :
  reachable σ -> in_namespace σ d ->
  exists dir met,
    GetDirectoryOrMetric d path σ = Ok (dir, met) σ /\
    GetDirectory d path σ = Ok dir σ /\
    GetMetric d path σ = Ok met σ /\
    (dir = None \/ met = None).
Proof.
  intros Hreach [q Hq]. pose proof (reachable_wf σ Hreach) as Hwf.
  exists (fst (found (resolve σ d (newPathSpec path)))),
         (snd (found (resolve σ d (newPathSpec path)))).
  rewrite <- surjective_pairing.
  split; [eapply GetDirectoryOrMetric_spec; eauto|].
  split; [rewrite found_directory; eapply GetDirectory_spec; eauto|].
  split; [eapply GetMetric_spec; eauto|apply found_not_both].
Qed.

Lemma lookups_agree_witness :
  exists σ1,
    RegisterMetric root "/proc/foo" (SrcPointer GoInt) 0%N "" init = Ok None σ1 /\
    exists dir met,
      GetDirectoryOrMetric root "/proc/foo" σ1 = Ok (dir, met) σ1 /\
      GetDirectory root "/proc/foo" σ1 = Ok dir σ1 /\
      GetMetric root "/proc/foo" σ1 = Ok met σ1 /\
      (dir = None \/ met = None).
Proof.
  with_proc_foo ltac:(fun σ1 =>
    exists σ1; split; [vm_compute; reflexivity|];
    apply (lookups_agree σ1 root "/proc/foo");
    [ proc_foo_registered σ1 | at_root ]).
Defined.

(** What a path is bound to, it stays bound to: a lookup that finds a
    directory or a metric finds the same one in every later state. *)
Theorem bindings_persist σ σ' d path r :
  reachable σ -> in_namespace σ d -> later σ σ' ->
  GetDirectoryOrMetric d path σ = Ok r σ -> r <> (None, None) ->
  GetDirectoryOrMetric d path σ' = Ok r σ'.
Proof.
  intros Hreach [q Hq] Hlater Hget Hr.
  pose proof (reachable_wf σ Hreach) as Hwf.
  destruct (later_wf σ σ' Hwf Hlater) as [Hwf' Hext].
  assert (Hq' : dirAt σ' root q = Some d) by (destruct Hext as (Hd & _); auto).
  rewrite (GetDirectoryOrMetric_spec σ q d path Hwf Hq) in Hget. injection Hget as Hget.
  destruct (found_Some _ _ Hget Hr) as [b Hb].
  rewrite (GetDirectoryOrMetric_spec σ' q d path Hwf' Hq').
  rewrite (resolve_relative σ' q d _ Hq').
  rewrite (resolve_relative σ q d _ Hq) in Hb.
  rewrite (extends_resolve σ σ' _ b Hext Hb). rewrite <- Hget.
  rewrite (resolve_relative σ q d _ Hq), Hb. reflexivity.
Qed.

Lemma bindings_persist_witness :
  exists σ1 r σ2 m,
    RegisterMetric root "/proc/foo" (SrcPointer GoInt) 0%N "" init = Ok None σ1 /\
    RegisterDirectory root "/sys" σ1 = Ok r σ2 /\
    GetDirectoryOrMetric root "proc/foo" σ1 = Ok (None, Some m) σ1 /\
    GetDirectoryOrMetric root "proc/foo" σ2 = Ok (None, Some m) σ2.
Proof.
  with_proc_foo ltac:(fun σ1 =>
    with_outcome (RegisterDirectory root "/sys" σ1) ltac:(fun r σ2 =>
      with_outcome (GetDirectoryOrMetric root "proc/foo" σ1) ltac:(fun f _ =>
        match f with
        | (_, Some ?m) =>
            exists σ1, r, σ2, m;
            split; [vm_compute; reflexivity|];
            split; [vm_compute; reflexivity|];
            split; [vm_compute; reflexivity|];
            apply (bindings_persist σ1 σ2 root "proc/foo" f);
            [ proc_foo_registered σ1
            | at_root
            | apply (later_RegisterDirectory σ1 σ1 root "/sys" r σ2);
              [apply later_refl | at_root | vm_compute; reflexivity]
            | vm_compute; reflexivity
            | discriminate ]
        end))).
Defined.

(** *** One path for every object *)

Lemma resolve_segments σ p b :
  wf σ -> resolve σ root p = Some b -> Forall segment p.
Proof.
  intros Hwf Hres. destruct p as [|s q _] using rev_ind; [constructor|].
  rewrite resolve_snoc in Hres.
  destruct (dirAt σ root q) as [d|] eqn:Hq; [|discriminate]. simpl in Hres.
  destruct (child σ d s) as [[e le]|] eqn:Hc; [|discriminate].
  destruct (wf_entry_at σ q d s e le Hwf Hq Hc) as (_ & _ & _ & _ & Hseg & _).
  apply Forall_app. split; [eapply wf_segments; eauto|].
  constructor; [exact Hseg|constructor].
Qed.

Lemma resolve_inj σ p1 p2 b :
  wf σ -> resolve σ root p1 = Some b -> resolve σ root p2 = Some b -> p1 = p2.
Proof.
  intros Hwf H1 H2. destruct b as [d|m].
  - apply resolve_directory in H1, H2. eapply wf_inj; eauto.
  - pose proof (resolve_segments σ p1 _ Hwf H1) as Hs1.
    pose proof (resolve_segments σ p2 _ Hwf H2) as Hs2.
    destruct (AbsPath_of_bound_metric σ p1 m Hwf H1) as [_ Ha1].
    destruct (AbsPath_of_bound_metric σ p2 m Hwf H2) as [_ Ha2].
    specialize (Ha1 (length p1 + length p2) ltac:(lia)).
    specialize (Ha2 (length p1 + length p2) ltac:(lia)).
    assert (Ha : absolute p1 = absolute p2) by congruence.
    transitivity (newPathSpec (absolute p1));
      [symmetry; apply newPathSpec_absolute; exact Hs1|].
    rewrite Ha. apply newPathSpec_absolute. exact Hs2.
Qed.

(** No object of the namespace has two paths: two lookups from the same
    directory that find the same directory or the same metric were given
    paths with the same segments. *)
Theorem one_path_per_object σ d path1 path2 r :
  reachable σ -> in_namespace σ d ->
  GetDirectoryOrMetric d path1 σ = Ok r σ ->
  GetDirectoryOrMetric d path2 σ = Ok r σ ->
  r <> (None, None) ->
  newPathSpec path1 = newPathSpec path2.
Proof.
  intros Hreach [q Hq] H1 H2 Hr. pose proof (reachable_wf σ Hreach) as Hwf.
  rewrite (GetDirectoryOrMetric_spec σ q d _ Hwf Hq) in H1.
  rewrite (GetDirectoryOrMetric_spec σ q d _ Hwf Hq) in H2.
  injection H1 as H1. injection H2 as H2.
  destruct (found_Some _ _ H1 Hr) as [b Hb].
  assert (Hb2 : resolve σ d (newPathSpec path2) = Some b).
  { rewrite <- Hb. apply found_inj. congruence. }
  rewrite (resolve_relative σ q d _ Hq) in Hb.
  rewrite (resolve_relative σ q d _ Hq) in Hb2.
  apply (app_inv_head q). eapply resolve_inj; eauto.
Qed.

Lemma one_path_per_object_witness :
  exists σ1 m,
    RegisterMetric root "/proc/foo" (SrcPointer GoInt) 0%N "" init = Ok None σ1 /\
    GetDirectoryOrMetric root "/proc/foo" σ1 = Ok (None, Some m) σ1 /\
    GetDirectoryOrMetric root "proc//foo/" σ1 = Ok (None, Some m) σ1 /\
    newPathSpec "/proc/foo" = newPathSpec "proc//foo/".
Proof.
  with_proc_foo ltac:(fun σ1 =>
    with_outcome (GetDirectoryOrMetric root "/proc/foo" σ1) ltac:(fun f _ =>
      match f with
      | (_, Some ?m) =>
          exists σ1, m;
          split; [vm_compute; reflexivity|];
          split; [vm_compute; reflexivity|];
          split; [vm_compute; reflexivity|];
          apply (one_path_per_object σ1 root "/proc/foo" "proc//foo/" f);
          [ proc_foo_registered σ1 | at_root
          | vm_compute; reflexivity | vm_compute; reflexivity | discriminate ]
      end)).
Defined.

(** *** Directories and their paths *)

Lemma directory_AbsPath_spec σ q d fuel :
  wf σ -> dirAt σ root q = Some d -> length q <= fuel ->
  directory_AbsPath fuel d σ = Ok (absolute q) σ.
Proof.
  intros Hwf Hq Hfuel. destruct q as [|s q _] using rev_ind.
  - injection Hq as <-. apply directory_AbsPath_root, Hwf.
  - destruct (wf_dir_entry σ q s d Hwf Hq) as (d0 & e & le & dr & Hq0 & Hc & Hdr & Hencl).
    unfold directory_AbsPath.
    rewrite (bind_Ok _ _ _ _ _ (get_dir_Ok _ _ _ Hdr)). rewrite Hencl.
    rewrite length_app in Hfuel. simpl in Hfuel.
    apply (absPath_entry σ q d0 s e le); auto. lia.
Qed.

(** A directory that RegisterDirectory returned is found again, in every
    later state, by GetDirectory under the path it was registered with and
    from the root under its absolute path P (the segments from the root
    joined by and prefixed with a slash), and its AbsPath is P. *)
Theorem RegisterDirectory_round_trip σ0 q d path r σ1 σ :
  reachable σ0 -> dirAt σ0 root q = Some d ->
  RegisterDirectory d path σ0 = Ok (Some r, None) σ1 ->
  later σ1 σ ->
  GetDirectory d path σ = Ok (Some r) σ /\
  GetDirectory root (absolute (q ++ newPathSpec path)) σ = Ok (Some r) σ /\
  (forall fuel, length (q ++ newPathSpec path) <= fuel ->
     directory_AbsPath fuel r σ = Ok (absolute (q ++ newPathSpec path)) σ).
Proof.
  intros Hreach Hq Hreg Hlater. pose proof (reachable_wf σ0 Hreach) as Hwf0.
  unfold RegisterDirectory in Hreg.
  destruct (registerDirectory_spec _ σ0 q d Hwf0 Hq (newPathSpec_segments path))
    as [[_ Heq]|(_ & r' & σ' & Heq & Hwf1 & Hr & Hext1 & _)]; [congruence|].
  rewrite Hreg in Heq. injection Heq as <- <-.
  destruct (later_wf σ1 σ Hwf1 Hlater) as (Hwf & Hext).
  assert (Hr' : dirAt σ root (q ++ newPathSpec path) = Some r).
  { destruct Hext as (Hd & _). auto. }
  assert (Hq' : dirAt σ root q = Some d).
  { destruct Hext as (Hd & _). destruct Hext1 as (Hd1 & _). auto. }
  split; [|split].
  - rewrite (GetDirectory_spec σ q d path Hwf Hq'). f_equal.
    eapply dirAt_relative; eauto.
  - rewrite (GetDirectory_spec σ [] root _ Hwf eq_refl).
    rewrite newPathSpec_absolute by (eapply wf_segments; eauto).
    rewrite Hr'. reflexivity.
  - intros fuel Hfuel. apply directory_AbsPath_spec; auto.
Qed.

Lemma RegisterDirectory_round_trip_witness :
  exists r σ1,
    RegisterDirectory root "proc//sys" init = Ok (Some r, None) σ1 /\
    GetDirectory root "proc//sys" σ1 = Ok (Some r) σ1 /\
    GetDirectory root "/proc/sys" σ1 = Ok (Some r) σ1 /\
    (forall fuel, 2 <= fuel -> directory_AbsPath fuel r σ1 = Ok "/proc/sys" σ1).
Proof.
  with_outcome (RegisterDirectory root "proc//sys" init) ltac:(fun f σ1 =>
    match f with
    | (Some ?r, _) =>
        exists r, σ1;
        split; [vm_compute; reflexivity|];
        apply (RegisterDirectory_round_trip init [] root "proc//sys" r σ1 σ1);
        [ apply later_refl | reflexivity | vm_compute; reflexivity | apply later_refl ]
    end).
Defined.

(** *** What is below a path *)

Lemma resolve_below_directory σ d p0 p :
  p <> [] -> is_Some (resolve σ d (p0 ++ p)) -> is_Some (dirAt σ d p0).
Proof.
  intros Hne [b Hb]. destruct (exists_last Hne) as (p' & s & ->).
  rewrite app_assoc, resolve_snoc, dirAt_app in Hb.
  destruct (dirAt σ d p0) as [d0|]; [eauto|discriminate].
Qed.

Lemma deliver_one {C} (collector : metricsCollector C) σ m c :
  Collect collector (Some m) c σ = Ok (deliver collector σ [m] c) σ.
Proof.
  unfold Collect. cbn [deliver].
  destruct (collector σ (Some m) c) as [c' [err|]]; reflexivity.
Qed.

(** GetAllMetricsByPath, given fuel for the depth of the tree, returns, and
    hands to the collector exactly the metrics bound at the path or below
    it, each once, in the order of their paths; under a path bound to
    nothing the collector is not called. *)
Theorem GetAllMetricsByPath_delivers_below_the_path σ d path :
  reachable σ -> in_namespace σ d ->
  exists L : list (pathSpec * addr),
    (forall p m, (p, m) ∈ L <->
                 resolve σ d (newPathSpec path ++ p) = Some (BoundMetric m)) /\
    StronglySorted path_lt (map fst L) /\
    (resolve σ d (newPathSpec path) = None -> L = []) /\
    exists fuel0, forall fuel C (collector : metricsCollector C) c,
      fuel0 <= fuel ->
      GetAllMetricsByPath fuel d path collector c σ
      = Ok (deliver collector σ (map snd L) c) σ.
Proof.
  intros Hreach [q Hq]. pose proof (reachable_wf σ Hreach) as Hwf.
  destruct (wf_depth σ Hwf) as [n Hn].
  set (p0 := newPathSpec path).
  pose proof (GetDirectoryOrMetric_spec σ q d path Hwf Hq) as Hget. fold p0 in Hget.
  destruct (resolve σ d p0) as [[dir|m]|] eqn:Hres.
  - (* a directory *)
    pose proof Hres as Hdir. apply resolve_directory in Hdir.
    assert (Hq0 : dirAt σ root (q ++ p0) = Some dir).
    { rewrite dirAt_app, Hq. exact Hdir. }
    exists (leaves (S n) σ dir). split; [|split; [|split]].
    + intros p m. rewrite (resolve_app σ d p0 dir p Hdir).
      apply (leaves_elem σ n Hwf Hn (S n) (q ++ p0) dir); [exact Hq0|lia].
    + apply (leaves_sorted σ n Hwf Hn (S n) (q ++ p0) dir); [exact Hq0|lia].
    + discriminate.
    + exists (S n). intros fuel C collector c Hfuel. unfold GetAllMetricsByPath.
      rewrite (bind_Ok _ _ _ _ _ Hget). cbn [found fst snd].
      rewrite (leaves_fuel σ n Hwf Hn (S n) fuel (q ++ p0) dir Hq0) by lia.
      apply (GetAllMetrics_spec collector σ n Hwf Hn fuel (q ++ p0) dir c Hq0). lia.
  - (* a metric *)
    assert (Hnodir : dirAt σ d p0 = None).
    { destruct (dirAt σ d p0) as [x|] eqn:Hx; [|reflexivity].
      apply resolve_directory in Hx. congruence. }
    exists [([], m)]. split; [|split; [|split]].
    + intros p m'. rewrite list_elem_of_singleton. split.
      * intros Heq. injection Heq as -> ->. rewrite app_nil_r. exact Hres.
      * intros Hb. destruct p as [|s p].
        { rewrite app_nil_r, Hres in Hb. congruence. }
        destruct (resolve_below_directory σ d p0 (s :: p)) as [x Hx];
          [discriminate|eauto|congruence].
    + repeat constructor.
    + discriminate.
    + exists 0. intros fuel C collector c _. unfold GetAllMetricsByPath.
      rewrite (bind_Ok _ _ _ _ _ Hget). cbn [found fst snd map].
      apply deliver_one.
  - (* nothing *)
    exists []. split; [|split; [|split]].
    + intros p m. split; [intros Hin; inversion Hin|].
      intros Hb. destruct p as [|s p].
      { rewrite app_nil_r, Hres in Hb. discriminate. }
      destruct (resolve_below_directory σ d p0 (s :: p)) as [x Hx];
        [discriminate|eauto|].
      apply resolve_directory in Hx. congruence.
    + constructor.
    + reflexivity.
    + exists 0. intros fuel C collector c _. unfold GetAllMetricsByPath.
      rewrite (bind_Ok _ _ _ _ _ Hget). reflexivity.
Qed.

Lemma GetAllMetricsByPath_delivers_below_the_path_witness :
  exists σ1,
    RegisterMetric root "/proc/foo" (SrcPointer GoInt) 0%N "" init = Ok None σ1 /\
    exists L : list (pathSpec * addr),
      (forall p m, (p, m) ∈ L <->
                   resolve σ1 root (newPathSpec "/proc" ++ p) = Some (BoundMetric m)) /\
      StronglySorted path_lt (map fst L) /\
      (resolve σ1 root (newPathSpec "/proc") = None -> L = []) /\
      exists fuel0, forall fuel C (collector : metricsCollector C) c,
        fuel0 <= fuel ->
        GetAllMetricsByPath fuel root "/proc" collector c σ1
        = Ok (deliver collector σ1 (map snd L) c) σ1.
Proof.
  with_proc_foo ltac:(fun σ1 =>
    exists σ1; split; [vm_compute; reflexivity|];
    apply (GetAllMetricsByPath_delivers_below_the_path σ1 root "/proc");
    [ proc_foo_registered σ1 | at_root ]).
Defined.

(** *** Listing *)

Lemma contents_names_NoDup (m : gmap string addr) : NoDup (map fst (map_to_list m)).
Proof. apply NoDup_fst_map_to_list. Qed.

(** List returns, leaves the store as it is, and gives the entries of the
    directory, every child once under the name it is bound to, by strictly
    ascending name. *)
Theorem List_children_by_name σ d :
  reachable σ -> in_namespace σ d ->
  exists l : list (string * addr),
    List d σ = Ok (map snd l) σ /\
    (forall s e, (s, e) ∈ l <-> exists le, child σ d s = Some (e, le)) /\
    (forall s e, (s, e) ∈ l ->
                 exists le, entries σ !! e = Some le /\ Name le = s) /\
    StronglySorted byName l.
Proof.
  intros Hreach [q Hq]. pose proof (reachable_wf σ Hreach) as Hwf.
  destruct (wf_dirs σ Hwf q d Hq) as [dr Hdr].
  exists (sortListEntries (map_to_list (contents dr))).
  split; [apply (List_spec σ q d dr Hwf Hq Hdr)|]. split; [|split].
  - intros s e. split.
    + intros Hin. destruct (wf_listed σ q d dr s e Hwf Hq Hdr Hin) as (le & Hc & _).
      eauto.
    + intros [le Hc]. apply sortListEntries_elem, elem_of_map_to_list.
      apply child_Some in Hc as (dr' & Hdr' & Hc & _). congruence.
  - intros s e Hin.
    destruct (wf_listed σ q d dr s e Hwf Hq Hdr Hin) as (le & _ & He & Hname & _).
    eauto.
  - apply sortListEntries_sorted, contents_names_NoDup.
Qed.

Lemma List_children_by_name_witness :
  exists σ1,
    RegisterMetric root "/proc/foo" (SrcPointer GoInt) 0%N "" init = Ok None σ1 /\
    exists l : list (string * addr),
      List root σ1 = Ok (map snd l) σ1 /\
      (forall s e, (s, e) ∈ l <-> exists le, child σ1 root s = Some (e, le)) /\
      (forall s e, (s, e) ∈ l ->
                   exists le, entries σ1 !! e = Some le /\ Name le = s) /\
      StronglySorted byName l.
Proof.
  with_proc_foo ltac:(fun σ1 =>
    exists σ1; split; [vm_compute; reflexivity|];
    apply (List_children_by_name σ1 root);
    [ proc_foo_registered σ1 | at_root ]).
Defined.

(** *** A collector that fails *)

Lemma deliver_collectErrorType E σ ms c :
  ms <> [] -> deliver (collectErrorType_Collect E) σ ms c = (E, c).
Proof.
  induction ms as [|m ms IH]; intros Hne; [congruence|].
  cbn [deliver]. unfold collectErrorType_Collect at 1.
  destruct E as [err|]; [reflexivity|].
  destruct ms as [|m' ms]; [reflexivity|]. apply IH. discriminate.
Qed.

(** GetAllMetrics with the collector of the tests, which answers every
    metric with its error [E], returns [E] when a metric is bound below the
    directory and no error when none is. *)
Theorem GetAllMetrics_returns_the_collectors_error σ d :
  reachable σ -> in_namespace σ d ->
  exists fuel0, forall fuel E c,
    fuel0 <= fuel ->
    ((exists p m, resolve σ d p = Some (BoundMetric m)) ->
     GetAllMetrics fuel d (collectErrorType_Collect E) c σ = Ok (E, c) σ) /\
    ((forall p m, resolve σ d p <> Some (BoundMetric m)) ->
     GetAllMetrics fuel d (collectErrorType_Collect E) c σ = Ok (None, c) σ).
Proof.
  intros Hreach [q Hq]. pose proof (reachable_wf σ Hreach) as Hwf.
  destruct (wf_depth σ Hwf) as [n Hn].
  exists (S n). intros fuel E c Hfuel.
  rewrite (GetAllMetrics_spec _ σ n Hwf Hn fuel q d c Hq) by lia.
  pose proof (leaves_elem σ n Hwf Hn fuel q d) as Helem.
  split.
  - intros (p & m & Hres). apply Helem in Hres; [|exact Hq|lia].
    rewrite deliver_collectErrorType; [reflexivity|].
    intros Hnil. apply (f_equal length) in Hnil. rewrite length_map in Hnil.
    destruct (leaves fuel σ d); [inversion Hres|discriminate].
  - intros Hnone. destruct (leaves fuel σ d) as [|[p m] L] eqn:HL; [reflexivity|].
    exfalso. apply (Hnone p m). apply Helem; [exact Hq|lia|].
    left.
Qed.

Lemma GetAllMetrics_returns_the_collectors_error_witness :
  exists σ1,
    RegisterMetric root "/proc/foo" (SrcPointer GoInt) 0%N "" init = Ok None σ1 /\
    exists fuel0, forall fuel E c,
      fuel0 <= fuel ->
      ((exists p m, resolve σ1 root p = Some (BoundMetric m)) ->
       GetAllMetrics fuel root (collectErrorType_Collect E) c σ1 = Ok (E, c) σ1) /\
      ((forall p m, resolve σ1 root p <> Some (BoundMetric m)) ->
       GetAllMetrics fuel root (collectErrorType_Collect E) c σ1 = Ok (None, c) σ1).
Proof.
  with_proc_foo ltac:(fun σ1 =>
    exists σ1; split; [vm_compute; reflexivity|];
    apply (GetAllMetrics_returns_the_collectors_error σ1 root);
    [ proc_foo_registered σ1 | at_root ]).
Defined.

(** *** Below a metric *)

(** Once a metric is bound at a path, nothing registers at or below it:
    RegisterDirectory on the path or on any path below it, and
    RegisterMetric on any path strictly below it, return PathInUse and leave
    the store as it is. *)
Theorem nothing_registers_below_a_metric σ d path path' rest m :
  reachable σ -> in_namespace σ d ->
  GetMetric d path σ = Ok (Some m) σ ->
  newPathSpec path' = newPathSpec path ++ rest ->
  RegisterDirectory d path' σ = Ok (None, Some ErrPathInUse) σ /\
  (rest <> [] -> forall spec unit description,
     RegisterMetric d path' spec unit description σ = Ok (Some ErrPathInUse) σ).
Proof.
  intros Hreach [q Hq] Hget Hpath'. pose proof (reachable_wf σ Hreach) as Hwf.
  pose proof (GetMetric_bound σ q d path m Hwf Hq Hget) as Hres.
  destruct (newPathSpec path) as [|s0 p0] eqn:Hp; [discriminate|].
  destruct (exists_last (l := s0 :: p0) ltac:(discriminate)) as (p1 & s & Hsnoc).
  rewrite Hsnoc in *. clear Hsnoc.
  assert (Hwalk : forall rest', metric_on_walk σ d ((p1 ++ [s]) ++ rest')).
  { intros rest'. exists p1, s, rest', m. split; [|exact Hres].
    rewrite <- app_assoc. reflexivity. }
  pose proof (newPathSpec_segments path') as Hseg.
  split.
  - unfold RegisterDirectory. rewrite Hpath' in *.
    destruct (registerDirectory_spec _ σ q d Hwf Hq Hseg) as [[_ Heq]|[Hno _]];
      [exact Heq|].
    exfalso. apply Hno, Hwalk.
  - intros Hrest spec unit description. unfold RegisterMetric. rewrite Hpath' in *.
    destruct (exists_last Hrest) as (rest0 & base & ->).
    destruct (registerMetric_spec σ q d _ spec unit description Hwf Hq Hseg)
      as [[Hnil _]|(dp & base' & Hsplit & [[_ Heq]|[Hno _]])].
    + destruct p1; discriminate.
    + exact Heq.
    + exfalso. apply Hno. rewrite app_assoc in Hsplit.
      apply app_inj_tail in Hsplit as [<- _]. apply Hwalk.
Qed.

Lemma nothing_registers_below_a_metric_witness :
  exists σ1 m,
    RegisterMetric root "/proc/foo" (SrcPointer GoInt) 0%N "" init = Ok None σ1 /\
    GetMetric root "/proc/foo" σ1 = Ok (Some m) σ1 /\
    RegisterDirectory root "/proc/foo/bar" σ1 = Ok (None, Some ErrPathInUse) σ1 /\
    (["bar"] <> [] -> forall spec unit description,
       RegisterMetric root "/proc/foo/bar" spec unit description σ1
       = Ok (Some ErrPathInUse) σ1).
Proof.
  with_proc_foo ltac:(fun σ1 =>
    with_outcome (GetMetric root "/proc/foo" σ1) ltac:(fun f _ =>
      match f with
      | Some ?m =>
          exists σ1, m;
          split; [vm_compute; reflexivity|];
          split; [vm_compute; reflexivity|];
          apply (nothing_registers_below_a_metric σ1 root "/proc/foo" "/proc/foo/bar"
                   ["bar"] m);
          [ proc_foo_registered σ1 | at_root
          | vm_compute; reflexivity | vm_compute; reflexivity ]
      end)).
Defined.

(** *** What a registration leaves alone *)

Lemma links_resolve σ σ' q d dr name e le x :
  wf σ -> dirAt σ root q = Some d -> links σ σ' d dr name e le ->
  resolve σ' root x =
  if decide (x = q ++ [name]) then binding_of le else resolve σ root x.
Proof.
  intros Hwf Hq Hlk. destruct x as [|s x _] using rev_ind.
  - case_decide as Heq; [destruct q; discriminate|reflexivity].
  - rewrite !resolve_snoc.
    rewrite (links_dirAt σ σ' q d dr name e le Hwf Hq Hlk x).
    case_decide as Hx.
    + subst x. case_decide as Heq.
      { apply (f_equal length) in Heq. rewrite !length_app in Heq. simpl in Heq. lia. }
      rewrite (links_not_yet σ σ' q d dr name e le Hq Hlk). simpl.
      destruct (Directory le) as [a|] eqn:Ha; simpl; [|reflexivity].
      rewrite (links_new_dir_empty σ σ' d dr name e le Hlk a s Ha). reflexivity.
    + destruct (dirAt σ root x) as [d0|] eqn:Hd0; simpl.
      2:{ case_decide as Heq; [|reflexivity].
          apply app_inj_tail in Heq as [-> _]. congruence. }
      rewrite (links_child σ σ' q d dr name e le Hwf Hq Hlk x d0 s Hd0).
      case_decide as Hn.
      * destruct Hn as [-> ->]. case_decide; [reflexivity|congruence].
      * case_decide as Heq; [|reflexivity].
        apply app_inj_tail in Heq. tauto.
Qed.

Lemma resolve_same σ σ2 d p :
  dirs σ2 = dirs σ -> entries σ2 = entries σ -> resolve σ2 d p = resolve σ d p.
Proof.
  intros Hd He. destruct p as [|s p _] using rev_ind; [reflexivity|].
  rewrite !resolve_snoc, (dirAt_same σ σ2 p d Hd He).
  destruct (dirAt σ d p) as [d'|]; simpl; [|reflexivity].
  rewrite (child_same σ σ2 d' s Hd He). reflexivity.
Qed.

(** What [registerDirectory] binds: the new directories along its path. *)
Lemma registerDirectory_frame path : forall σ q d r σ',
  wf σ -> dirAt σ root q = Some d -> Forall segment path ->
  registerDirectory d path σ = Ok (Some r, None) σ' ->
  forall x,
    resolve σ' root x = resolve σ root x \/
    (resolve σ root x = None /\
     exists p1 p2 d1, path = p1 ++ p2 /\ p1 <> [] /\ x = q ++ p1 /\
                      resolve σ' root x = Some (BoundDirectory d1)).
Proof.
  induction path as [|s path IH]; intros σ q d r σ' Hwf Hq Hseg Hreg x.
  - injection Hreg as _ <-. left. reflexivity.
  - inversion Hseg as [|? ? Hs Hrest]; subst.
    assert (Hlift : forall σ1 d1,
      wf σ1 -> dirAt σ1 root (q ++ [s]) = Some d1 ->
      registerDirectory d1 path σ1 = Ok (Some r, None) σ' ->
      resolve σ' root x = resolve σ1 root x \/
      (resolve σ1 root x = None /\
       exists p1 p2 d2, s :: path = p1 ++ p2 /\ p1 <> [] /\ x = q ++ p1 /\
                        resolve σ' root x = Some (BoundDirectory d2))).
    { intros σ1 d1 Hwf1 Hq1 Hreg1.
      destruct (IH σ1 (q ++ [s]) d1 r σ' Hwf1 Hq1 Hrest Hreg1 x)
        as [Heq|(Hnone & p1 & p2 & d2 & Hp & Hne & Hx & Hb)]; [left; exact Heq|].
      right. split; [exact Hnone|]. exists (s :: p1), p2, d2.
      split; [simpl; congruence|]. split; [discriminate|].
      split; [rewrite Hx, <- app_assoc; reflexivity|exact Hb]. }
    destruct (child σ d s) as [[e le]|] eqn:Hch.
    + pose proof (createDirIfNeeded_old σ q d s e le Hwf Hq Hch) as Hcreate.
      simpl in Hreg. rewrite (bind_Ok _ _ _ _ _ Hcreate) in Hreg.
      destruct (Directory le) as [d'|] eqn:Hdir; simpl in Hreg; [|discriminate].
      apply (Hlift σ d' Hwf); [|exact Hreg].
      rewrite dirAt_snoc, Hq. simpl. unfold child_dir. rewrite Hch. exact Hdir.
    + destruct (createDirIfNeeded_new σ q d s Hwf Hq Hs Hch)
        as (a & e & dr & σ1 & Hcreate & Hlk & _).
      simpl in Hreg. rewrite (bind_Ok _ _ _ _ _ Hcreate) in Hreg. simpl in Hreg.
      pose proof (links_wf σ σ1 q d dr s e _ Hwf Hq Hlk) as Hwf1.
      assert (Hq1 : dirAt σ1 root (q ++ [s]) = Some a).
      { rewrite (links_dirAt σ σ1 q d dr s e _ Hwf Hq Hlk).
        case_decide; [reflexivity|congruence]. }
      pose proof (links_resolve σ σ1 q d dr s e _ x Hwf Hq Hlk) as Hx1.
      destruct (Hlift σ1 a Hwf1 Hq1 Hreg)
        as [Heq|(Hnone & p1 & p2 & d2 & Hp & Hne & Hx & Hb)].
      * case_decide as Hxq; [|left; congruence].
        right. split.
        { subst x. rewrite resolve_snoc, Hq. simpl. rewrite Hch. reflexivity. }
        exists [s], path, a. split; [reflexivity|]. split; [discriminate|].
        split; [exact Hxq|]. rewrite Heq, Hx1. reflexivity.
      * case_decide as Hxq.
        { rewrite Hx1 in Hnone. discriminate. }
        right. split; [congruence|]. exists p1, p2, d2. auto.
Qed.

(** The steps of a [registerMetric] that installs: the ancestors are
    registered, the metric object is made, and one entry is linked in. *)
Lemma registerMetric_steps σ q d dp base spec unit description σ3 :
  wf σ -> dirAt σ root q = Some d -> Forall segment (dp ++ [base]) ->
  registerMetric d (dp ++ [base]) spec unit description σ = Ok None σ3 ->
  exists r σ1 σ2 dr e le,
    registerDirectory d dp σ = Ok (Some r, None) σ1 /\
    wf σ1 /\ dirs σ2 = dirs σ1 /\ entries σ2 = entries σ1 /\ wf σ2 /\
    dirAt σ2 root (q ++ dp) = Some r /\
    links σ2 σ3 r dr base e le /\ (exists m, binding_of le = Some (BoundMetric m)).
Proof.
  intros Hwf Hq Hseg Hreg.
  destruct (path_snoc (dp ++ [base]) ltac:(destruct dp; discriminate))
    as (dp' & base' & Hsnoc & HDir & HBase & HEmpty).
  apply app_inj_tail in Hsnoc as [<- <-].
  apply Forall_app in Hseg as [Hsdp Hsbase].
  assert (Hsb : segment base) by (inversion Hsbase; auto).
  unfold registerMetric in Hreg. rewrite HEmpty, HDir, bind_lift_Some in Hreg.
  destruct (registerDirectory_spec dp σ q d Hwf Hq Hsdp)
    as [[Hw Hrd]|(Hw & r & σ1 & Hrd & Hwf1 & Hr & Hext1 & Hsame & Hnew)].
  { rewrite (bind_Ok _ _ _ _ _ Hrd) in Hreg. discriminate. }
  rewrite (bind_Ok _ _ _ _ _ Hrd) in Hreg. simpl in Hreg.
  destruct (newValue spec) as [v|] eqn:Hv; [|discriminate].
  rewrite bind_lift_Some in Hreg.
  unfold bind at 1, new_metric at 1 in Hreg.
  set (m := fresh (dom (metrics σ1))) in *.
  set (mr := {| Description := description; Unit_ := unit; Value := v;
                metric_enclosingListEntry := None |}) in *.
  set (σ2 := {| dirs := dirs σ1; entries := entries σ1;
                metrics := <[m := mr]> (metrics σ1) |}) in *.
  assert (Hm1 : metrics σ1 !! m = None) by apply fresh_metric.
  destruct (wf_same_structure σ1 σ2 eq_refl eq_refl) as [Hwf2 Hext2]; [|exact Hwf1|].
  { intros m0 mr0 Hm0. simpl. rewrite lookup_insert_ne; [exact Hm0|]. congruence. }
  assert (Hr2 : dirAt σ2 root (q ++ dp) = Some r).
  { rewrite (dirAt_same σ1 σ2 _ root eq_refl eq_refl). exact Hr. }
  rewrite HBase, bind_lift_Some in Hreg. fold mr in Hreg. fold σ2 in Hreg.
  destruct (child σ2 r base) as [c|] eqn:Hch.
  { rewrite (storeMetric_old σ2 (q ++ dp) r base m c Hwf2 Hr2 Hch) in Hreg.
    discriminate. }
  destruct (storeMetric_new σ2 (q ++ dp) r base m mr Hwf2 Hr2 Hsb)
    as (e & dr & σ3' & Hstore & Hlk & Hm3); [apply lookup_insert_eq|reflexivity|exact Hch|].
  rewrite Hstore in Hreg. injection Hreg as <-.
  exists r, σ1, σ2, dr, e. eexists. split; [exact Hrd|]. split; [exact Hwf1|].
  split; [reflexivity|]. split; [reflexivity|]. split; [exact Hwf2|].
  split; [exact Hr2|]. split; [exact Hlk|]. exists m. reflexivity.
Qed.

(** A RegisterDirectory that succeeds changes nothing that was there:
    every path from the root is bound after the call to what it was bound
    to before, except the paths along the registered one that were bound to
    nothing, which are bound to directories now. *)
Theorem RegisterDirectory_binds_only_its_path σ q d path r σ' :
  reachable σ -> dirAt σ root q = Some d ->
  RegisterDirectory d path σ = Ok (Some r, None) σ' ->
  forall x,
    resolve σ' root x = resolve σ root x \/
    (resolve σ root x = None /\
     exists p1 p2 d1, newPathSpec path = p1 ++ p2 /\ x = q ++ p1 /\
                      resolve σ' root x = Some (BoundDirectory d1)).
Proof.
  intros Hreach Hq Hreg x. pose proof (reachable_wf σ Hreach) as Hwf.
  destruct (registerDirectory_frame _ σ q d r σ' Hwf Hq (newPathSpec_segments path)
              Hreg x) as [Heq|(Hnone & p1 & p2 & d1 & Hp & _ & Hx & Hb)];
    [left; exact Heq|].
  right. split; [exact Hnone|]. exists p1, p2, d1. auto.
Qed.

Lemma RegisterDirectory_binds_only_its_path_witness :
  exists r σ1,
    RegisterDirectory root "/a/b" init = Ok (Some r, None) σ1 /\
    forall x,
      resolve σ1 root x = resolve init root x \/
      (resolve init root x = None /\
       exists p1 p2 d1, newPathSpec "/a/b" = p1 ++ p2 /\ x = [] ++ p1 /\
                        resolve σ1 root x = Some (BoundDirectory d1)).
Proof.
  with_outcome (RegisterDirectory root "/a/b" init) ltac:(fun f σ1 =>
    match f with
    | (Some ?r, _) =>
        exists r, σ1;
        split; [vm_compute; reflexivity|];
        apply (RegisterDirectory_binds_only_its_path init [] root "/a/b" r σ1);
        [ apply later_refl | reflexivity | vm_compute; reflexivity ]
    end).
Defined.

(** A RegisterMetric that succeeds changes nothing that was there: every
    path from the root is bound after the call to what it was bound to
    before, except the registered path, bound to nothing before and to a
    metric now, and its proper prefixes that were bound to nothing, which
    are bound to directories now. *)
Theorem RegisterMetric_binds_only_its_path σ q d path spec unit description σ' :
  reachable σ -> dirAt σ root q = Some d ->
  RegisterMetric d path spec unit description σ = Ok None σ' ->
  forall x,
    resolve σ' root x = resolve σ root x \/
    (resolve σ root x = None /\
     ((x = q ++ newPathSpec path /\
       exists m, resolve σ' root x = Some (BoundMetric m)) \/
      (exists p1 p2 d1, newPathSpec path = p1 ++ p2 /\ p2 <> [] /\ x = q ++ p1 /\
                        resolve σ' root x = Some (BoundDirectory d1)))).
Proof.
  intros Hreach Hq Hreg x. pose proof (reachable_wf σ Hreach) as Hwf.
  unfold RegisterMetric in Hreg.
  pose proof (newPathSpec_segments path) as Hseg.
  destruct (newPathSpec path) as [|s0 p0] eqn:Hp; [discriminate|].
  destruct (exists_last (l := s0 :: p0) ltac:(discriminate)) as (dp & base & Hsnoc).
  rewrite Hsnoc in *. clear Hsnoc.
  destruct (registerMetric_steps σ q d dp base spec unit description σ' Hwf Hq Hseg Hreg)
    as (r & σ1 & σ2 & dr & e & le & Hrd & Hwf1 & Hd2 & He2 & Hwf2 & Hr2 & Hlk & m & Hm).
  apply Forall_app in Hseg as [Hsdp _].
  pose proof (links_resolve σ2 σ' (q ++ dp) r dr base e le x Hwf2 Hr2 Hlk) as Hx3.
  rewrite (resolve_same σ1 σ2 root x Hd2 He2) in Hx3.
  assert (Hfree : resolve σ1 root ((q ++ dp) ++ [base]) = None).
  { rewrite <- (resolve_same σ1 σ2 root _ Hd2 He2), resolve_snoc, Hr2. simpl.
    rewrite (links_unbound σ2 σ' r dr base e le Hlk). reflexivity. }
  destruct (registerDirectory_frame dp σ q d r σ1 Hwf Hq Hsdp Hrd x)
    as [Heq|(Hnone & p1 & p2 & d1 & Hdp & Hne & Hx & Hb)].
  - case_decide as Hxq; [|left; congruence].
    right. split; [rewrite <- Heq, Hxq; exact Hfree|]. left.
    split; [rewrite Hxq, app_assoc; reflexivity|]. exists m. congruence.
  - case_decide as Hxq.
    { rewrite Hxq, Hfree in Hb. discriminate. }
    right. split; [exact Hnone|]. right. exists p1, (p2 ++ [base]), d1.
    split; [rewrite Hdp, app_assoc; reflexivity|].
    split; [destruct p2; discriminate|]. split; [exact Hx|congruence].
Qed.

Lemma RegisterMetric_binds_only_its_path_witness :
  exists σ1,
    RegisterMetric root "/proc/foo" (SrcPointer GoInt) 0%N "" init = Ok None σ1 /\
    forall x,
      resolve σ1 root x = resolve init root x \/
      (resolve init root x = None /\
       ((x = [] ++ newPathSpec "/proc/foo" /\
         exists m, resolve σ1 root x = Some (BoundMetric m)) \/
        (exists p1 p2 d1, newPathSpec "/proc/foo" = p1 ++ p2 /\ p2 <> [] /\
                          x = [] ++ p1 /\
                          resolve σ1 root x = Some (BoundDirectory d1)))).
Proof.
  with_proc_foo ltac:(fun σ1 =>
    exists σ1; split; [vm_compute; reflexivity|];
    apply (RegisterMetric_binds_only_its_path init [] root "/proc/foo"
             (SrcPointer GoInt) 0%N "" σ1);
    [ apply later_refl | reflexivity | vm_compute; reflexivity ]).
Defined.

(** RegisterMetric with a source that newValue does not accept: on the
    empty path and behind a metric it returns PathInUse and leaves the store
    as it is; otherwise it panics, after it has made the directories of the
    path that were missing, with the path itself bound as before and the
    same metrics as before. *)
Theorem RegisterMetric_of_unsupported_source σ q d path spec unit description :
  reachable σ -> dirAt σ root q = Some d -> newValue spec = None ->
  ((newPathSpec path = [] \/ metric_on_walk σ d (removelast (newPathSpec path))) ->
   RegisterMetric d path spec unit description σ = Ok (Some ErrPathInUse) σ) /\
  (newPathSpec path <> [] ->
   ~ metric_on_walk σ d (removelast (newPathSpec path)) ->
   exists σ',
     RegisterMetric d path spec unit description σ = Panic σ' /\
     reachable σ' /\
     (exists r, dirAt σ' root (q ++ removelast (newPathSpec path)) = Some r) /\
     resolve σ' root (q ++ newPathSpec path) = resolve σ root (q ++ newPathSpec path) /\
     (forall x m, resolve σ' root x = Some (BoundMetric m) <->
                  resolve σ root x = Some (BoundMetric m))).
Proof.
  intros Hreach Hq Hv. pose proof (reachable_wf σ Hreach) as Hwf.
  pose proof (newPathSpec_segments path) as Hseg.
  pose proof (registerMetric_spec σ q d (newPathSpec path) spec unit description
                Hwf Hq Hseg) as Hspec.
  split.
  - intros Hcase. unfold RegisterMetric.
    destruct Hspec as [[_ Heq]|(dp & base & Hsplit & [[_ Heq]|[Hno _]])]; auto.
    destruct Hcase as [Hnil|Hw].
    + rewrite Hnil in Hsplit. destruct dp; discriminate.
    + rewrite Hsplit, removelast_snoc in Hw. contradiction.
  - intros Hne Hw.
    destruct Hspec as [[Hnil _]|(dp & base & Hsplit & [[Hw' _]|(_ & r & σ1 & Hrd & Hwf1 & Hext1 & Hr & Hcases)])].
    + contradiction.
    + rewrite Hsplit, removelast_snoc in Hw. contradiction.
    + destruct Hcases as [[_ Hpanic]|[(v & _ & _ & Hv' & _)|(v & _ & _ & _ & Hv' & _)]];
        try congruence.
      assert (Hsdp : Forall segment dp).
      { rewrite Hsplit in Hseg. apply Forall_app in Hseg as [H1 _]. exact H1. }
      pose proof (registerDirectory_frame dp σ q d r σ1 Hwf Hq Hsdp Hrd) as Hframe.
      exists σ1. split; [exact Hpanic|]. split; [|split; [|split]].
      * eapply later_RegisterMetric_panic; [exact Hreach|exists q; exact Hq|exact Hpanic].
      * exists r. rewrite Hsplit, removelast_snoc. exact Hr.
      * destruct (Hframe (q ++ newPathSpec path))
          as [Heq|(_ & p1 & p2 & d1 & Hdp & _ & Hx & _)]; [exact Heq|].
        exfalso. apply app_inv_head in Hx. rewrite Hsplit, Hdp in Hx.
        apply (f_equal length) in Hx. rewrite !length_app in Hx. simpl in Hx. lia.
      * intros x m.
        destruct (Hframe x) as [Heq|(Hnone & p1 & p2 & d1 & _ & _ & _ & Hb)].
        { rewrite Heq. reflexivity. }
        rewrite Hnone, Hb. split; discriminate.
Qed.

Lemma RegisterMetric_of_unsupported_source_witness :
  newValue SrcOther = None /\
  ((newPathSpec "/proc/foo" = [] \/
    metric_on_walk init root (removelast (newPathSpec "/proc/foo"))) ->
   RegisterMetric root "/proc/foo" SrcOther 0%N "" init = Ok (Some ErrPathInUse) init) /\
  (newPathSpec "/proc/foo" <> [] ->
   ~ metric_on_walk init root (removelast (newPathSpec "/proc/foo")) ->
   exists σ',
     RegisterMetric root "/proc/foo" SrcOther 0%N "" init = Panic σ' /\
     reachable σ' /\
     (exists r, dirAt σ' root ([] ++ removelast (newPathSpec "/proc/foo")) = Some r) /\
     resolve σ' root ([] ++ newPathSpec "/proc/foo")
       = resolve init root ([] ++ newPathSpec "/proc/foo") /\
     (forall x m, resolve σ' root x = Some (BoundMetric m) <->
                  resolve init root x = Some (BoundMetric m))).
Proof.
  split; [reflexivity|].
  apply (RegisterMetric_of_unsupported_source init [] root "/proc/foo" SrcOther 0%N "").
  - apply later_refl.
  - reflexivity.
  - reflexivity.
Defined.

(** *** Relative paths *)

Lemma wf_root_encl σ dr :
  wf σ -> dirs σ !! root = Some dr -> enclosingListEntry dr = None.
Proof.
  intros Hwf Hdr. destruct (wf_root σ Hwf) as (dr0 & Hdr0 & Hencl). congruence.
Qed.

(** An entry stands at one place of the tree. *)
Lemma entry_at_inj σ x1 : forall x2 d1 d2 s1 s2 e le1 le2,
  wf σ ->
  dirAt σ root x1 = Some d1 -> child σ d1 s1 = Some (e, le1) ->
  dirAt σ root x2 = Some d2 -> child σ d2 s2 = Some (e, le2) ->
  x1 ++ [s1] = x2 ++ [s2].
Proof.
  induction x1 as [|t1 y1 IH] using rev_ind;
    intros x2 d1 d2 s1 s2 e le1 le2 Hwf H1 Hc1 H2 Hc2;
    destruct (wf_entry_at σ _ d1 s1 e le1 Hwf H1 Hc1)
      as (dr1 & Hdr1 & He1 & Hn1 & _ & Hp1 & _);
    destruct (wf_entry_at σ _ d2 s2 e le2 Hwf H2 Hc2)
      as (dr2 & Hdr2 & He2 & Hn2 & _ & Hp2 & _);
    rewrite He1 in He2; injection He2 as <-;
    assert (Hs : s1 = s2) by congruence; rewrite <- Hs in *; clear Hs;
    assert (Hencl : enclosingListEntry dr1 = enclosingListEntry dr2) by congruence.
  - injection H1 as <-.
    rewrite (wf_root_encl σ dr1 Hwf Hdr1) in Hencl.
    destruct x2 as [|t2 y2 _] using rev_ind; [reflexivity|].
    destruct (wf_dir_entry σ y2 t2 d2 Hwf H2) as (_ & e2 & _ & dr & _ & _ & Hdr & He).
    congruence.
  - destruct (wf_dir_entry σ y1 t1 d1 Hwf H1) as (d0 & e1 & l1 & dr & Hy1 & Hk1 & Hdr & He).
    rewrite Hdr1 in Hdr. injection Hdr as <-.
    destruct x2 as [|t2 y2 _] using rev_ind.
    { injection H2 as <-. rewrite (wf_root_encl σ dr2 Hwf Hdr2) in Hencl. congruence. }
    destruct (wf_dir_entry σ y2 t2 d2 Hwf H2) as (d0' & e2 & l2 & dr' & Hy2 & Hk2 & Hdr' & He').
    rewrite Hdr2 in Hdr'. injection Hdr' as <-.
    assert (e1 = e2) by congruence. subst e2.
    rewrite (IH y2 d0 d0' t1 t2 e1 l1 l2 Hwf Hy1 Hk1 Hy2 Hk2). reflexivity.
Qed.

Lemma pathFrom_loop_stop fuel n names σ :
  pathFrom_loop fuel (Some n) (Some n) names σ = Ok (Some n, names) σ.
Proof. destruct fuel; simpl; case_decide; (reflexivity || contradiction). Qed.

(** Up from an entry below [fromDir]: the loop stops at the entry of
    [fromDir]. *)
Lemma pathFrom_loop_from σ q1 fromDir drf ef :
  wf σ -> dirAt σ root q1 = Some fromDir ->
  dirs σ !! fromDir = Some drf -> enclosingListEntry drf = Some ef ->
  forall p d s e le fuel names,
    dirAt σ root (q1 ++ p) = Some d -> child σ d s = Some (e, le) ->
    length p < fuel ->
    pathFrom_loop fuel (Some e) (Some ef) names σ
    = Ok (Some ef, names ++ s :: rev p) σ.
Proof.
  intros Hwf Hq1 Hdrf Hef.
  assert (Hat : exists q0 s0 d0 le0,
            q1 = q0 ++ [s0] /\ dirAt σ root q0 = Some d0 /\
            child σ d0 s0 = Some (ef, le0)).
  { destruct q1 as [|s0 q0 _] using rev_ind.
    - injection Hq1 as <-. rewrite (wf_root_encl σ drf Hwf Hdrf) in Hef. discriminate.
    - destruct (wf_dir_entry σ q0 s0 fromDir Hwf Hq1)
        as (d0 & e0 & le0 & dr & Hq0 & Hc0 & Hdr & He0).
      exists q0, s0, d0, le0. split; [reflexivity|]. split; [exact Hq0|]. congruence. }
  destruct Hat as (q0 & s0 & d0 & le0 & Hq1eq & Hq0 & Hc0).
  induction p as [|s' p IH] using rev_ind; intros d s e le fuel names Hd Hc Hfuel.
  - rewrite app_nil_r in Hd. rewrite Hq1 in Hd. injection Hd as <-.
    destruct (wf_entry_at σ q1 fromDir s e le Hwf Hq1 Hc)
      as (dr & Hdr & He & Hname & _ & Hpar & _).
    rewrite Hdrf in Hdr. injection Hdr as <-.
    assert (Hne : Some e <> Some ef).
    { intros Heq. injection Heq as ->.
      pose proof (entry_at_inj σ q1 q0 fromDir d0 s s0 ef le le0 Hwf Hq1 Hc Hq0 Hc0) as Hx.
      rewrite <- Hq1eq in Hx. apply (f_equal length) in Hx.
      rewrite length_app in Hx. simpl in Hx. lia. }
    destruct fuel; [lia|]. simpl. case_decide; [contradiction|].
    rewrite (bind_Ok _ _ _ _ _ (get_entry_Ok _ _ _ He)).
    rewrite Hpar, Hef, Hname. apply pathFrom_loop_stop.
  - rewrite app_assoc in Hd.
    destruct (wf_dir_entry σ (q1 ++ p) s' d Hwf Hd)
      as (d' & e' & le' & dr & Hd' & Hc' & Hdr & Hencl).
    destruct (wf_entry_at σ ((q1 ++ p) ++ [s']) d s e le Hwf Hd Hc)
      as (dr' & Hdr' & He & Hname & _ & Hpar & _).
    rewrite Hdr in Hdr'. injection Hdr' as <-.
    assert (Hne : Some e <> Some ef).
    { intros Heq. injection Heq as ->.
      pose proof (entry_at_inj σ _ q0 d d0 s s0 ef le le0 Hwf Hd Hc Hq0 Hc0) as Hx.
      rewrite <- Hq1eq in Hx. apply (f_equal length) in Hx.
      rewrite !length_app in Hx. simpl in Hx. lia. }
    rewrite length_app in Hfuel. simpl in Hfuel.
    destruct fuel; [lia|]. simpl. case_decide; [contradiction|].
    rewrite (bind_Ok _ _ _ _ _ (get_entry_Ok _ _ _ He)).
    rewrite Hpar, Hencl, Hname.
    rewrite (IH d' s' e' le' fuel (names ++ [s]) Hd' Hc') by lia.
    rewrite rev_app_distr. simpl. rewrite <- app_assoc. reflexivity.
Qed.

(** Up from an entry that is not below [fromDir]: the loop runs to the
    top. *)
Lemma pathFrom_loop_miss σ q1 ef :
  wf σ ->
  (forall q0 s0 d0 le0, dirAt σ root q0 = Some d0 ->
     child σ d0 s0 = Some (ef, le0) -> q0 ++ [s0] = q1) ->
  forall y d s e le fuel names,
    dirAt σ root y = Some d -> child σ d s = Some (e, le) ->
    (forall p, y ++ [s] <> q1 ++ p) ->
    length y < fuel ->
    pathFrom_loop fuel (Some e) (Some ef) names σ
    = Ok (None, names ++ s :: rev y) σ.
Proof.
  intros Hwf Hef.
  induction y as [|s' y IH] using rev_ind; intros d s e le fuel names Hd Hc Hout Hfuel;
    assert (Hne : Some e <> Some ef)
      by (intros Heq; injection Heq as ->;
          apply (Hout []); rewrite app_nil_r; eapply Hef; eauto).
  - injection Hd as <-.
    destruct (wf_entry_at σ [] root s e le Hwf eq_refl Hc)
      as (dr & Hdr & He & Hname & _ & Hpar & _).
    rewrite (wf_root_encl σ dr Hwf Hdr) in Hpar.
    destruct fuel; [lia|]. simpl. case_decide; [contradiction|].
    rewrite (bind_Ok _ _ _ _ _ (get_entry_Ok _ _ _ He)).
    rewrite Hpar, Hname. apply pathFrom_loop_nil.
  - destruct (wf_dir_entry σ y s' d Hwf Hd)
      as (d' & e' & le' & dr & Hd' & Hc' & Hdr & Hencl).
    destruct (wf_entry_at σ (y ++ [s']) d s e le Hwf Hd Hc)
      as (dr' & Hdr' & He & Hname & _ & Hpar & _).
    rewrite Hdr in Hdr'. injection Hdr' as <-.
    rewrite length_app in Hfuel. simpl in Hfuel.
    destruct fuel; [lia|]. simpl. case_decide; [contradiction|].
    rewrite (bind_Ok _ _ _ _ _ (get_entry_Ok _ _ _ He)).
    rewrite Hpar, Hencl, Hname.
    rewrite (IH d' s' e' le' fuel (names ++ [s]) Hd' Hc'); [| |lia].
    + rewrite rev_app_distr. simpl. rewrite <- app_assoc. reflexivity.
    + intros p Hp. apply (Hout (p ++ [s])). rewrite Hp, app_assoc. reflexivity.
Qed.

(** pathFrom gives the path of an entry relative to the directory it is
    asked from when the entry is below that directory, and the empty path
    when it is not.  [fuel] bounds the walk up the parent pointers: the
    depth of the entry is enough. *)
Theorem pathFrom_relative_or_nil σ q1 fromDir y d s e le fuel :
  reachable σ -> dirAt σ root q1 = Some fromDir ->
  dirAt σ root y = Some d -> child σ d s = Some (e, le) -> length y < fuel ->
  (forall p, y ++ [s] = q1 ++ p -> pathFrom fuel (Some e) fromDir σ = Ok p σ) /\
  ((forall p, y ++ [s] <> q1 ++ p) -> pathFrom fuel (Some e) fromDir σ = Ok [] σ).
Proof.
  intros Hreach Hq1 Hy Hc Hfuel. pose proof (reachable_wf σ Hreach) as Hwf.
  destruct (wf_dirs σ Hwf q1 fromDir Hq1) as [drf Hdrf].
  unfold pathFrom. rewrite (bind_Ok _ _ _ _ _ (get_dir_Ok _ _ _ Hdrf)).
  destruct q1 as [|s0 q0 _] using rev_ind.
  - (* from the root *)
    injection Hq1 as <-. rewrite (wf_root_encl σ drf Hwf Hdrf).
    rewrite (bind_Ok _ _ _ _ _ (pathFrom_loop_spec σ y d s e le fuel [] Hwf Hy Hc Hfuel)).
    cbn [fst snd]. case_decide; [|congruence].
    split.
    + intros p Hp. simpl in Hp. subst p. unfold ret. f_equal.
      rewrite reverse_in_place_rev. simpl. rewrite rev_involutive. reflexivity.
    + intros Hout. exfalso. apply (Hout (y ++ [s])). reflexivity.
  - destruct (wf_dir_entry σ q0 s0 fromDir Hwf Hq1)
      as (d0 & ef & le0 & dr & Hq0 & Hc0 & Hdr & Hef).
    rewrite Hdrf in Hdr. injection Hdr as <-. rewrite Hef.
    split.
    + intros p Hp. destruct p as [|s' p _] using rev_ind.
      * rewrite app_nil_r in Hp. apply app_inj_tail in Hp as [-> ->].
        rewrite Hq0 in Hy. injection Hy as <-.
        rewrite Hc0 in Hc. injection Hc as <- <-.
        rewrite (bind_Ok _ _ _ _ _ (pathFrom_loop_stop fuel ef [] σ)).
        cbn [fst snd]. case_decide; [reflexivity|congruence].
      * rewrite app_assoc in Hp. apply app_inj_tail in Hp as [-> ->].
        rewrite (bind_Ok _ _ _ _ _
                   (pathFrom_loop_from σ (q0 ++ [s0]) fromDir drf ef Hwf Hq1 Hdrf Hef
                      p d s' e le fuel [] Hy Hc
                      ltac:(rewrite length_app in Hfuel; lia))).
        cbn [fst snd]. case_decide; [|congruence].
        unfold ret. f_equal. rewrite reverse_in_place_rev. simpl.
        rewrite rev_involutive. reflexivity.
    + intros Hout.
      rewrite (bind_Ok _ _ _ _ _
                 (pathFrom_loop_miss σ (q0 ++ [s0]) ef Hwf
                    ltac:(intros q0' s0' d0' le0' H1 H2;
                          exact (entry_at_inj σ q0' q0 d0' d0 s0' s0 ef le0' le0
                                   Hwf H1 H2 Hq0 Hc0))
                    y d s e le fuel [] Hy Hc Hout Hfuel)).
      cbn [fst snd]. case_decide; [congruence|reflexivity].
Qed.

Lemma pathFrom_relative_or_nil_witness :
  exists σ1 fromDir e le,
    RegisterMetric root "/proc/foo" (SrcPointer GoInt) 0%N "" init = Ok None σ1 /\
    dirAt σ1 root ["proc"] = Some fromDir /\
    child σ1 fromDir "foo" = Some (e, le) /\
    (forall p, ["proc"] ++ ["foo"] = ["proc"] ++ p ->
               pathFrom 2 (Some e) fromDir σ1 = Ok p σ1) /\
    ((forall p, ["proc"] ++ ["foo"] <> ["proc"] ++ p) ->
     pathFrom 2 (Some e) fromDir σ1 = Ok [] σ1).
Proof.
  with_proc_foo ltac:(fun σ1 =>
    let fd := eval vm_compute in (dirAt σ1 root ["proc"]) in
    match fd with
    | Some ?fromDir =>
        let c := eval vm_compute in (child σ1 fromDir "foo") in
        match c with
        | Some (?e, ?le) =>
            exists σ1, fromDir, e, le;
            split; [vm_compute; reflexivity|];
            split; [vm_compute; reflexivity|];
            split; [vm_compute; reflexivity|];
            apply (pathFrom_relative_or_nil σ1 ["proc"] fromDir ["proc"] fromDir
                     "foo" e le 2);
            [ proc_foo_registered σ1 | vm_compute; reflexivity
            | vm_compute; reflexivity | vm_compute; reflexivity | simpl; lia ]
        end
    end).
Defined.

(** *** Paths relative to a directory *)

Lemma registerDirectory_app pa pb : forall σ q d r,
  wf σ -> dirAt σ root q = Some d -> dirAt σ d pa = Some r ->
  registerDirectory d (pa ++ pb) σ = registerDirectory r pb σ.
Proof.
  induction pa as [|s pa IH]; intros σ q d r Hwf Hq Hr.
  - injection Hr as <-. reflexivity.
  - simpl in Hr. destruct (child_dir σ d s) as [d'|] eqn:Hd'; [|discriminate].
    simpl in Hr. unfold child_dir in Hd'.
    destruct (child σ d s) as [[e le]|] eqn:Hc; [|discriminate]. simpl in Hd'.
    pose proof (createDirIfNeeded_old σ q d s e le Hwf Hq Hc) as Hcreate.
    rewrite Hd' in Hcreate.
    cbn [app registerDirectory]. rewrite (bind_Ok _ _ _ _ _ Hcreate). cbn [fst snd].
    apply (IH σ (q ++ [s]) d' r Hwf); [|exact Hr].
    rewrite dirAt_snoc, Hq. simpl. unfold child_dir. rewrite Hc. exact Hd'.
Qed.

(** A path below a directory may be given from the directory or, joined
    with a slash to the path of the directory, from above it: lookups and
    registrations of both kinds then do the same and return the same. *)
Theorem relative_paths_compose σ d a b r :
  reachable σ -> in_namespace σ d ->
  GetDirectory d a σ = Ok (Some r) σ ->
  GetDirectoryOrMetric d (a +:+ "/" +:+ b) σ = GetDirectoryOrMetric r b σ /\
  RegisterDirectory d (a +:+ "/" +:+ b) σ = RegisterDirectory r b σ /\
  (newPathSpec b <> [] -> forall spec unit description,
     RegisterMetric d (a +:+ "/" +:+ b) spec unit description σ
     = RegisterMetric r b spec unit description σ).
Proof.
  intros Hreach [q Hq] Hget. pose proof (reachable_wf σ Hreach) as Hwf.
  rewrite (GetDirectory_spec σ q d a Hwf Hq) in Hget. injection Hget as Hr.
  assert (Hjoin : newPathSpec (a +:+ "/" +:+ b) = newPathSpec a ++ newPathSpec b).
  { unfold newPathSpec. rewrite Split_join. apply filter_app. }
  assert (Hqr : dirAt σ root (q ++ newPathSpec a) = Some r).
  { rewrite dirAt_app, Hq. exact Hr. }
  split; [|split].
  - rewrite (GetDirectoryOrMetric_spec σ q d _ Hwf Hq).
    rewrite (GetDirectoryOrMetric_spec σ _ r _ Hwf Hqr).
    rewrite Hjoin, (resolve_app σ d _ r _ Hr). reflexivity.
  - unfold RegisterDirectory. rewrite Hjoin.
    apply (registerDirectory_app _ _ σ q d r Hwf Hq Hr).
  - intros Hne spec unit description. unfold RegisterMetric.
    rewrite Hjoin.
    destruct (path_snoc (newPathSpec b) Hne) as (dp & base & Hb & HDir & HBase & HEmpty).
    destruct (path_snoc (newPathSpec a ++ newPathSpec b)
                ltac:(rewrite Hb; intros Hnil; apply (f_equal length) in Hnil;
                      rewrite !length_app in Hnil; simpl in Hnil; lia))
      as (dp' & base' & Hab & HDir' & HBase' & HEmpty').
    rewrite Hb, app_assoc in Hab. apply app_inj_tail in Hab as [<- <-].
    unfold registerMetric. rewrite HEmpty, HEmpty', HDir, HDir', !bind_lift_Some.
    rewrite HBase, HBase'. unfold bind at 1 3.
    rewrite (registerDirectory_app _ dp σ q d r Hwf Hq Hr). reflexivity.
Qed.

Lemma relative_paths_compose_witness :
  exists r σ1,
    RegisterDirectory root "/proc" init = Ok (Some r, None) σ1 /\
    GetDirectory root "proc" σ1 = Ok (Some r) σ1 /\
    GetDirectoryOrMetric root ("proc" +:+ "/" +:+ "foo/bar") σ1
      = GetDirectoryOrMetric r "foo/bar" σ1 /\
    RegisterDirectory root ("proc" +:+ "/" +:+ "foo/bar") σ1
      = RegisterDirectory r "foo/bar" σ1 /\
    (newPathSpec "foo/bar" <> [] -> forall spec unit description,
       RegisterMetric root ("proc" +:+ "/" +:+ "foo/bar") spec unit description σ1
       = RegisterMetric r "foo/bar" spec unit description σ1).
Proof.
  with_outcome (RegisterDirectory root "/proc" init) ltac:(fun f σ1 =>
    match f with
    | (Some ?r, _) =>
        exists r, σ1;
        split; [vm_compute; reflexivity|];
        split; [vm_compute; reflexivity|];
        apply (relative_paths_compose σ1 root "proc" "foo/bar" r);
        [ apply (later_RegisterDirectory init init root "/proc" f σ1);
          [apply later_refl | at_root | vm_compute; reflexivity]
        | at_root
        | vm_compute; reflexivity ]
    end).
Defined.

(** *** The entries of a directory *)

(** Every entry of a directory of the namespace carries the name it is
    bound to, a name the parser could have produced, and is either a
    directory or a metric, never both and never neither; the directory or
    the metric points back to the entry. *)
Theorem entry_is_directory_or_metric σ d s e le :
  reachable σ -> in_namespace σ d ->
  child σ d s = Some (e, le) ->
  Name le = s /\ segment s /\
  ((exists dir dr, Directory le = Some dir /\ Metric le = None /\
                   in_namespace σ dir /\ dirs σ !! dir = Some dr /\
                   enclosingListEntry dr = Some e) \/
   (exists m mr, Directory le = None /\ Metric le = Some m /\
                 metrics σ !! m = Some mr /\
                 metric_enclosingListEntry mr = Some e)).
Proof.
  intros Hreach [q Hq] Hc. pose proof (reachable_wf σ Hreach) as Hwf.
  destruct (wf_entry_at σ q d s e le Hwf Hq Hc)
    as (dr & Hdr & He & Hname & Hseg & Hpar & Hrole).
  split; [exact Hname|]. split; [exact Hseg|].
  unfold role in Hrole.
  destruct (Directory le) as [dir|] eqn:Hdir, (Metric le) as [m|] eqn:Hmet;
    try contradiction.
  - left. destruct Hrole as (dr' & Hdr' & Hencl). exists dir, dr'.
    split; [reflexivity|]. split; [reflexivity|]. split; [|auto].
    exists (q ++ [s]). rewrite dirAt_snoc, Hq. simpl. unfold child_dir.
    rewrite Hc. exact Hdir.
  - right. destruct Hrole as (mr & Hmr & Hencl). exists m, mr. auto.
Qed.

Lemma entry_is_directory_or_metric_witness :
  exists σ1 e le,
    RegisterMetric root "/proc/foo" (SrcPointer GoInt) 0%N "" init = Ok None σ1 /\
    child σ1 root "proc" = Some (e, le) /\
    Name le = "proc" /\ segment "proc" /\
    ((exists dir dr, Directory le = Some dir /\ Metric le = None /\
                     in_namespace σ1 dir /\ dirs σ1 !! dir = Some dr /\
                     enclosingListEntry dr = Some e) \/
     (exists m mr, Directory le = None /\ Metric le = Some m /\
                   metrics σ1 !! m = Some mr /\
                   metric_enclosingListEntry mr = Some e)).
Proof.
  with_proc_foo ltac:(fun σ1 =>
    let c := eval vm_compute in (child σ1 root "proc") in
    match c with
    | Some (?e, ?le) =>
        exists σ1, e, le;
        split; [vm_compute; reflexivity|];
        split; [vm_compute; reflexivity|];
        apply (entry_is_directory_or_metric σ1 root "proc" e le);
        [ proc_foo_registered σ1 | at_root | vm_compute; reflexivity ]
    end).
Defined.

End Tree.
